(** * SelectorFramework: the pipeline kernel (core/Kernel.cc)

    A shallow embedding of [Pipeline], [Node], [Algorithm], [Tool] and
    [SimpleAlg] and the properties of the registry, the execution loop and
    the output-file map.

    Conventions of the model:
    - a pointer to a component ([Algorithm*], [Tool*]) is the position of the
      component in its vector; [unique_ptr] keeps the address of a component
      stable, and the vectors only grow;
    - a [TFile*] is [option nat]: [None] is [nullptr], [Some f] the file
      object number [f];
    - a C++ exception is a value of [exn]; a function that may throw returns
      a [result] next to the state it leaves behind;
    - the data members that concrete algorithms and tools add to [Algorithm]
      and [Tool] live in a heap of type [W], on which their virtual methods
      act; the virtual methods are looked up through the dynamic type of the
      component.

    Limits of the model:
    - the bodies of the virtual methods read the pipeline they are given and
      write the heap; what a body could do to the members of the pipeline
      through [pipe()] (bind an output file, register a component while the
      pipeline runs) is left out;
    - [load], [execute] and [finalize] return: an exception thrown by such a
      body, or a body that does not return, is left out; [connect] may
      throw, as [SimpleAlg::connect] does;
    - [inFile] and its cache of input files, [inFileHandles], are modelled
      next to the pipeline, in [PipelineIn]; a [TFile] is an object that
      has been created and not deleted, without contents. *)

From stdpp Require Import gmap strings list.

Set Warnings "-clear-no-such-hyp".

(** ** Statuses, exceptions *)

(** [Algorithm::Status] *)
Inductive Status := Continue | SkipToNext | EndOfFile.

#[global] Instance Status_eq_dec : EqDecision Status.
Proof. solve_decision. Defined.

(** What can leave a function other than by [return]: [std::runtime_error]
    with its [what()] string (the only exception Kernel.cc throws), and the
    dereference of a null pointer, at which the model stops. *)
Inductive exn :=
  | runtime_error (what : string)
  | null_dereference.

Inductive result (A : Type) :=
  | Return (a : A)
  | Throw (e : exn).
Arguments Return {A} a.
Arguments Throw {A} e.

(** [vetoIf] *)
Definition vetoIf (cond : bool) : Status :=
  if cond then SkipToNext else Continue.

(** The three messages of Kernel.cc. [Form] is printf-style formatting with
    one [%s]. *)
Definition getTag_not_implemented : exn :=
  runtime_error "getTag not implemented for this algorithm".

Definition couldnt_find (name : string) : exn :=
  runtime_error ("getThing() couldn't find " +:+ name).

Definition already_opened (name : string) : exn :=
  runtime_error ("file " +:+ name +:+ " already opened").

(** ** ROOT files *)

(** What the kernel does to [TFile] objects, in the order it does it:
    [new TFile(path, option)] and [delete]. *)
Inductive FileEvent :=
  | TFile_new (f : nat) (path option : string)
  | TFile_delete (f : nat).

(** [Pipeline::DefaultFile] *)
Definition DefaultFile : string := "".

(** What [process] calls, in the order it calls it: the methods of the
    components, with the position of the component, and [TFile::cd]. *)
Inductive Event :=
  | ev_load (alg : nat)
  | ev_connect (alg : nat)
  | ev_tool_connect (tool : nat)
  | ev_execute (alg : nat) (status : Status)
  | ev_cd (f : nat)
  | ev_finalize (alg : nat).

#[global] Instance Event_eq_dec : EqDecision Event.
Proof. solve_decision. Defined.

(** ** Components *)

Section Kernel.

(** The classes of the program: [dynamic_cast<T*>] of a component of
    dynamic type [d] is non-null iff [derives d T] ([d] is [T] or has [T]
    as a base); [type_name T] is [typeid(T).name()]. *)
Context {cls : Type} (derives : cls → cls → bool) (type_name : cls → string).

(** The data members of the concrete components. *)
Context {W : Type}.

(** [Node]: its dynamic type and its private [pipe_], the address of a
    [Pipeline]; [None] is the member before any assignment (the
    constructor does not initialise it). *)
Record Node := mkNode {
  dyn_type : cls;
  pipe_ : option nat;
}.

(** [std::map<std::string, std::unique_ptr<TFile>>]: a bound name holds a
    [unique_ptr], which may be empty. *)
Abbreviation OutFileMap := (gmap string (option nat)).

(** [Pipeline]. [this] is the address of the object; [heap] holds the data
    members of the owned components; [next_file] and [file_log] are the
    [TFile] objects created so far and what happened to them. *)
Record Pipeline := mkPipeline {
  this : nat;
  outFileMap : OutFileMap;
  algVec : list Node;
  runningReaders : gset nat;
  toolVec : list Node;
  inFilePaths : list string;
  heap : W;
  next_file : nat;
  file_log : list FileEvent;
}.

Definition set_outFileMap (m : OutFileMap) (p : Pipeline) : Pipeline :=
  mkPipeline (this p) m (algVec p) (runningReaders p) (toolVec p)
             (inFilePaths p) (heap p) (next_file p) (file_log p).
Definition set_algVec (v : list Node) (p : Pipeline) : Pipeline :=
  mkPipeline (this p) (outFileMap p) v (runningReaders p) (toolVec p)
             (inFilePaths p) (heap p) (next_file p) (file_log p).
Definition set_runningReaders (r : gset nat) (p : Pipeline) : Pipeline :=
  mkPipeline (this p) (outFileMap p) (algVec p) r (toolVec p)
             (inFilePaths p) (heap p) (next_file p) (file_log p).
Definition set_toolVec (v : list Node) (p : Pipeline) : Pipeline :=
  mkPipeline (this p) (outFileMap p) (algVec p) (runningReaders p) v
             (inFilePaths p) (heap p) (next_file p) (file_log p).
Definition set_inFilePaths (l : list string) (p : Pipeline) : Pipeline :=
  mkPipeline (this p) (outFileMap p) (algVec p) (runningReaders p) (toolVec p)
             l (heap p) (next_file p) (file_log p).
Definition set_heap (h : W) (p : Pipeline) : Pipeline :=
  mkPipeline (this p) (outFileMap p) (algVec p) (runningReaders p) (toolVec p)
             (inFilePaths p) h (next_file p) (file_log p).

(** The virtual methods of an algorithm class. The first argument of a
    method is the position of the object it is called on.
    - [isReader] is a constant of the class, as in its declaration;
    - [getTag] is [None] for a class that does not override it, which
      leaves [Algorithm::getTag];
    - [connect], given the pipeline, is the one method with an exceptional
      outcome in the model: it is where the lookups are made;
    - [execute] returns a status, as the cycle loop takes it. *)
Record AlgorithmClass := mkAlgorithmClass {
  isReader : bool;
  getTag : option (nat → W → Z);
  load : nat → list string → W → W;
  connect : nat → Pipeline → result unit * W;
  execute : nat → W → Status * W;
  finalize : nat → Pipeline → W;
}.

(** [Tool] declares no [getTag]: [getTool<T>(tag)] compiles only for a
    tool class with an accessor of its own, which [tool_getTag] is. *)
Record ToolClass := mkToolClass {
  tool_connect : nat → Pipeline → result unit * W;
  tool_getTag : nat → W → result Z;
}.

Context (alg_class : cls → AlgorithmClass) (tool_class : cls → ToolClass).

(** [Algorithm::getTag] and its overrides, through the vtable. *)
Definition Algorithm_getTag (h : W) (i : nat) (alg : Node) : result Z :=
  match getTag (alg_class (dyn_type alg)) with
  | Some f => Return (f i h)
  | None => Throw getTag_not_implemented
  end.

Definition Tool_getTag (h : W) (i : nat) (tool : Node) : result Z :=
  tool_getTag (tool_class (dyn_type tool)) i h.

(** ** Construction *)

(** [makeThing]: the new object, of dynamic type [T], goes to the end of
    the vector. Nothing assigns [pipe_] here. [init], in [makeAlg] and
    [makeTool], is what the constructor of the object writes. *)
Definition makeThing (T : cls) (vec : list Node) : nat * list Node :=
  (length vec, vec ++ [mkNode T None]).

Definition makeAlg (T : cls) (init : nat → W → W) (p : Pipeline)
  : nat * Pipeline :=
  let '(alg, vec) := makeThing T (algVec p) in
  let p1 := set_heap (init alg (heap p)) (set_algVec vec p) in
  let p2 := if isReader (alg_class T)
            then set_runningReaders ({[alg]} ∪ runningReaders p1) p1
            else p1 in
  (alg, p2).

Definition makeTool (T : cls) (init : nat → W → W) (p : Pipeline)
  : nat * Pipeline :=
  let '(tool, vec) := makeThing T (toolVec p) in
  (tool, set_heap (init tool (heap p)) (set_toolVec vec p)).

(** ** Lookup *)

(** [Pred<Thing>]: a [std::function], which may be empty ([nullptr]); a
    predicate is given the object it tests and may throw. *)
Definition Pred := option (nat → Node → result bool).

(** [getThing(vec, pred)]: the loop from position [i] on. *)
Fixpoint getThing_from (T : cls) (pred : Pred) (i : nat) (vec : list Node)
  : result nat :=
  match vec with
  | [] => Throw (couldnt_find (type_name T))
  | thing :: rest =>
      if derives (dyn_type thing) T then
        match pred with
        | None => Return i
        | Some f =>
            match f i thing with
            | Return true => Return i
            | Return false => getThing_from T pred (S i) rest
            | Throw e => Throw e
            end
        end
      else getThing_from T pred (S i) rest
  end.

Definition getThing (T : cls) (vec : list Node) (pred : Pred) : result nat :=
  getThing_from T pred 0 vec.

(** [int(tag)]: conversion of an integral tag to a 32-bit [int]. *)
Definition to_int (z : Z) : Z :=
  ((z + 2147483648) `mod` 4294967296 - 2147483648)%Z.

(** [getThing(vec, int tag)]: the predicate compares the accessor of the
    candidate with the tag. *)
Definition getThing_tag (accessor : nat → Node → result Z)
    (T : cls) (vec : list Node) (tag : Z) : result nat :=
  let pred := fun i thing =>
    match accessor i thing with
    | Return t => Return (bool_decide (t = tag))
    | Throw e => Throw e
    end in
  getThing T vec (Some pred).

Definition getAlg (T : cls) (pred : Pred) (p : Pipeline) : result nat :=
  getThing T (algVec p) pred.

Definition getAlg_tag (T : cls) (tag : Z) (p : Pipeline) : result nat :=
  getThing_tag (Algorithm_getTag (heap p)) T (algVec p) (to_int tag).

Definition getTool (T : cls) (pred : Pred) (p : Pipeline) : result nat :=
  getThing T (toolVec p) pred.

Definition getTool_tag (T : cls) (tag : Z) (p : Pipeline) : result nat :=
  getThing_tag (Tool_getTag (heap p)) T (toolVec p) (to_int tag).

(** ** Output files *)

(** [outFileMap.erase(it)]: the [unique_ptr] of the entry is destroyed,
    and with it the [TFile] it owns, if any. *)
Definition erase_outFile (name : string) (p : Pipeline) : Pipeline :=
  match outFileMap p !! name with
  | Some (Some f) =>
      mkPipeline (this p) (delete name (outFileMap p)) (algVec p)
                 (runningReaders p) (toolVec p) (inFilePaths p) (heap p)
                 (next_file p) (file_log p ++ [TFile_delete f])
  | _ => set_outFileMap (delete name (outFileMap p)) p
  end.

(** [outFileMap[name] = std::make_unique<TFile>(path, "RECREATE")], for a
    [name] without an entry. *)
Definition bind_new_outFile (path name : string) (p : Pipeline)
  : option nat * Pipeline :=
  let f := next_file p in
  (Some f,
   mkPipeline (this p) (<[name := Some f]> (outFileMap p)) (algVec p)
              (runningReaders p) (toolVec p) (inFilePaths p) (heap p)
              (S f) (file_log p ++ [TFile_new f path "RECREATE"])).

Definition makeOutFile (path name : string) (reopen : bool) (p : Pipeline)
  : result (option nat) * Pipeline :=
  match outFileMap p !! name with
  | Some _ =>
      if reopen then
        let '(f, p') := bind_new_outFile path name (erase_outFile name p) in
        (Return f, p')
      else (Throw (already_opened name), p)
  | None =>
      let '(f, p') := bind_new_outFile path name p in
      (Return f, p')
  end.

(** [outFileMap[name].get()]: [operator[]] inserts an empty [unique_ptr]
    under a name that has no entry. *)
Definition getOutFile (name : string) (p : Pipeline) : option nat * Pipeline :=
  match outFileMap p !! name with
  | Some f => (f, p)
  | None => (None, set_outFileMap (<[name := None]> (outFileMap p)) p)
  end.

Definition inFileCount (p : Pipeline) : nat := length (inFilePaths p).

(** ** [process] *)

(** [for (alg : algVec) alg->load(inFiles)], from position [i] on. *)
Fixpoint load_from (inFiles : list string) (i : nat) (algs : list Node) (h : W)
  : W * list Event :=
  match algs with
  | [] => (h, [])
  | alg :: rest =>
      let h1 := load (alg_class (dyn_type alg)) i inFiles h in
      let '(h2, evs) := load_from inFiles (S i) rest h1 in
      (h2, ev_load i :: evs)
  end.

(** [Node::do_connect], on the node part. *)
Definition Node_do_connect (pipeline : nat) (n : Node) : Node :=
  mkNode (dyn_type n) (Some pipeline).

(** [for (alg : algVec) alg->do_connect( *this)], from position [i] on;
    [algs] are the algorithms still to visit. *)
Fixpoint connect_algs_from (i : nat) (algs : list Node) (p : Pipeline)
  : result unit * Pipeline * list Event :=
  match algs with
  | [] => (Return (), p, [])
  | alg :: rest =>
      let p1 := set_algVec (<[i := Node_do_connect (this p) alg]> (algVec p)) p in
      let '(r, h) := connect (alg_class (dyn_type alg)) i p1 in
      let p2 := set_heap h p1 in
      match r with
      | Throw e => (Throw e, p2, [ev_connect i])
      | Return _ =>
          let '(r', p3, evs) := connect_algs_from (S i) rest p2 in
          (r', p3, ev_connect i :: evs)
      end
  end.

Fixpoint connect_tools_from (i : nat) (tools : list Node) (p : Pipeline)
  : result unit * Pipeline * list Event :=
  match tools with
  | [] => (Return (), p, [])
  | tool :: rest =>
      let p1 := set_toolVec (<[i := Node_do_connect (this p) tool]> (toolVec p)) p in
      let '(r, h) := tool_connect (tool_class (dyn_type tool)) i p1 in
      let p2 := set_heap h p1 in
      match r with
      | Throw e => (Throw e, p2, [ev_tool_connect i])
      | Return _ =>
          let '(r', p3, evs) := connect_tools_from (S i) rest p2 in
          (r', p3, ev_tool_connect i :: evs)
      end
  end.

(** One pass of the [for] loop inside [while (true)], from position [i]
    on, over the set of running readers and the heap. *)
Fixpoint cycle_from (i : nat) (algs : list Node) (running : gset nat) (h : W)
  : gset nat * W * list Event :=
  match algs with
  | [] => (running, h, [])
  | alg :: rest =>
      let c := alg_class (dyn_type alg) in
      if isReader c && bool_decide (i ∉ running)
      then cycle_from (S i) rest running h                       (* continue *)
      else
        let '(status, h1) := execute c i h in
        match status with
        | SkipToNext => (running, h1, [ev_execute i status])      (* break *)
        | EndOfFile =>
            let '(running2, h2, evs) :=
              cycle_from (S i) rest (running ∖ {[i]}) h1 in
            (running2, h2, ev_execute i status :: evs)
        | Continue =>
            let '(running2, h2, evs) := cycle_from (S i) rest running h1 in
            (running2, h2, ev_execute i status :: evs)
        end
  end.

Definition cycle (p : Pipeline) : Pipeline * list Event :=
  let '(running, h, evs) :=
    cycle_from 0 (algVec p) (runningReaders p) (heap p) in
  (set_heap h (set_runningReaders running p), evs).

(** [while (true) { ...; if (runningReaders.size() == 0) break; }]: the
    pipeline after the loop and the calls of each cycle; [None] when the
    loop has not left after [fuel] cycles. *)
Fixpoint cycle_loop (fuel : nat) (p : Pipeline)
  : option (Pipeline * list (list Event)) :=
  match fuel with
  | 0 => None
  | S fuel' =>
      let '(p1, evs) := cycle p in
      if bool_decide (size (runningReaders p1) = 0)
      then Some (p1, [evs])
      else
        match cycle_loop fuel' p1 with
        | Some (p2, cycles) => Some (p2, evs :: cycles)
        | None => None
        end
  end.

(** [if (outFileMap.find(DefaultFile) != outFileMap.end())
      getOutFile()->cd();] *)
Definition cd_default (p : Pipeline) : result unit * Pipeline * list Event :=
  match outFileMap p !! DefaultFile with
  | Some _ =>
      let '(f, p1) := getOutFile DefaultFile p in
      match f with
      | Some f => (Return (), p1, [ev_cd f])
      | None => (Throw null_dereference, p1, [])
      end
  | None => (Return (), p, [])
  end.

(** [for (alg : algVec) alg->finalize( *this)], from position [i] on. *)
Fixpoint finalize_from (i : nat) (algs : list Node) (p : Pipeline)
  : Pipeline * list Event :=
  match algs with
  | [] => (p, [])
  | alg :: rest =>
      let p1 := set_heap (finalize (alg_class (dyn_type alg)) i p) p in
      let '(p2, evs) := finalize_from (S i) rest p1 in
      (p2, ev_finalize i :: evs)
  end.

(** What follows the cycle loop in [process]. *)
Definition after_loop (p : Pipeline) : result unit * Pipeline * list Event :=
  match cd_default p with
  | (Throw e, p1, evs) => (Throw e, p1, evs)
  | (Return _, p1, evs) =>
      let '(p2, evs') := finalize_from 0 (algVec p1) p1 in
      (Return (), p2, evs ++ evs')
  end.

(** What precedes the cycle loop in [process]. *)
Definition before_loop (inFiles : list string) (p : Pipeline)
  : result unit * Pipeline * list Event :=
  let p0 := set_inFilePaths inFiles p in
  let '(h1, evs1) := load_from inFiles 0 (algVec p0) (heap p0) in
  let p1 := set_heap h1 p0 in
  match connect_algs_from 0 (algVec p1) p1 with
  | (Throw e, p2, evs2) => (Throw e, p2, evs1 ++ evs2)
  | (Return _, p2, evs2) =>
      let '(r, p3, evs3) := connect_tools_from 0 (toolVec p2) p2 in
      (r, p3, evs1 ++ evs2 ++ evs3)
  end.

(** [Pipeline::process]: [None] when the cycle loop has not left after
    [fuel] cycles, otherwise how the call ends, the pipeline it leaves and
    the calls it made. *)
Definition process (fuel : nat) (inFiles : list string) (p : Pipeline)
  : option (result unit * Pipeline * list Event) :=
  match before_loop inFiles p with
  | (Throw e, p1, evs) => Some (Throw e, p1, evs)
  | (Return _, p1, evs) =>
      match cycle_loop fuel p1 with
      | None => None
      | Some (p2, cycles) =>
          let '(r, p3, evs') := after_loop p2 in
          Some (r, p3, evs ++ concat cycles ++ evs')
      end
  end.

(** ** Notions the statements about lookup use *)

(** No component of [vec], whose first position is [i], both casts to [T]
    and passes the predicate: each one that casts is rejected. *)
Definition no_match (T : cls) (pred : Pred) (i : nat) (vec : list Node)
  : Prop :=
  ∀ k thing, vec !! k = Some thing → derives (dyn_type thing) T = true →
    ∃ f, pred = Some f ∧ f (i + k) thing = Return false.

(** [k] is the first position of [vec] whose component casts to [T]. *)
Definition first_of_type (T : cls) (vec : list Node) (k : nat) : Prop :=
  (∃ thing, vec !! k = Some thing ∧ derives (dyn_type thing) T = true)
  ∧ ∀ j thing, j < k → vec !! j = Some thing →
      derives (dyn_type thing) T = false.

(** The positions, from [i] on, of the algorithms that are readers. *)
Fixpoint readers_from (i : nat) (algs : list Node) : gset nat :=
  match algs with
  | [] => ∅
  | alg :: rest =>
      (if isReader (alg_class (dyn_type alg)) then {[i]} else ∅)
      ∪ readers_from (S i) rest
  end.

(** Every registered reader is still running: the state [makeAlg] builds. *)
Definition all_readers_running (p : Pipeline) : Prop :=
  runningReaders p = readers_from 0 (algVec p).

(** A pipeline without components, at address [a]. *)
Definition empty_pipeline (a : nat) (h : W) : Pipeline :=
  mkPipeline a ∅ [] ∅ [] [] h 0 [].

(** [n] passes of the [for] loop one after the other, without the test
    that leaves the [while]. *)
Fixpoint cycles (n : nat) (p : Pipeline) : Pipeline * list (list Event) :=
  match n with
  | 0 => (p, [])
  | S n' =>
      let '(p1, evs) := cycle p in
      let '(p2, rest) := cycles n' p1 in
      (p2, evs :: rest)
  end.

(** The cycle loop, started on [p], is left after some number of cycles. *)
Definition loop_terminates (p : Pipeline) : Prop :=
  ∃ fuel, is_Some (cycle_loop fuel p).

(** Algorithm [r] returns [EndOfFile] in some cycle of the run from [p]. *)
Definition returns_EndOfFile (r : nat) (p : Pipeline) : Prop :=
  ∃ n, ev_execute r EndOfFile ∈ concat (snd (cycles n p)).

(** A [SkipToNext] is among the statuses of [evs]. *)
Definition has_skip (evs : list Event) : bool :=
  existsb (fun e => match e with
                    | ev_execute _ SkipToNext => true
                    | _ => false
                    end) evs.

(** The statuses that algorithm [r] has returned in the calls [evs]. *)
Definition statuses_of (r : nat) (evs : list Event) : list Status :=
  omap (fun e => match e with
                 | ev_execute j status =>
                     if decide (j = r) then Some status else None
                 | _ => None
                 end) evs.

(** [Continue] on the first [k - 1] calls and [EndOfFile] on call [k]. *)
Definition ends_at (k : nat) : list Status :=
  replicate (k - 1) Continue ++ [EndOfFile].

(** In the first [K] cycles of the run from [p] no algorithm returns
    [SkipToNext], and what running reader [r] returns in them is the
    beginning, or all, of [Continue] on its first [k r - 1] calls and
    [EndOfFile] on call [k r]. *)
Definition readers_end_at (k : nat → nat) (K : nat) (p : Pipeline) : Prop :=
  has_skip (concat (snd (cycles K p))) = false
  ∧ ∀ r, r ∈ runningReaders p →
      1 ≤ k r
      ∧ statuses_of r (concat (snd (cycles K p))) `prefix_of` ends_at (k r).

(** ** Notions the statements about [pipe_] use *)

(** Node [n'] is node [n] with its [pipe_] either kept or set to the
    pipeline at address [a]. *)
Definition connected_or_same (a : nat) (n n' : Node) : Prop :=
  dyn_type n' = dyn_type n ∧ (pipe_ n' = pipe_ n ∨ pipe_ n' = Some a).

(** The same, position by position, for two vectors of components. *)
Definition vec_connected (a : nat) (v v' : list Node) : Prop :=
  length v' = length v
  ∧ ∀ j n n', v !! j = Some n → v' !! j = Some n' → connected_or_same a n n'.

(** [algs], the algorithms a loop has still to visit from position [i]
    on, are those of the vector [v], up to their [pipe_]. *)
Definition rest_of (i : nat) (algs v : list Node) : Prop :=
  length v = i + length algs
  ∧ ∀ k n, algs !! k = Some n →
      ∃ m, v !! (i + k) = Some m ∧ dyn_type m = dyn_type n.

(** ** Notions the statements about the loop use *)

(** The algorithm at position [j] is one the [for] loop calls when it gets
    to it: not a reader that has left the set [running]. *)
Definition is_called (running : gset nat) (j : nat) (alg : Node) : Prop :=
  isReader (alg_class (dyn_type alg)) = false ∨ j ∈ running.

(** [remaining r h] counts the calls reader [r] still has to get, the one
    that returns [EndOfFile] included: a reader returns [Continue] while
    more than one is left and [EndOfFile] on the last; no call changes the
    count of another algorithm, and none returns [SkipToNext]. Said of the
    algorithms [algs], the first of which is at position [i]. *)
Definition counts_down_from (remaining : nat → W → nat)
    (i : nat) (algs : list Node) : Prop :=
  ∀ k alg h, algs !! k = Some alg →
    let c := alg_class (dyn_type alg) in
    let status := fst (execute c (i + k) h) in
    let h' := snd (execute c (i + k) h) in
    status ≠ SkipToNext
    ∧ (∀ j, j ≠ i + k → remaining j h' = remaining j h)
    ∧ (isReader c = true →
         (remaining (i + k) h = 1 → status = EndOfFile)
         ∧ (1 < remaining (i + k) h →
              status = Continue
              ∧ remaining (i + k) h' = remaining (i + k) h - 1)).

Definition counts_down (remaining : nat → W → nat) (p : Pipeline) : Prop :=
  counts_down_from remaining 0 (algVec p).

End Kernel.

Arguments Node : clear implicits.
Arguments Pipeline : clear implicits.
Arguments AlgorithmClass : clear implicits.
Arguments ToolClass : clear implicits.
Arguments Pred : clear implicits.

(** ** [SimpleAlg<ReaderT>] *)

Section SimpleAlg.

Context {cls : Type} (derives : cls → cls → bool) (type_name : cls → string).

(** The heap of a program with adapters: the member [reader] of each
    [SimpleAlg] object, by the position of the object (no entry is
    [nullptr], the default member initialiser), and the other data. *)
Context {U : Type}.
Record SimpleHeap := mkSimpleHeap {
  reader : gmap nat nat;
  others : U;
}.

(** [ReaderT], with its [ready()] and its [data], and the [consume] of
    the concrete adapter. *)
Context {Data : Type} (ReaderT : cls).
Context (ready : nat → SimpleHeap → bool) (data : nat → SimpleHeap → Data).
Context (consume : nat → Data → SimpleHeap → Status * SimpleHeap).

(** [reader = pipeline.getAlg<ReaderT>()]: when [getAlg] throws, the
    assignment is not made. *)
Definition SimpleAlg_connect (self : nat) (pipeline : Pipeline cls SimpleHeap)
  : result unit * SimpleHeap :=
  let h := heap pipeline in
  match getAlg derives type_name ReaderT None pipeline with
  | Return r => (Return (), mkSimpleHeap (<[self := r]> (reader h)) (others h))
  | Throw e => (Throw e, h)
  end.

Definition SimpleAlg_execute (self : nat) (h : SimpleHeap)
  : result Status * SimpleHeap :=
  match reader h !! self with
  | None => (Throw null_dereference, h)                      (* reader->... *)
  | Some r =>
      if ready r h then
        let '(status, h') := consume self (data r h) h in
        (Return status, h')
      else (Return Continue, h)
  end.

End SimpleAlg.

Arguments SimpleHeap : clear implicits.

(** ** A small program

    Classes to run the definitions on: a reader that counts its remaining
    records down in the heap, a logger that counts its calls, a tagged
    logger derived from it, an algorithm that vetoes every cycle, a tool,
    and the adapter [SimpleAlg<MockReader>]. *)

Module Example.

Inductive cls :=
  MockReader | Logger | TaggedLogger | Veto | Helper | Adapter.

#[global] Instance cls_eq_dec : EqDecision cls.
Proof. solve_decision. Defined.

Definition derives (d T : cls) : bool :=
  match d, T with
  | TaggedLogger, Logger => true
  | _, _ => bool_decide (d = T)
  end.

Definition type_name (T : cls) : string :=
  match T with
  | MockReader => "10MockReader"
  | Logger => "6Logger"
  | TaggedLogger => "12TaggedLogger"
  | Veto => "4Veto"
  | Helper => "6Helper"
  | Adapter => "9SimpleAlgI10MockReaderE"
  end.

(** One counter per object. *)
Abbreviation W := (gmap nat nat).

Definition counter (i : nat) (h : W) : nat := default 0 (h !! i).

Definition no_load (_ : nat) (_ : list string) (h : W) : W := h.
Definition no_connect (_ : nat) (p : Pipeline cls W) : result unit * W :=
  (Return (), heap p).
Definition no_finalize (_ : nat) (p : Pipeline cls W) : W := heap p.

Definition MockReader_execute (i : nat) (h : W) : Status * W :=
  match h !! i with
  | Some (S (S n)) => (Continue, <[i := S n]> h)
  | _ => (EndOfFile, h)
  end.

Definition Logger_execute (i : nat) (h : W) : Status * W :=
  (Continue, <[i := S (counter i h)]> h).

Definition Veto_execute (i : nat) (h : W) : Status * W :=
  (vetoIf true, h).

(** The algorithm classes whose data is a counter. [Helper] and [Adapter]
    have no algorithm of this heap; their entries are not used. *)
Definition alg_class (c : cls) : AlgorithmClass cls W :=
  match c with
  | MockReader =>
      mkAlgorithmClass true None no_load no_connect MockReader_execute no_finalize
  | TaggedLogger =>
      mkAlgorithmClass false (Some (fun i _ => Z.of_nat i + 7)%Z)
                       no_load no_connect Logger_execute no_finalize
  | Veto =>
      mkAlgorithmClass false None no_load no_connect Veto_execute no_finalize
  | Logger | Helper | Adapter =>
      mkAlgorithmClass false None no_load no_connect Logger_execute no_finalize
  end.

Definition tool_class (c : cls) : ToolClass cls W :=
  mkToolClass no_connect (fun _ _ => Return 0%Z).

Definition new (k : nat) (i : nat) (h : W) : W := <[i := k]> h.

Definition empty : Pipeline cls W := empty_pipeline 1 ∅.

(** [makeAlg<Logger>()] *)
Definition one_logger : Pipeline cls W :=
  snd (makeAlg alg_class Logger (new 0) empty).

(** [makeAlg<MockReader>(2); makeAlg<Logger>(); makeAlg<MockReader>(3);
    makeTool<Helper>()] *)
Definition two_readers : Pipeline cls W :=
  let p1 := snd (makeAlg alg_class MockReader (new 2) empty) in
  let p2 := snd (makeAlg alg_class Logger (new 0) p1) in
  let p3 := snd (makeAlg alg_class MockReader (new 3) p2) in
  snd (makeTool Helper (fun _ h => h) p3).

(** That pipeline after the first cycle of its loop. *)
Definition second_cycle : Pipeline cls W :=
  fst (cycles alg_class 1 two_readers).

(** [makeAlg<MockReader>(2); makeAlg<Veto>(); makeAlg<Logger>()] *)
Definition vetoed : Pipeline cls W :=
  let p1 := snd (makeAlg alg_class MockReader (new 2) empty) in
  let p2 := snd (makeAlg alg_class Veto (new 0) p1) in
  snd (makeAlg alg_class Logger (new 0) p2).

(** [makeOutFile("out.root")] *)
Definition with_output : Pipeline cls W :=
  snd (makeOutFile "out.root" DefaultFile false empty).

(** [makeAlg<SimpleAlg<MockReader>>()] alone: no [MockReader]. *)
Definition lone_adapter : Pipeline cls (SimpleHeap unit) :=
  mkPipeline 1 ∅ [mkNode Adapter None] ∅ [] [] (mkSimpleHeap ∅ ()) 0 [].

(** [makeAlg<SimpleAlg<MockReader>>(); makeAlg<Logger>();
    makeAlg<MockReader>()] *)
Definition adapter_and_reader : Pipeline cls (SimpleHeap unit) :=
  mkPipeline 1 ∅
    [mkNode Adapter None; mkNode Logger None; mkNode MockReader None]
    {[2]} [] [] (mkSimpleHeap ∅ ()) 0 [].

End Example.

(** ** Input files *)

(** How [inFile] ends: with the [TFile*] it returns, or with the
    [std::out_of_range] of [inFilePaths.at(i)]. *)
Inductive inFile_result :=
  | inFile_returns (f : nat)
  | inFile_out_of_range.

Section Inputs.

Context {cls W : Type}.

(** [Pipeline] together with its member [inFileHandles], a
    [std::map<std::string, TFile*>], which the record [Pipeline] does not
    carry. *)
Record PipelineIn := mkPipelineIn {
  base : Pipeline cls W;
  inFileHandles : gmap string nat;
}.

(** [new TFile(path.c_str())]: the option of the constructor defaults to the
    empty string. *)
Definition open_inFile (path : string) (s : PipelineIn) : nat * PipelineIn :=
  let p := base s in
  let f := next_file p in
  (f,
   mkPipelineIn
     (mkPipeline (this p) (outFileMap p) (algVec p) (runningReaders p)
                 (toolVec p) (inFilePaths p) (heap p)
                 (S f) (file_log p ++ [TFile_new f path ""]))
     (<[path := f]> (inFileHandles s))).

(** [Pipeline::inFile] *)
Definition inFile (i : nat) (s : PipelineIn) : inFile_result * PipelineIn :=
  match inFilePaths (base s) !! i with
  | None => (inFile_out_of_range, s)
  | Some path =>
      match inFileHandles s !! path with
      | Some f => (inFile_returns f, s)
      | None =>
          let '(f, s') := open_inFile path s in
          (inFile_returns f, s')
      end
  end.

(** ** Notions the statements about files use *)

(** The [TFile] number [f] has been created and not deleted. *)
Definition file_alive (log : list FileEvent) (f : nat) : Prop :=
  (∃ path option, TFile_new f path option ∈ log) ∧ TFile_delete f ∉ log.

(** The files of a pipeline are accounted for: the numbers of the files
    created or deleted lie below [next_file]; nothing has been done twice,
    so that no file has been deleted twice; the files alive are those that
    the output map or the input map holds; no two names of the output map,
    and no two paths of the input map, hold the same file, and no file is
    held by both. *)
Definition files_ok (s : PipelineIn) : Prop :=
  let p := base s in
  (∀ f path option, TFile_new f path option ∈ file_log p → f < next_file p)
  ∧ (∀ f, TFile_delete f ∈ file_log p → f < next_file p)
  ∧ NoDup (file_log p)
  ∧ (∀ f, file_alive (file_log p) f
          ↔ (∃ name, outFileMap p !! name = Some (Some f))
            ∨ (∃ path, inFileHandles s !! path = Some f))
  ∧ (∀ name1 name2 f, outFileMap p !! name1 = Some (Some f) →
       outFileMap p !! name2 = Some (Some f) → name1 = name2)
  ∧ (∀ path1 path2 f, inFileHandles s !! path1 = Some f →
       inFileHandles s !! path2 = Some f → path1 = path2)
  ∧ (∀ name path f, outFileMap p !! name = Some (Some f) →
       inFileHandles s !! path ≠ Some f).

End Inputs.

Arguments PipelineIn : clear implicits.

(** ** Notions the statements about the registry use *)

Section RegistryNotions.

Context {cls W : Type}.
Context (alg_class : cls → AlgorithmClass cls W).

(** The predicate, if there is one, returns [true] on the component. *)
Definition accepts (pred : Pred cls) (k : nat) (thing : Node cls) : Prop :=
  match pred with
  | None => True
  | Some f => f k thing = Return true
  end.

(** The predicate returns [false] on the component. *)
Definition rejects (pred : Pred cls) (k : nat) (thing : Node cls) : Prop :=
  ∃ f, pred = Some f ∧ f k thing = Return false.

(** A predicate of the program is given the object, and may read its
    data; [pred] is the predicate as it answers in one state of the
    program. [pred'] is that predicate as it answers in another state: it
    is empty iff [pred] is, and on the components of [vec] up to position
    [k] that cast to [T] it answers as [pred] does. *)
Definition answers_kept (derives : cls → cls → bool) (T : cls)
    (pred pred' : Pred cls) (vec : list (Node cls)) (k : nat) : Prop :=
  match pred, pred' with
  | None, None => True
  | Some f, Some f' =>
      ∀ j thing, j ≤ k → vec !! j = Some thing →
        derives (dyn_type thing) T = true → f' j thing = f j thing
  | _, _ => False
  end.

(** Every running reader is a registered algorithm that is a reader. *)
Definition readers_valid (p : Pipeline cls W) : Prop :=
  runningReaders p ⊆ readers_from alg_class 0 (algVec p).

End RegistryNotions.

(** ** [PureAlg<ReaderT, func>] *)

Section PureAlg.

Context {U Data : Type}.
Context (ready : nat → SimpleHeap U → bool) (data : nat → SimpleHeap U → Data).

(** [func], a function given at compile time, is taken to compute its
    status from the data alone. *)
Context (func : Data → Status).

(** [PureAlg::consume] *)
Definition PureAlg_consume (self : nat) (d : Data) (h : SimpleHeap U)
  : Status * SimpleHeap U :=
  (func d, h).

(** [PureAlg] inherits [execute] from [SimpleAlg]. *)
Definition PureAlg_execute (self : nat) (h : SimpleHeap U)
  : result Status * SimpleHeap U :=
  SimpleAlg_execute ready data PureAlg_consume self h.

End PureAlg.

(** ** More of the small program

    A class whose [connect] throws, and readers that never end. *)

Module More.

Import Example.

Definition failing_connect (_ : nat) (p : Pipeline cls W) : result unit * W :=
  (Throw (runtime_error "no calibration"), heap p).

Definition Endless_execute (i : nat) (h : W) : Status * W := (Continue, h).

(** [Veto] throws in [connect] here, [MockReader] never ends, and the
    other classes are those of [Example.alg_class]. *)
Definition alg_class (c : cls) : AlgorithmClass cls W :=
  match c with
  | Veto =>
      mkAlgorithmClass false None no_load failing_connect Veto_execute
                       no_finalize
  | MockReader =>
      mkAlgorithmClass true None no_load no_connect Endless_execute no_finalize
  | _ => Example.alg_class c
  end.

(** [makeAlg<Logger>(); makeAlg<Veto>(); makeAlg<Logger>()] *)
Definition failing : Pipeline cls W :=
  let p1 := snd (makeAlg alg_class Logger (new 0) empty) in
  let p2 := snd (makeAlg alg_class Veto (new 0) p1) in
  snd (makeAlg alg_class Logger (new 0) p2).

(** [makeAlg<Logger>(); makeAlg<MockReader>()] *)
Definition endless : Pipeline cls W :=
  let p1 := snd (makeAlg alg_class Logger (new 0) empty) in
  snd (makeAlg alg_class MockReader (new 0) p1).

(** [makeAlg<TaggedLogger>(); makeAlg<TaggedLogger>()]: the tags are 7
    and 8. *)
Definition two_tagged : Pipeline cls W :=
  let p1 := snd (makeAlg Example.alg_class TaggedLogger (new 0) empty) in
  snd (makeAlg Example.alg_class TaggedLogger (new 0) p1).


(** [makeAlg<Veto>(); makeAlg<MockReader>(2)], with the classes of
    [Example.alg_class]: the reader comes after an algorithm that vetoes
    every cycle. *)
Definition starved : Pipeline cls W :=
  let p1 := snd (makeAlg Example.alg_class Veto (new 0) empty) in
  snd (makeAlg Example.alg_class MockReader (new 2) p1).

(** Algorithms whose tag is their counter in the heap. *)
Definition counter_tag_class (c : cls) : AlgorithmClass cls W :=
  mkAlgorithmClass false (Some (fun i h => Z.of_nat (counter i h)))
                   no_load no_connect Logger_execute no_finalize.

(** A constructor that writes the counters of positions 0 and 1. *)
Definition retag (_ : nat) (h : W) : W := <[1 := 5]> (<[0 := 5]> h).

(** [one_logger] with the input paths that
    [process({"a.root", "b.root", "a.root"})] sets, and no handle yet. *)
Definition with_inputs : PipelineIn cls W :=
  mkPipelineIn (set_inFilePaths ["a.root"; "b.root"; "a.root"] one_logger) ∅.

End More.

(** * Properties *)

(** ** Lookup *)

Section LookupFacts.

Context {cls : Type} (derives : cls → cls → bool) (type_name : cls → string).
Context {W : Type}.
Context (alg_class : cls → AlgorithmClass cls W).

Implicit Types (vec : list (Node cls)) (pred : Pred cls).

Lemma getThing_from_no_match T pred vec : ∀ i,
  no_match derives T pred i vec →
  getThing_from derives type_name T pred i vec
  = Throw (couldnt_find (type_name T)).
Proof.
  induction vec as [|thing rest IH]; intros i Hno; simpl; [done|].
  assert (Hrest : no_match derives T pred (S i) rest).
  { intros k t Hk Ht. destruct (Hno (S k) t Hk Ht) as (f & -> & Hf).
    exists f. split; [done|]. by replace (S i + k) with (i + S k) by lia. }
  destruct (derives (dyn_type thing) T) eqn:Hd; [|by apply IH].
  destruct (Hno 0 thing eq_refl Hd) as (f & -> & Hf).
  rewrite Nat.add_0_r in Hf. rewrite Hf. by apply IH.
Qed.

(** Without a predicate the scan returns the first position whose
    component casts to [T]. *)
Lemma getThing_from_first T vec : ∀ i k,
  first_of_type derives T vec k →
  getThing_from derives type_name T None i vec = Return (i + k).
Proof.
  induction vec as [|thing rest IH]; intros i k [(t & Hk & Ht) Hbefore].
  { by rewrite lookup_nil in Hk. }
  simpl. destruct k as [|k].
  - simpl in Hk. injection Hk as ->. rewrite Ht. f_equal. lia.
  - rewrite (Hbefore 0 thing) by (done || lia).
    replace (i + S k) with (S i + k) by lia. apply IH. split.
    + by exists t.
    + intros j t' Hj Hl. apply (Hbefore (S j) t'); [lia|done].
Qed.

(** The scan throws what the predicate throws at the first candidate of
    the right type, when it does. *)
Lemma getThing_from_pred_throws T f e vec : ∀ i k,
  first_of_type derives T vec k →
  (∀ thing, vec !! k = Some thing → f (i + k) thing = Throw e) →
  getThing_from derives type_name T (Some f) i vec = Throw e.
Proof.
  induction vec as [|thing rest IH]; intros i k [(t & Hk & Ht) Hbefore] Hf.
  { by rewrite lookup_nil in Hk. }
  simpl. destruct k as [|k].
  - simpl in Hk. injection Hk as ->. rewrite Ht.
    specialize (Hf t eq_refl). rewrite Nat.add_0_r in Hf. by rewrite Hf.
  - rewrite (Hbefore 0 thing) by (done || lia).
    apply (IH (S i) k).
    + split; [by exists t|].
      intros j t' Hj Hl. apply (Hbefore (S j) t'); [lia|done].
    + intros t' Hl. replace (S i + k) with (i + S k) by lia. by apply Hf.
Qed.

(** A vector with a component of type [T] has a first one. *)
Lemma first_of_type_exists T vec :
  (∃ k thing, vec !! k = Some thing ∧ derives (dyn_type thing) T = true) →
  ∃ k, first_of_type derives T vec k.
Proof.
  induction vec as [|thing rest IH]; intros (k & t & Hk & Ht).
  { by rewrite lookup_nil in Hk. }
  destruct (derives (dyn_type thing) T) eqn:Hd.
  - exists 0. split; [by exists thing|]. intros; lia.
  - destruct k as [|k]; simpl in Hk; [congruence|].
    destruct IH as (k' & (t' & Hk' & Ht') & Hbefore); [by exists k, t|].
    exists (S k'). split; [by exists t'|].
    intros [|j] t'' Hj Hl; simpl in Hl; [congruence|].
    apply (Hbefore j t''); [lia|done].
Qed.

(** The two messages differ whatever the name of the type. *)
Lemma not_implemented_is_not_couldnt_find name :
  getTag_not_implemented ≠ couldnt_find name.
Proof. unfold getTag_not_implemented, couldnt_find. simpl. by intros [=]. Qed.

(** C5. [getAlg<T>] and [getTool<T>] throw the error that names [T]
    ("getThing() couldn't find T") when no registered component both casts
    to [T] and passes the predicate, if one is given; so does the lookup
    by tag when each algorithm that casts to [T], if any, has another tag.
    The lookup of an algorithm by tag, when algorithms cast to [T] and none
    of them overrides [getTag], throws "getTag not implemented for this
    algorithm", which is another error than the first. *)
Theorem lookup_errors (T : cls) (p : Pipeline cls W) :
  (∀ pred, no_match derives T pred 0 (algVec p) →
     getAlg derives type_name T pred p = Throw (couldnt_find (type_name T)))
  ∧ (∀ pred, no_match derives T pred 0 (toolVec p) →
     getTool derives type_name T pred p = Throw (couldnt_find (type_name T)))
  ∧ (∀ tag,
       (∀ i alg, algVec p !! i = Some alg → derives (dyn_type alg) T = true →
          ∃ f, getTag (alg_class (dyn_type alg)) = Some f
            ∧ f i (heap p) ≠ to_int tag) →
       getAlg_tag derives type_name alg_class T tag p
       = Throw (couldnt_find (type_name T)))
  ∧ (∀ tag,
       (∃ alg, alg ∈ algVec p ∧ derives (dyn_type alg) T = true) →
       (∀ alg, alg ∈ algVec p → derives (dyn_type alg) T = true →
          getTag (alg_class (dyn_type alg)) = None) →
       getAlg_tag derives type_name alg_class T tag p
       = Throw getTag_not_implemented)
  ∧ getTag_not_implemented ≠ couldnt_find (type_name T).
Proof.
  split; [|split; [|split; [|split]]].
  - intros pred Hno. by apply getThing_from_no_match.
  - intros pred Hno. by apply getThing_from_no_match.
  - intros tag Hother. apply getThing_from_no_match.
    intros k thing Hk Ht. destruct (Hother k thing Hk Ht) as (f & Hf & Hne).
    eexists. split; [done|]. simpl. unfold Algorithm_getTag. rewrite Hf.
    by rewrite bool_decide_eq_false_2.
  - intros tag (alg & Hin & Halg) Hnotag.
    apply list_elem_of_lookup in Hin as [k0 Hk0].
    destruct (first_of_type_exists T (algVec p)) as [k Hk].
    { by exists k0, alg. }
    apply (getThing_from_pred_throws T _ _ _ 0 k Hk).
    intros thing Hl. unfold Algorithm_getTag.
    destruct Hk as [(t & Hl' & Ht) _]. simplify_eq.
    rewrite Hnotag; [done| |done]. apply list_elem_of_lookup. by exists k.
  - apply not_implemented_is_not_couldnt_find.
Qed.

End LookupFacts.

(** A pipeline with one [Logger]: no [MockReader] is found in it, and the
    lookup of a [Logger] by tag meets [Algorithm::getTag]. *)
Lemma lookup_errors_witness :
  getAlg Example.derives Example.type_name Example.MockReader None
         Example.one_logger
  = Throw (couldnt_find "10MockReader")
  ∧ getAlg_tag Example.derives Example.type_name Example.alg_class
               Example.Logger 5 Example.one_logger
    = Throw getTag_not_implemented.
Proof.
  split.
  - apply (lookup_errors Example.derives Example.type_name Example.alg_class
             Example.MockReader Example.one_logger).
    intros [|k] thing Hk Ht; simpl in Hk; simplify_eq.
  - apply (lookup_errors Example.derives Example.type_name Example.alg_class
             Example.Logger Example.one_logger).
    + exists (mkNode Example.Logger None). split; [|reflexivity].
      apply list_elem_of_here.
    + intros alg Hin _. apply list_elem_of_singleton in Hin. by subst.
Defined.

(** ** Output files *)

Section OutFileFacts.

Context {cls W : Type}.
Implicit Types (p : Pipeline cls W) (path name : string).

Lemma makeOutFile_no_reopen p path name u :
  outFileMap p !! name = Some u →
  makeOutFile path name false p = (Throw (already_opened name), p).
Proof. intros Hu. unfold makeOutFile. by rewrite Hu. Qed.

Lemma makeOutFile_reopen p path name u :
  outFileMap p !! name = Some u →
  makeOutFile path name true p
  = (Return (Some (next_file p)),
     mkPipeline (this p) (<[name := Some (next_file p)]> (outFileMap p))
       (algVec p) (runningReaders p) (toolVec p) (inFilePaths p) (heap p)
       (S (next_file p))
       (file_log p
        ++ match u with Some f => [TFile_delete f] | None => [] end
        ++ [TFile_new (next_file p) path "RECREATE"])).
Proof.
  intros Hu. unfold makeOutFile, erase_outFile, bind_new_outFile.
  rewrite Hu. destruct u as [f|]; simpl.
  - by rewrite insert_delete_eq, <- app_assoc.
  - by rewrite insert_delete_eq.
Qed.

(** C6. With [name] bound in the output map, [makeOutFile(path, name)]
    without [reopen] throws "file <name> already opened" and leaves the
    pipeline, its map included, as it was; with [reopen] it returns the
    new [TFile], which it has bound to [name], and the [TFile] that was
    bound is deleted before the new one is created. *)
Theorem makeOutFile_bound p path name u :
  outFileMap p !! name = Some u →
  makeOutFile path name false p = (Throw (already_opened name), p)
  ∧ ∃ p', makeOutFile path name true p = (Return (Some (next_file p)), p')
      ∧ outFileMap p' = <[name := Some (next_file p)]> (outFileMap p)
      ∧ file_log p'
        = file_log p
          ++ match u with Some f => [TFile_delete f] | None => [] end
          ++ [TFile_new (next_file p) path "RECREATE"]
      ∧ algVec p' = algVec p ∧ toolVec p' = toolVec p
      ∧ runningReaders p' = runningReaders p ∧ heap p' = heap p.
Proof.
  intros Hu. split; [by eapply makeOutFile_no_reopen|].
  eexists. split; [by eapply makeOutFile_reopen|]. done.
Qed.

(** C7. [getOutFile(name)] returns what is bound to [name] and changes
    nothing when [name] is bound; when it is not, it returns the null
    pointer of an empty entry that it has inserted under [name], and
    changes nothing else. *)
Theorem getOutFile_spec p name :
  (∀ u, outFileMap p !! name = Some u → getOutFile name p = (u, p))
  ∧ (outFileMap p !! name = None →
     ∃ p', getOutFile name p = (None, p')
       ∧ outFileMap p' = <[name := None]> (outFileMap p)
       ∧ outFileMap p' !! name = Some None
       ∧ (∀ other, other ≠ name → outFileMap p' !! other = outFileMap p !! other)
       ∧ file_log p' = file_log p ∧ next_file p' = next_file p
       ∧ algVec p' = algVec p ∧ toolVec p' = toolVec p
       ∧ runningReaders p' = runningReaders p ∧ heap p' = heap p).
Proof.
  unfold getOutFile. split.
  - intros u Hu. by rewrite Hu.
  - intros Hnone. rewrite Hnone. eexists. split; [done|]. simpl.
    split; [done|]. split; [by rewrite lookup_insert_eq|].
    split; [|done]. intros other Hne. by rewrite lookup_insert_ne.
Qed.

(** C10. For a [name] to which no [TFile] is bound, [getOutFile(name)]
    returns the null pointer, creates no file and leaves an empty entry
    under [name]; [makeOutFile(path, name)] without [reopen] then throws
    "file <name> already opened". *)
Theorem getOutFile_blocks_makeOutFile p path name :
  (∀ f, outFileMap p !! name ≠ Some (Some f)) →
  ∃ p', getOutFile name p = (None, p')
    ∧ outFileMap p' !! name = Some None
    ∧ file_log p' = file_log p
    ∧ makeOutFile path name false p' = (Throw (already_opened name), p').
Proof.
  intros Hfree. unfold getOutFile.
  destruct (outFileMap p !! name) as [[f|]|] eqn:Hname.
  - by destruct (Hfree f).
  - exists p. repeat split; [done|]. by eapply makeOutFile_no_reopen.
  - eexists. split; [done|]. simpl. rewrite lookup_insert_eq.
    repeat split. eapply makeOutFile_no_reopen. simpl.
    by rewrite lookup_insert_eq.
Qed.

End OutFileFacts.

(** The second [makeOutFile] under the default name. *)
Lemma makeOutFile_bound_witness :
  makeOutFile "again.root" DefaultFile false Example.with_output
  = (Throw (already_opened DefaultFile), Example.with_output)
  ∧ ∃ p', makeOutFile "again.root" DefaultFile true Example.with_output
          = (Return (Some 1), p')
      ∧ file_log p'
        = [TFile_new 0 "out.root" "RECREATE"; TFile_delete 0;
           TFile_new 1 "again.root" "RECREATE"].
Proof.
  destruct (makeOutFile_bound Example.with_output "again.root" DefaultFile
              (Some 0) eq_refl) as [Hno (p' & Hre & _ & Hlog & _)].
  split; [exact Hno|]. exists p'. split; [exact Hre|exact Hlog].
Defined.

(** [getOutFile] on a bound and on an unbound name. *)
Lemma getOutFile_spec_witness :
  getOutFile DefaultFile Example.with_output = (Some 0, Example.with_output)
  ∧ ∃ p', getOutFile "hists" Example.with_output = (None, p')
      ∧ outFileMap p' !! "hists" = Some None.
Proof.
  destruct (getOutFile_spec Example.with_output DefaultFile) as [Hb _].
  destruct (getOutFile_spec Example.with_output "hists") as [_ Hu].
  split; [exact (Hb (Some 0) eq_refl)|].
  destruct (Hu eq_refl) as (p' & Hget & _ & Hentry & _).
  exists p'. split; [exact Hget|exact Hentry].
Defined.

(** [getOutFile("hists")] on a pipeline without components and files, then
    [makeOutFile("h.root", "hists")]. *)
Lemma getOutFile_blocks_makeOutFile_witness :
  ∃ p', getOutFile "hists" Example.empty = (None, p')
    ∧ makeOutFile "h.root" "hists" false p'
      = (Throw (already_opened "hists"), p').
Proof.
  destruct (getOutFile_blocks_makeOutFile Example.empty "h.root" "hists")
    as (p' & Hget & _ & _ & Hmake).
  - intros f. discriminate.
  - exists p'. split; [exact Hget|exact Hmake].
Defined.

(** ** One cycle *)

Section CycleFacts.

Context {cls W : Type}.
Context (alg_class : cls → AlgorithmClass cls W).

Implicit Types (p : Pipeline cls W) (algs : list (Node cls)).
Implicit Types (running : gset nat) (h : W) (evs : list Event).

Local Abbreviation cycle_from := (cycle_from alg_class).
Local Abbreviation is_called := (is_called alg_class).

Local Ltac step H :=
  simpl in H;
  match type of H with
  | context [isReader ?c && bool_decide ?P] =>
      let Hc := fresh "Hcalled" in
      destruct (isReader c && bool_decide P) eqn:Hc
  end;
  [ | match type of H with
      | context [execute ?c ?i ?h] =>
          let st := fresh "st" in
          let Hex := fresh "Hexec" in
          destruct (execute c i h) as [st ?] eqn:Hex; destruct st
      end;
      try match type of H with
      | context [cycle_from ?i ?l ?r ?h] =>
          let Hrec := fresh "Hrec" in
          destruct (cycle_from i l r h) as [[? ?] ?] eqn:Hrec
      end;
      simplify_eq ].

Lemma called_iff running i alg :
  isReader (alg_class (dyn_type alg)) && bool_decide (i ∉ running) = false
  ↔ is_called running i alg.
Proof.
  unfold is_called. rewrite andb_false_iff, bool_decide_eq_false.
  split; (intros [?|Hin]; [by left|right]).
  - by destruct (decide (i ∈ running)).
  - by intros ?.
Qed.

(** Every call of a pass is the [execute] of an algorithm of the pass that
    the loop does call. *)
Lemma cycle_from_event algs : ∀ i running h running' h' evs,
  cycle_from i algs running h = (running', h', evs) →
  ∀ e, e ∈ evs →
    ∃ j st alg, e = ev_execute j st ∧ i ≤ j
      ∧ algs !! (j - i) = Some alg ∧ is_called running j alg.
Proof.
  induction algs as [|alg rest IHalgs]; intros i running h running' h' evs Hcyc e He.
  { simpl in Hcyc. simplify_eq. by apply elem_of_nil in He. }
  assert (Hlater : ∀ running1 h1 r2 h2 evs2,
    cycle_from (S i) rest running1 h1 = (r2, h2, evs2) →
    running1 ⊆ running → e ∈ evs2 →
    ∃ j st alg0, e = ev_execute j st ∧ i ≤ j
      ∧ (alg :: rest) !! (j - i) = Some alg0 ∧ is_called running j alg0).
  { intros running1 h1 r2 h2 evs2 Hrec Hsub He2.
    destruct (IHalgs _ _ _ _ _ _ Hrec e He2) as (j & st & a & -> & Hj & Hl & Hc).
    exists j, st, a. split; [done|]. split; [lia|].
    replace (j - i) with (S (j - S i)) by lia. split; [done|].
    destruct Hc as [?|?]; [by left|right]. set_solver. }
  assert (Hhere : ∀ st, is_called running i alg →
    ∃ j st0 alg0, ev_execute i st = ev_execute j st0 ∧ i ≤ j
      ∧ (alg :: rest) !! (j - i) = Some alg0 ∧ is_called running j alg0).
  { intros st Hc. exists i, st, alg. rewrite Nat.sub_diag. done. }
  step Hcyc.
  - by eapply Hlater.
  - apply called_iff in Hcalled. apply elem_of_cons in He as [->|He].
    + by apply Hhere.
    + by eapply Hlater.
  - apply called_iff in Hcalled. apply list_elem_of_singleton in He as ->.
    by apply Hhere.
  - apply called_iff in Hcalled. apply elem_of_cons in He as [->|He].
    + by apply Hhere.
    + eapply Hlater; [done| |done]. set_solver.
Qed.

Lemma cycle_from_position algs i running h running' h' evs j st :
  cycle_from i algs running h = (running', h', evs) →
  ev_execute j st ∈ evs → i ≤ j < i + length algs.
Proof.
  intros Hcyc He.
  destruct (cycle_from_event _ _ _ _ _ _ _ Hcyc _ He)
    as (j' & st' & alg & [= <- <-] & Hj & Hl & _).
  apply lookup_lt_Some in Hl. lia.
Qed.

(** The set of running readers after a pass: the members that have not
    returned [EndOfFile] in it. *)
Lemma cycle_from_running algs : ∀ i running h running' h' evs,
  cycle_from i algs running h = (running', h', evs) →
  ∀ r, r ∈ running' ↔ r ∈ running ∧ ev_execute r EndOfFile ∉ evs.
Proof.
  induction algs as [|alg rest IHalgs]; intros i running h running' h' evs Hcyc r.
  { simpl in Hcyc. simplify_eq. set_solver. }
  step Hcyc.
  - by eapply IHalgs.
  - rewrite (IHalgs _ _ _ _ _ _ Hrec r). set_solver.
  - set_solver.
  - rewrite (IHalgs _ _ _ _ _ _ Hrec r). set_solver.
Qed.

(** The pass over [l1 ++ l2] is the pass over [l1] followed, unless it
    ended on a [SkipToNext], by the pass over [l2]. *)
Lemma cycle_from_app l1 : ∀ l2 i running h,
  cycle_from i (l1 ++ l2) running h
  = let '(r1, h1, evs1) := cycle_from i l1 running h in
    if has_skip evs1 then (r1, h1, evs1)
    else let '(r2, h2, evs2) := cycle_from (i + length l1) l2 r1 h1 in
         (r2, h2, evs1 ++ evs2).
Proof.
  induction l1 as [|alg rest IHl]; intros l2 i running h.
  { simpl. rewrite Nat.add_0_r.
    by destruct (cycle_from i l2 running h) as [[? ?] ?]. }
  simpl.
  replace (i + S (length rest)) with (S i + length rest) by lia.
  destruct (isReader _ && _); [by rewrite IHl|].
  destruct (execute _ i h) as [[] h1]; [| done |]; rewrite IHl;
    match goal with
    | |- context [cycle_from (S i) rest ?r h1] =>
        let evs1 := fresh "evs" in
        destruct (cycle_from (S i) rest r h1) as [[? ?] evs1]; simpl;
        (destruct (has_skip evs1); [done|])
    end;
    match goal with
    | |- context [cycle_from ?k l2 ?r ?h0] =>
        by destruct (cycle_from k l2 r h0) as [[? ?] ?]
    end.
Qed.

(** A pass stops at the first [SkipToNext]. *)
Lemma cycle_from_no_skip_before algs : ∀ i running h running' h' evs,
  cycle_from i algs running h = (running', h', evs) →
  ∀ evs1 e evs2, evs = evs1 ++ e :: evs2 → has_skip evs1 = false.
Proof.
  induction algs as [|alg rest IHalgs]; intros i running h running' h' evs Hcyc.
  { simpl in Hcyc. simplify_eq. by intros []. }
  step Hcyc; intros evs1 e evs2 Hsplit.
  - by eapply IHalgs.
  - destruct evs1 as [|e1 evs1]; [done|]. simpl in Hsplit. simplify_eq.
    simpl. by eapply IHalgs.
  - destruct evs1 as [|e1 evs1]; [done|]. simpl in Hsplit. simplify_eq.
    by destruct evs1.
  - destruct evs1 as [|e1 evs1]; [done|]. simpl in Hsplit. simplify_eq.
    simpl. by eapply IHalgs.
Qed.

Lemma has_skip_elem evs :
  has_skip evs = true ↔ ∃ j, ev_execute j SkipToNext ∈ evs.
Proof.
  unfold has_skip. rewrite existsb_exists. split.
  - intros (e & Hin & He). destruct e as [| | |j []| |]; try done.
    exists j. by apply list_elem_of_In.
  - intros (j & Hin). exists (ev_execute j SkipToNext).
    split; [by apply list_elem_of_In|done].
Qed.

(** An algorithm that the loop calls is called in a pass that no earlier
    [SkipToNext] has ended. *)
Lemma cycle_from_called algs : ∀ i running h running' h' evs,
  cycle_from i algs running h = (running', h', evs) →
  ∀ j alg, i ≤ j → algs !! (j - i) = Some alg → is_called running j alg →
    (∀ k, k < j → ev_execute k SkipToNext ∉ evs) →
    ∃ st, ev_execute j st ∈ evs.
Proof.
  induction algs as [|alg0 rest IHalgs];
    intros i running h running' h' evs Hcyc j alg Hj Hl Hc Hnoskip.
  { by rewrite lookup_nil in Hl. }
  destruct (decide (j = i)) as [->|Hne].
  - rewrite Nat.sub_diag in Hl. simpl in Hl. simplify_eq.
    apply called_iff in Hc. simpl in Hcyc. rewrite Hc in Hcyc.
    destruct (execute _ i h) as [[] h1];
      [| |];
      try (destruct (cycle_from (S i) rest _ h1) as [[? ?] ?]);
      simplify_eq; eexists; apply list_elem_of_here.
  - replace (j - i) with (S (j - S i)) in Hl by lia. simpl in Hl.
    assert (Hlater : ∀ running1 h1 r2 h2 evs2,
      cycle_from (S i) rest running1 h1 = (r2, h2, evs2) →
      (j ∈ running → j ∈ running1) →
      (∀ k, k < j → ev_execute k SkipToNext ∉ evs2) →
      ∃ st, ev_execute j st ∈ evs2).
    { intros running1 h1 r2 h2 evs2 Hrec Hsub Hno.
      eapply IHalgs; [done|lia|done| |done].
      destruct Hc as [?|?]; [by left|right; auto]. }
    step Hcyc.
    + by eapply Hlater.
    + destruct (Hlater _ _ _ _ _ Hrec) as [st Hst]; [done| |].
      * intros k Hk Hin. apply (Hnoskip k Hk). by apply list_elem_of_further.
      * exists st. by apply list_elem_of_further.
    + exfalso. apply (Hnoskip i); [lia|]. apply list_elem_of_here.
    + destruct (Hlater _ _ _ _ _ Hrec) as [st Hst].
      * set_solver.
      * intros k Hk Hin. apply (Hnoskip k Hk). by apply list_elem_of_further.
      * exists st. by apply list_elem_of_further.
Qed.

(** The calls of a pass go up through the positions. *)
Lemma cycle_from_ordered algs : ∀ i running h running' h' evs,
  cycle_from i algs running h = (running', h', evs) →
  ∀ evs1 j1 st1 evs2 j2 st2,
    evs = evs1 ++ ev_execute j1 st1 :: evs2 →
    ev_execute j2 st2 ∈ evs2 → j1 < j2.
Proof.
  induction algs as [|alg rest IHalgs]; intros i running h running' h' evs Hcyc.
  { simpl in Hcyc. simplify_eq. by intros []. }
  step Hcyc; intros evs1 j1 st1 evs2 j2 st2 Hsplit Hin.
  - by eapply IHalgs.
  - destruct evs1 as [|e1 evs1]; simpl in Hsplit; simplify_eq.
    + apply (cycle_from_position _ _ _ _ _ _ _ _ _ Hrec) in Hin. lia.
    + by eapply IHalgs.
  - destruct evs1 as [|e1 evs1]; simpl in Hsplit; simplify_eq.
    + by apply elem_of_nil in Hin.
    + by destruct evs1.
  - destruct evs1 as [|e1 evs1]; simpl in Hsplit; simplify_eq.
    + apply (cycle_from_position _ _ _ _ _ _ _ _ _ Hrec) in Hin. lia.
    + by eapply IHalgs.
Qed.

(** The pass up to a call, the call, and what the status of the call
    makes of the rest of the pass. *)
Lemma cycle_from_at algs running h r hh evs i st :
  cycle_from 0 algs running h = (r, hh, evs) →
  ev_execute i st ∈ evs →
  ∃ r1 h1 evs1 alg rest h2,
    cycle_from 0 (take i algs) running h = (r1, h1, evs1)
    ∧ has_skip evs1 = false
    ∧ (∀ j s, ev_execute j s ∈ evs1 → j < i)
    ∧ drop i algs = alg :: rest
    ∧ is_called r1 i alg
    ∧ execute (alg_class (dyn_type alg)) i h1 = (st, h2)
    ∧ (r, hh, evs)
      = match st with
        | SkipToNext => (r1, h2, evs1 ++ [ev_execute i st])
        | EndOfFile =>
            let '(r3, h3, evs3) := cycle_from (S i) rest (r1 ∖ {[i]}) h2 in
            (r3, h3, evs1 ++ ev_execute i st :: evs3)
        | Continue =>
            let '(r3, h3, evs3) := cycle_from (S i) rest r1 h2 in
            (r3, h3, evs1 ++ ev_execute i st :: evs3)
        end.
Proof.
  intros Hcyc Hin.
  pose proof (cycle_from_position _ _ _ _ _ _ _ _ _ Hcyc Hin) as Hi.
  rewrite <- (take_drop i algs), cycle_from_app in Hcyc.
  rewrite length_take, Nat.min_l in Hcyc by lia. simpl in Hcyc.
  destruct (cycle_from 0 (take i algs) running h) as [[r1 h1] evs1] eqn:Hpre.
  assert (Hbefore : ∀ j s, ev_execute j s ∈ evs1 → j < i).
  { intros j s Hj. apply (cycle_from_position _ _ _ _ _ _ _ _ _ Hpre) in Hj.
    rewrite length_take in Hj. lia. }
  destruct (has_skip evs1) eqn:Hskip.
  { simplify_eq. apply Hbefore in Hin. lia. }
  destruct (drop i algs) as [|alg rest] eqn:Hdrop.
  { apply (f_equal length) in Hdrop. rewrite length_drop in Hdrop.
    simpl in Hdrop. lia. }
  assert (Hafter : ∀ r0 h0 r3 h3 evs3,
    cycle_from (S i) rest r0 h0 = (r3, h3, evs3) →
    ev_execute i st ∉ evs3).
  { intros r0 h0 r3 h3 evs3 Hrec Hj.
    apply (cycle_from_position _ _ _ _ _ _ _ _ _ Hrec) in Hj. lia. }
  exists r1, h1, evs1, alg, rest.
  step Hcyc.
  - exfalso.
    destruct (cycle_from (S i) rest r1 h1) as [[? ?] ?] eqn:Hrec.
    simplify_eq. apply elem_of_app in Hin as [Hin|Hin].
    + apply Hbefore in Hin. lia.
    + by eapply Hafter in Hin.
  - apply called_iff in Hcalled.
    apply elem_of_app in Hin as [Hin|Hin]; [apply Hbefore in Hin; lia|].
    apply elem_of_cons in Hin as [[= ->]|Hin];
      [|by eapply Hafter in Hin].
    eexists. by rewrite Hrec.
  - apply called_iff in Hcalled.
    apply elem_of_app in Hin as [Hin|Hin]; [apply Hbefore in Hin; lia|].
    apply list_elem_of_singleton in Hin as [= ->]. by eexists.
  - apply called_iff in Hcalled.
    apply elem_of_app in Hin as [Hin|Hin]; [apply Hbefore in Hin; lia|].
    apply elem_of_cons in Hin as [[= ->]|Hin];
      [|by eapply Hafter in Hin].
    eexists. by rewrite Hrec.
Qed.

Lemma cycle_unfold p p' evs :
  cycle alg_class p = (p', evs) →
  cycle_from 0 (algVec p) (runningReaders p) (heap p)
  = (runningReaders p', heap p', evs)
  ∧ algVec p' = algVec p.
Proof.
  unfold cycle.
  destruct (cycle_from 0 (algVec p) (runningReaders p) (heap p))
    as [[r h] evs0].
  by intros [= <- <-].
Qed.

(** C3. When the algorithm at position [i] returns [SkipToNext] in a
    cycle, its call is the last of the cycle: the calls of the cycle are
    those of the pass over the algorithms before [i], then this one; no
    algorithm at a position after [i] is called; and the set of running
    readers after the cycle is the set the pass had made before the call:
    what the earlier [EndOfFile]s of the cycle left of it, and nothing
    less. *)
Theorem SkipToNext_ends_cycle p p' evs i :
  cycle alg_class p = (p', evs) →
  ev_execute i SkipToNext ∈ evs →
  ∃ running1 h1 evs1,
    cycle_from 0 (take i (algVec p)) (runningReaders p) (heap p)
    = (running1, h1, evs1)
    ∧ evs = evs1 ++ [ev_execute i SkipToNext]
    ∧ (∀ j st, ev_execute j st ∈ evs → j ≤ i)
    ∧ runningReaders p' = running1
    ∧ (∀ r, (r ∈ runningReaders p')
            ↔ (r ∈ runningReaders p ∧ ev_execute r EndOfFile ∉ evs1)).
Proof.
  intros Hcyc Hin. apply cycle_unfold in Hcyc as [Hcyc _].
  destruct (cycle_from_at _ _ _ _ _ _ _ _ Hcyc Hin)
    as (r1 & h1 & evs1 & alg & rest & h2
        & Hpre & _ & Hbefore & _ & _ & _ & Heq).
  injection Heq as Hr Hh Hevs. exists r1, h1, evs1.
  split; [done|]. split; [done|]. split; [|split; [done|]].
  - intros j st Hj. rewrite Hevs in Hj. apply elem_of_app in Hj as [Hj|Hj].
    + apply Hbefore in Hj. lia.
    + apply list_elem_of_singleton in Hj as [= -> _]. lia.
  - rewrite Hr. by apply (cycle_from_running _ _ _ _ _ _ _ Hpre).
Qed.

(** C4. When the algorithm at position [i] returns [EndOfFile] in a
    cycle, the loop goes on with the algorithm at position [i + 1] and the
    set of running readers without [i], all its other members kept: the
    calls of the cycle are those of the pass before [i], this call, and
    those of the pass over the algorithms after [i] from that set. A
    reader that is called was in the set, and is not in it after the
    cycle; the readers in the set after the cycle are those that were in
    it and have not returned [EndOfFile] themselves in the cycle. Every
    later algorithm that the loop calls (a reader still
    running, or an algorithm that is no reader) is called in this cycle,
    unless a [SkipToNext] comes before it, and the calls go up through the
    positions. *)
Theorem EndOfFile_removes_reader p p' evs i :
  cycle alg_class p = (p', evs) →
  ev_execute i EndOfFile ∈ evs →
  ∃ running1 h1 evs1 alg rest h2,
    cycle_from 0 (take i (algVec p)) (runningReaders p) (heap p)
    = (running1, h1, evs1)
    ∧ drop i (algVec p) = alg :: rest
    ∧ execute (alg_class (dyn_type alg)) i h1 = (EndOfFile, h2)
    ∧ (isReader (alg_class (dyn_type alg)) = true → i ∈ running1)
    ∧ (∀ r, r ∈ running1 ∖ {[i]} ↔ r ∈ running1 ∧ r ≠ i)
    ∧ (let '(running3, h3, evs3) :=
         cycle_from (S i) rest (running1 ∖ {[i]}) h2 in
       evs = evs1 ++ ev_execute i EndOfFile :: evs3
       ∧ runningReaders p' = running3 ∧ heap p' = h3)
    ∧ (i ∉ runningReaders p')
    ∧ (∀ r, (r ∈ runningReaders p')
            ↔ (r ∈ runningReaders p ∧ ev_execute r EndOfFile ∉ evs))
    ∧ (∀ j alg', i < j → algVec p !! j = Some alg' →
         is_called (runningReaders p) j alg' →
         (∀ k, k < j → ev_execute k SkipToNext ∉ evs) →
         ∃ st, ev_execute j st ∈ evs)
    ∧ (∀ evsa ja sta evsb jb stb,
         evs = evsa ++ ev_execute ja sta :: evsb →
         ev_execute jb stb ∈ evsb → ja < jb).
Proof.
  intros Hcyc Hin. apply cycle_unfold in Hcyc as [Hcyc _].
  destruct (cycle_from_at _ _ _ _ _ _ _ _ Hcyc Hin)
    as (r1 & h1 & evs1 & alg & rest & h2
        & Hpre & _ & Hbefore & Hdrop & Hcalled & Hexec & Heq).
  exists r1, h1, evs1, alg, rest, h2.
  split; [done|]. split; [done|]. split; [done|]. split; [|split].
  - intros Hreader. destruct Hcalled as [Hno|?]; [congruence|done].
  - set_solver.
  - destruct (cycle_from (S i) rest (r1 ∖ {[i]}) h2) as [[r3 h3] evs3].
    injection Heq as Hr Hh Hevs. split; [done|]. split; [|split; [|split]].
    + intros Hi. apply (cycle_from_running _ _ _ _ _ _ _ Hcyc) in Hi.
      by destruct Hi as [_ []].
    + by apply (cycle_from_running _ _ _ _ _ _ _ Hcyc).
    + intros j alg' Hj Hl. apply (cycle_from_called _ _ _ _ _ _ _ Hcyc);
        [lia|]. by rewrite Nat.sub_0_r.
    + by apply (cycle_from_ordered _ _ _ _ _ _ _ Hcyc).
Qed.

End CycleFacts.

(** In the pipeline [MockReader; Veto; Logger] the second algorithm ends
    the first cycle before the third is called. *)
Lemma SkipToNext_ends_cycle_witness :
  ∃ running1 h1 evs1,
    cycle_from Example.alg_class 0 (take 1 (algVec Example.vetoed))
      (runningReaders Example.vetoed) (heap Example.vetoed)
    = (running1, h1, evs1)
    ∧ snd (cycle Example.alg_class Example.vetoed)
      = evs1 ++ [ev_execute 1 SkipToNext]
    ∧ (∀ j st, ev_execute j st ∈ snd (cycle Example.alg_class Example.vetoed)
               → j ≤ 1)
    ∧ runningReaders (fst (cycle Example.alg_class Example.vetoed)) = running1
    ∧ (∀ r, (r ∈ runningReaders (fst (cycle Example.alg_class Example.vetoed)))
            ↔ (r ∈ runningReaders Example.vetoed
               ∧ ev_execute r EndOfFile ∉ evs1)).
Proof.
  apply (SkipToNext_ends_cycle Example.alg_class Example.vetoed).
  - apply surjective_pairing.
  - vm_compute. apply list_elem_of_further, list_elem_of_here.
Defined.

(** In the pipeline [MockReader(2); Logger; MockReader(3)], after one
    cycle, the first reader returns [EndOfFile] in the second. *)
Lemma EndOfFile_removes_reader_witness :
  ev_execute 0 EndOfFile ∈ snd (cycle Example.alg_class Example.second_cycle)
  ∧ (0 ∉ runningReaders (fst (cycle Example.alg_class Example.second_cycle)))
  ∧ 2 ∈ runningReaders (fst (cycle Example.alg_class Example.second_cycle))
  ∧ ∃ st, ev_execute 2 st
          ∈ snd (cycle Example.alg_class Example.second_cycle).
Proof.
  assert (Hin : ev_execute 0 EndOfFile
                ∈ snd (cycle Example.alg_class Example.second_cycle)).
  { vm_compute. apply list_elem_of_here. }
  destruct (EndOfFile_removes_reader Example.alg_class Example.second_cycle
              _ _ 0 (surjective_pairing _) Hin)
    as (r1 & h1 & evs1 & alg & rest & h2 & _ & _ & _ & _ & _ & _
        & Hout & _ & Hlater & _).
  split; [exact Hin|]. split; [exact Hout|]. split.
  - vm_compute. reflexivity.
  - apply (Hlater 2 (mkNode Example.MockReader None)).
    + lia.
    + reflexivity.
    + right. vm_compute. reflexivity.
    + intros k Hk. vm_compute. set_solver.
Defined.

(** ** The phases of [process] *)

Section PhaseFacts.

Context {cls W : Type}.
Context (alg_class : cls → AlgorithmClass cls W).
Context (tool_class : cls → ToolClass cls W).

Implicit Types (p : Pipeline cls W) (algs tools v : list (Node cls)).

Lemma vec_connected_refl a v : vec_connected a v v.
Proof.
  split; [done|]. intros j n n' Hn Hn'. simplify_eq. split; auto.
Qed.

Lemma vec_connected_trans a v1 v2 v3 :
  vec_connected a v1 v2 → vec_connected a v2 v3 → vec_connected a v1 v3.
Proof.
  intros [Hlen12 H12] [Hlen23 H23]. split; [congruence|].
  intros j n1 n3 Hn1 Hn3.
  destruct (lookup_lt_is_Some_2 v2 j) as [n2 Hn2].
  { apply lookup_lt_Some in Hn1. lia. }
  destruct (H12 _ _ _ Hn1 Hn2) as [Hd12 Hp12].
  destruct (H23 _ _ _ Hn2 Hn3) as [Hd23 Hp23].
  split; [congruence|]. destruct Hp23 as [Hp|Hp]; [|by right].
  rewrite Hp. done.
Qed.

Lemma vec_connected_insert a v i n m :
  v !! i = Some m → dyn_type m = dyn_type n →
  vec_connected a v (<[i := Node_do_connect a n]> v).
Proof.
  intros Hm Hd. split; [by rewrite length_insert|].
  intros j n1 n2 Hn1 Hn2. destruct (decide (i = j)) as [->|Hne].
  - rewrite list_lookup_insert_eq in Hn2 by (by eapply lookup_lt_Some).
    simplify_eq. split; [done|by right].
  - rewrite list_lookup_insert_ne in Hn2 by done. simplify_eq.
    split; auto.
Qed.

Lemma rest_of_all v : rest_of 0 v v.
Proof. split; [done|]. intros k n Hk. by exists n. Qed.

Lemma rest_of_next a i alg rest v :
  rest_of i (alg :: rest) v →
  (∃ m, v !! i = Some m ∧ dyn_type m = dyn_type alg)
  ∧ rest_of (S i) rest (<[i := Node_do_connect a alg]> v).
Proof.
  intros [Hlen Hrest]. split.
  - destruct (Hrest 0 alg eq_refl) as (m & Hm & Hd).
    rewrite Nat.add_0_r in Hm. by exists m.
  - split; [rewrite length_insert; simpl in Hlen; lia|].
    intros k n Hk. rewrite list_lookup_insert_ne by lia.
    destruct (Hrest (S k) n Hk) as (m & Hm & Hd).
    exists m. by replace (S i + k) with (i + S k) by lia.
Qed.

(** What the connect loop over the algorithms leaves: the members of the
    pipeline other than [algVec] and [heap] as they were, each [pipe_]
    kept or set to the pipeline, and all of them set when the loop comes
    to its end. *)
Lemma connect_algs_from_spec algs : ∀ i p r p' evs,
  rest_of i algs (algVec p) →
  connect_algs_from alg_class i algs p = (r, p', evs) →
  this p' = this p ∧ runningReaders p' = runningReaders p
  ∧ toolVec p' = toolVec p ∧ outFileMap p' = outFileMap p
  ∧ vec_connected (this p) (algVec p) (algVec p')
  ∧ (∀ j, j < i → algVec p' !! j = algVec p !! j)
  ∧ (r = Return () → ∀ j n, i ≤ j → algVec p' !! j = Some n →
       pipe_ n = Some (this p))
  ∧ (∀ e, e ∈ evs → ∃ j, e = ev_connect j).
Proof.
  induction algs as [|alg rest IHalgs]; intros i p r p' evs Hrest Hcon.
  { simpl in Hcon. simplify_eq. split_and!; try done.
    - apply vec_connected_refl.
    - intros _ j n Hj Hn. apply lookup_lt_Some in Hn.
      destruct Hrest as [Hlen _]. simpl in Hlen. lia.
    - intros e He. by apply elem_of_nil in He. }
  apply (rest_of_next (this p)) in Hrest as [(m & Hm & Hd) Hrest].
  pose proof (vec_connected_insert (this p) (algVec p) i alg m Hm Hd) as Hins.
  simpl in Hcon.
  set (p1 := set_algVec (<[i:=Node_do_connect (this p) alg]> (algVec p)) p)
    in Hcon.
  destruct (connect (alg_class (dyn_type alg)) i p1) as [[[]|e] h].
  - destruct (connect_algs_from alg_class (S i) rest (set_heap h p1))
      as [[r' p3] evs'] eqn:Hrec.
    simplify_eq.
    destruct (IHalgs (S i) (set_heap h p1) _ _ _ Hrest Hrec)
      as (Hthis & Hrun & Htool & Hout & Hvec & Hlow & Hdone & Hevs).
    simpl in *. split_and!; try done.
    + by eapply vec_connected_trans.
    + intros j Hj. rewrite Hlow by lia. by rewrite list_lookup_insert_ne by lia.
    + intros -> j n Hj Hn. destruct (decide (j = i)) as [->|Hne].
      * rewrite Hlow in Hn by lia.
        rewrite list_lookup_insert_eq in Hn by (by eapply lookup_lt_Some).
        by simplify_eq.
      * apply (Hdone eq_refl j); [lia|done].
    + intros e He. apply elem_of_cons in He as [->|He]; [by exists i|auto].
  - simplify_eq. simpl. split_and!; try done.
    + intros j Hj. by rewrite list_lookup_insert_ne by lia.
    + intros e' He. apply list_elem_of_singleton in He as ->. by exists i.
Qed.

Lemma connect_tools_from_spec tools : ∀ i p r p' evs,
  rest_of i tools (toolVec p) →
  connect_tools_from tool_class i tools p = (r, p', evs) →
  this p' = this p ∧ runningReaders p' = runningReaders p
  ∧ algVec p' = algVec p ∧ outFileMap p' = outFileMap p
  ∧ vec_connected (this p) (toolVec p) (toolVec p')
  ∧ (∀ j, j < i → toolVec p' !! j = toolVec p !! j)
  ∧ (r = Return () → ∀ j n, i ≤ j → toolVec p' !! j = Some n →
       pipe_ n = Some (this p))
  ∧ (∀ e, e ∈ evs → ∃ j, e = ev_tool_connect j).
Proof.
  induction tools as [|tool rest IHtools]; intros i p r p' evs Hrest Hcon.
  { simpl in Hcon. simplify_eq. split_and!; try done.
    - apply vec_connected_refl.
    - intros _ j n Hj Hn. apply lookup_lt_Some in Hn.
      destruct Hrest as [Hlen _]. simpl in Hlen. lia.
    - intros e He. by apply elem_of_nil in He. }
  apply (rest_of_next (this p)) in Hrest as [(m & Hm & Hd) Hrest].
  pose proof (vec_connected_insert (this p) (toolVec p) i tool m Hm Hd) as Hins.
  simpl in Hcon.
  set (p1 := set_toolVec (<[i:=Node_do_connect (this p) tool]> (toolVec p)) p)
    in Hcon.
  destruct (tool_connect (tool_class (dyn_type tool)) i p1) as [[[]|e] h].
  - destruct (connect_tools_from tool_class (S i) rest (set_heap h p1))
      as [[r' p3] evs'] eqn:Hrec.
    simplify_eq.
    destruct (IHtools (S i) (set_heap h p1) _ _ _ Hrest Hrec)
      as (Hthis & Hrun & Halg & Hout & Hvec & Hlow & Hdone & Hevs).
    simpl in *. split_and!; try done.
    + by eapply vec_connected_trans.
    + intros j Hj. rewrite Hlow by lia. by rewrite list_lookup_insert_ne by lia.
    + intros -> j n Hj Hn. destruct (decide (j = i)) as [->|Hne].
      * rewrite Hlow in Hn by lia.
        rewrite list_lookup_insert_eq in Hn by (by eapply lookup_lt_Some).
        by simplify_eq.
      * apply (Hdone eq_refl j); [lia|done].
    + intros e He. apply elem_of_cons in He as [->|He]; [by exists i|auto].
  - simplify_eq. simpl. split_and!; try done.
    + intros j Hj. by rewrite list_lookup_insert_ne by lia.
    + intros e' He. apply list_elem_of_singleton in He as ->. by exists i.
Qed.

Lemma load_from_events inFiles algs : ∀ i h h' evs,
  load_from alg_class inFiles i algs h = (h', evs) →
  ∀ e, e ∈ evs → ∃ j, e = ev_load j.
Proof.
  induction algs as [|alg rest IHalgs]; intros i h h' evs Hload e He.
  { simpl in Hload. simplify_eq. by apply elem_of_nil in He. }
  simpl in Hload.
  destruct (load_from alg_class inFiles (S i) rest _) as [h2 evs2] eqn:Hrec.
  simplify_eq. apply elem_of_cons in He as [->|He]; [by exists i|].
  by eapply IHalgs.
Qed.

Lemma load_from_seq inFiles algs : ∀ i h h' evs,
  load_from alg_class inFiles i algs h = (h', evs) →
  evs = ev_load <$> seq i (length algs).
Proof.
  induction algs as [|alg rest IHalgs]; intros i h h' evs Hload.
  { simpl in Hload. by simplify_eq. }
  simpl in Hload.
  destruct (load_from alg_class inFiles (S i) rest _) as [h2 evs2] eqn:Hrec.
  simplify_eq. simpl. f_equal. by eapply IHalgs.
Qed.

(** The load and connect phases: they keep the set of running readers and
    the output map, set [pipe_] in the components they get to, in all of
    them when they end without an exception, and call no [execute]. *)
Lemma before_loop_spec inFiles p r p1 evs :
  before_loop alg_class tool_class inFiles p = (r, p1, evs) →
  this p1 = this p ∧ runningReaders p1 = runningReaders p
  ∧ outFileMap p1 = outFileMap p
  ∧ vec_connected (this p) (algVec p) (algVec p1)
  ∧ vec_connected (this p) (toolVec p) (toolVec p1)
  ∧ (r = Return () →
     ∀ n, n ∈ algVec p1 ++ toolVec p1 → pipe_ n = Some (this p))
  ∧ (∀ j st, ev_execute j st ∉ evs).
Proof.
  unfold before_loop. intros Hbefore.
  destruct (load_from alg_class inFiles 0 _ _) as [h1 evs1] eqn:Hload.
  simpl in Hload.
  set (p0 := set_heap h1 (set_inFilePaths inFiles p)) in Hbefore.
  destruct (connect_algs_from alg_class 0 (algVec p0) p0)
    as [[ra p2] evs2] eqn:Halgs.
  destruct (connect_algs_from_spec _ 0 p0 _ _ _ (rest_of_all _) Halgs)
    as (Hthis2 & Hrun2 & Htool2 & Hout2 & Hvec2 & _ & Hdone2 & Hevs2).
  simpl in Hthis2, Hrun2, Htool2, Hout2, Hvec2, Hdone2.
  assert (Hno12 : ∀ j st, ev_execute j st ∉ evs1 ++ evs2).
  { intros j st Hin. apply elem_of_app in Hin as [Hin|Hin].
    - by destruct (load_from_events _ _ _ _ _ _ Hload _ Hin).
    - by destruct (Hevs2 _ Hin). }
  destruct ra as [[]|e].
  - destruct (connect_tools_from tool_class 0 (toolVec p2) p2)
      as [[rt p3] evs3] eqn:Htools.
    destruct (connect_tools_from_spec _ 0 p2 _ _ _ (rest_of_all _) Htools)
      as (Hthis3 & Hrun3 & Halg3 & Hout3 & Hvec3 & _ & Hdone3 & Hevs3).
    simplify_eq. rewrite Hthis2 in Hvec3, Hdone3. rewrite Htool2 in Hvec3.
    split_and!; try congruence.
    + intros -> n Hn. apply elem_of_app in Hn as [Hn|Hn];
        apply list_elem_of_lookup in Hn as [j Hj].
      * rewrite Halg3 in Hj. apply (Hdone2 eq_refl j n); [lia|done].
      * apply (Hdone3 eq_refl j n); [lia|done].
    + intros j st Hin. rewrite app_assoc in Hin.
      apply elem_of_app in Hin as [Hin|Hin]; [by eapply Hno12|].
      by destruct (Hevs3 _ Hin).
  - simplify_eq. split_and!; try done.
    rewrite Htool2. apply vec_connected_refl.
Qed.

Lemma cycle_frame p p' evs :
  cycle alg_class p = (p', evs) →
  this p' = this p ∧ algVec p' = algVec p ∧ toolVec p' = toolVec p
  ∧ outFileMap p' = outFileMap p.
Proof.
  unfold cycle. destruct (cycle_from _ _ _ _ _) as [[running h] evs0].
  by intros [= <- <-].
Qed.

Lemma cycle_loop_frame fuel : ∀ p p' cs,
  cycle_loop alg_class fuel p = Some (p', cs) →
  this p' = this p ∧ algVec p' = algVec p ∧ toolVec p' = toolVec p
  ∧ outFileMap p' = outFileMap p.
Proof.
  induction fuel as [|fuel IHfuel]; intros p p' cs Hloop; [done|].
  simpl in Hloop. destruct (cycle alg_class p) as [p1 evs] eqn:Hcyc.
  apply cycle_frame in Hcyc as (Hthis & Halg & Htool & Hout).
  case_bool_decide.
  - simplify_eq. done.
  - destruct (cycle_loop alg_class fuel p1) as [[p2 cs2]|] eqn:Hrec; [|done].
    simplify_eq. destruct (IHfuel _ _ _ Hrec) as (? & ? & ? & ?).
    split_and!; congruence.
Qed.

Lemma finalize_from_spec algs : ∀ i p p' evs,
  finalize_from alg_class i algs p = (p', evs) →
  this p' = this p ∧ algVec p' = algVec p ∧ toolVec p' = toolVec p
  ∧ runningReaders p' = runningReaders p
  ∧ (∀ e, e ∈ evs → ∃ j, e = ev_finalize j).
Proof.
  induction algs as [|alg rest IHalgs]; intros i p p' evs Hfin.
  { simpl in Hfin. simplify_eq. split_and!; try done.
    intros e He. by apply elem_of_nil in He. }
  simpl in Hfin.
  destruct (finalize_from alg_class (S i) rest _) as [p2 evs2] eqn:Hrec.
  simplify_eq. destruct (IHalgs _ _ _ _ Hrec) as (? & ? & ? & ? & Hevs).
  split_and!; try done.
  intros e He. apply elem_of_cons in He as [->|He]; [by exists i|auto].
Qed.

Lemma after_loop_spec p r p' evs :
  after_loop alg_class p = (r, p', evs) →
  this p' = this p ∧ algVec p' = algVec p ∧ toolVec p' = toolVec p
  ∧ runningReaders p' = runningReaders p
  ∧ (∀ j st, ev_execute j st ∉ evs).
Proof.
  unfold after_loop, cd_default, getOutFile. intros Hafter.
  destruct (outFileMap p !! DefaultFile) as [[f|]|]; simplify_eq.
  - destruct (finalize_from alg_class 0 (algVec p) p) as [p2 evs2] eqn:Hfin.
    simplify_eq. apply finalize_from_spec in Hfin as (? & ? & ? & ? & Hevs).
    split_and!; try done. intros j st Hin.
    apply elem_of_cons in Hin as [?|Hin]; [done|].
    by destruct (Hevs _ Hin).
  - split_and!; try done. intros j st Hin. by apply elem_of_nil in Hin.
  - destruct (finalize_from alg_class 0 (algVec p) p) as [p2 evs2] eqn:Hfin.
    simplify_eq. apply finalize_from_spec in Hfin as (? & ? & ? & ? & Hevs).
    split_and!; try done. intros j st Hin. by destruct (Hevs _ Hin).
Qed.

(** The connect loop over the algorithms gets to the first [m] of those
    it has to visit, in their order: these have their [pipe_] set to the
    pipeline, and every other algorithm is as it was. *)
Lemma connect_algs_from_prefix algs : ∀ i p r p' evs,
  rest_of i algs (algVec p) →
  connect_algs_from alg_class i algs p = (r, p', evs) →
  ∃ m, m ≤ length algs ∧ evs = ev_connect <$> seq i m
    ∧ (r = Return () → m = length algs)
    ∧ (∀ j n, i ≤ j < i + m → algVec p' !! j = Some n →
         pipe_ n = Some (this p))
    ∧ (∀ j, ¬ (i ≤ j < i + m) → algVec p' !! j = algVec p !! j).
Proof.
  induction algs as [|alg rest IHalgs]; intros i p r p' evs Hrest Hcon.
  { simpl in Hcon. simplify_eq. exists 0. split_and!; try done. lia. }
  apply (rest_of_next (this p)) in Hrest as [(m0 & Hm0 & Hd) Hrest].
  pose proof (lookup_lt_Some _ _ _ Hm0) as Hi.
  simpl in Hcon.
  set (p1 := set_algVec (<[i:=Node_do_connect (this p) alg]> (algVec p)) p)
    in Hcon.
  destruct (connect (alg_class (dyn_type alg)) i p1) as [[[]|e] h].
  - destruct (connect_algs_from alg_class (S i) rest (set_heap h p1))
      as [[r' p3] evs'] eqn:Hrec.
    simplify_eq.
    destruct (IHalgs (S i) (set_heap h p1) _ _ _ Hrest Hrec)
      as (m & Hm & -> & Hall & Hset & Hkept).
    simpl in Hset, Hkept. exists (S m). split_and!.
    + simpl. lia.
    + done.
    + intros Hr. simpl. by rewrite (Hall Hr).
    + intros j n Hj Hn. destruct (decide (j = i)) as [->|Hne].
      * rewrite Hkept in Hn by lia.
        rewrite list_lookup_insert_eq in Hn by done. by simplify_eq.
      * apply (Hset j n); [lia|done].
    + intros j Hj. rewrite Hkept by lia.
      apply list_lookup_insert_ne. lia.
  - simplify_eq. exists 1. simpl. split_and!; [lia|done|done| |].
    + intros j n Hj Hn. assert (j = i) as -> by lia.
      rewrite list_lookup_insert_eq in Hn by done. by simplify_eq.
    + intros j Hj. apply list_lookup_insert_ne. lia.
Qed.

Lemma connect_tools_from_prefix tools : ∀ i p r p' evs,
  rest_of i tools (toolVec p) →
  connect_tools_from tool_class i tools p = (r, p', evs) →
  ∃ m, m ≤ length tools ∧ evs = ev_tool_connect <$> seq i m
    ∧ (r = Return () → m = length tools)
    ∧ (∀ j n, i ≤ j < i + m → toolVec p' !! j = Some n →
         pipe_ n = Some (this p))
    ∧ (∀ j, ¬ (i ≤ j < i + m) → toolVec p' !! j = toolVec p !! j).
Proof.
  induction tools as [|tool rest IHtools]; intros i p r p' evs Hrest Hcon.
  { simpl in Hcon. simplify_eq. exists 0. split_and!; try done. lia. }
  apply (rest_of_next (this p)) in Hrest as [(m0 & Hm0 & Hd) Hrest].
  pose proof (lookup_lt_Some _ _ _ Hm0) as Hi.
  simpl in Hcon.
  set (p1 := set_toolVec (<[i:=Node_do_connect (this p) tool]> (toolVec p)) p)
    in Hcon.
  destruct (tool_connect (tool_class (dyn_type tool)) i p1) as [[[]|e] h].
  - destruct (connect_tools_from tool_class (S i) rest (set_heap h p1))
      as [[r' p3] evs'] eqn:Hrec.
    simplify_eq.
    destruct (IHtools (S i) (set_heap h p1) _ _ _ Hrest Hrec)
      as (m & Hm & -> & Hall & Hset & Hkept).
    simpl in Hset, Hkept. exists (S m). split_and!.
    + simpl. lia.
    + done.
    + intros Hr. simpl. by rewrite (Hall Hr).
    + intros j n Hj Hn. destruct (decide (j = i)) as [->|Hne].
      * rewrite Hkept in Hn by lia.
        rewrite list_lookup_insert_eq in Hn by done. by simplify_eq.
      * apply (Hset j n); [lia|done].
    + intros j Hj. rewrite Hkept by lia.
      apply list_lookup_insert_ne. lia.
  - simplify_eq. exists 1. simpl. split_and!; [lia|done|done| |].
    + intros j n Hj Hn. assert (j = i) as -> by lia.
      rewrite list_lookup_insert_eq in Hn by done. by simplify_eq.
    + intros j Hj. apply list_lookup_insert_ne. lia.
Qed.

(** Where [pipe_] is assigned: in the connect phase. After the loads, the
    phase calls [do_connect] on the first [m] algorithms and then on the
    first [m'] tools, on a tool only after every algorithm, and on all of
    them when it ends without an exception; the components it has got to
    have their [pipe_] set to the pipeline, and the others are as they
    were. *)
Lemma before_loop_pipe inFiles p r p1 evs :
  before_loop alg_class tool_class inFiles p = (r, p1, evs) →
  ∃ m m',
    evs = (ev_load <$> seq 0 (length (algVec p)))
          ++ (ev_connect <$> seq 0 m) ++ (ev_tool_connect <$> seq 0 m')
    ∧ m ≤ length (algVec p) ∧ m' ≤ length (toolVec p)
    ∧ (0 < m' → m = length (algVec p))
    ∧ (r = Return () → m = length (algVec p) ∧ m' = length (toolVec p))
    ∧ (∀ j n, j < m → algVec p1 !! j = Some n → pipe_ n = Some (this p))
    ∧ (∀ j, m ≤ j → algVec p1 !! j = algVec p !! j)
    ∧ (∀ j n, j < m' → toolVec p1 !! j = Some n → pipe_ n = Some (this p))
    ∧ (∀ j, m' ≤ j → toolVec p1 !! j = toolVec p !! j).
Proof.
  unfold before_loop. intros Hbefore.
  destruct (load_from alg_class inFiles 0 _ _) as [h1 evs1] eqn:Hload.
  apply load_from_seq in Hload. simpl in Hload.
  set (p0 := set_heap h1 (set_inFilePaths inFiles p)) in Hbefore.
  destruct (connect_algs_from alg_class 0 (algVec p0) p0)
    as [[ra p2] evs2] eqn:Halgs.
  pose proof (connect_algs_from_spec _ 0 p0 _ _ _ (rest_of_all _) Halgs)
    as (Hthis2 & _ & Htool2 & _).
  destruct (connect_algs_from_prefix _ 0 p0 _ _ _ (rest_of_all _) Halgs)
    as (m & Hm & -> & Hall & Hset & Hkept).
  simpl in Hthis2, Htool2, Hm, Hall, Hset, Hkept.
  destruct ra as [[]|e].
  - destruct (connect_tools_from tool_class 0 (toolVec p2) p2)
      as [[rt p3] evs3] eqn:Htools.
    pose proof (connect_tools_from_spec _ 0 p2 _ _ _ (rest_of_all _) Htools)
      as (_ & _ & Halg3 & _).
    destruct (connect_tools_from_prefix _ 0 p2 _ _ _ (rest_of_all _) Htools)
      as (m' & Hm' & -> & Hall' & Hset' & Hkept').
    rewrite Htool2 in Hm', Hall', Hkept'. rewrite Hthis2 in Hset'.
    simplify_eq. exists m, m'.
    split_and!; [done|done|done|by intros; apply Hall| | | | |].
    + intros ->. split; [by apply Hall|by apply Hall'].
    + intros j n Hj. rewrite Halg3. apply Hset. lia.
    + intros j Hj. rewrite Halg3. apply Hkept. lia.
    + intros j n Hj. apply Hset'. lia.
    + intros j Hj. apply Hkept'. lia.
  - simplify_eq. exists m, 0. simpl. rewrite app_nil_r.
    split_and!; [done|done|lia|lia|done| | | |].
    + intros j n Hj. apply Hset. lia.
    + intros j Hj. apply Hkept. lia.
    + intros j n Hj. lia.
    + intros j Hj. by rewrite Htool2.
Qed.

(** The cycles leave the components as they are. *)
Lemma cycles_frame n : ∀ p,
  algVec (fst (cycles alg_class n p)) = algVec p
  ∧ toolVec (fst (cycles alg_class n p)) = toolVec p.
Proof.
  induction n as [|n IHn]; intros p; [done|]. simpl.
  destruct (cycle alg_class p) as [p1 evs] eqn:Hcyc.
  destruct (IHn p1) as [Halg Htool].
  destruct (cycles alg_class n p1) as [p2 rest]. simpl in *.
  apply cycle_frame in Hcyc as (_ & Halg1 & Htool1 & _). split; congruence.
Qed.

(** C9, as the code has it. Registration leaves the [pipe_] of the new
    component unset: [makeAlg] and [makeTool] append a node without it and
    touch no other node. [process] sets it, in its connect phase, to the
    pipeline that runs: the phase calls [do_connect] on algorithm after
    algorithm and then on tool after tool, the components it has got to
    have their [pipe_] set to this pipeline and the others are as they
    were, and when the phase ends without an exception it has got to
    all. Nothing after the connect phase touches a component: no number of
    cycles, so also in a [process] that does not return, nor the loop when
    it is left, nor what follows the loop. So, whatever way [process]
    ends, the components are those that its connect phase has left: each
    [pipe_] is the one from before or this pipeline, and it is this
    pipeline in every algorithm and every tool when the connect phase has
    ended without an exception, as it has when [process] returns. A later
    [process], however it ends, then leaves every [pipe_] at this
    pipeline. *)
Theorem pipe_set_in_connect_phase p :
  (∀ T init,
     algVec (snd (makeAlg alg_class T init p)) = algVec p ++ [mkNode T None]
     ∧ toolVec (snd (makeAlg alg_class T init p)) = toolVec p)
  ∧ (∀ T init,
     toolVec (snd (makeTool T init p)) = toolVec p ++ [mkNode T None]
     ∧ algVec (snd (makeTool T init p)) = algVec p)
  ∧ (∀ fuel inFiles r p' evs,
     process alg_class tool_class fuel inFiles p = Some (r, p', evs) →
     this p' = this p
     ∧ vec_connected (this p) (algVec p) (algVec p')
     ∧ vec_connected (this p) (toolVec p) (toolVec p')
     ∧ (r = Return () →
        ∀ n, n ∈ algVec p' ++ toolVec p' → pipe_ n = Some (this p)))
  ∧ (∀ inFiles r p1 evs1,
     before_loop alg_class tool_class inFiles p = (r, p1, evs1) →
     this p1 = this p
     ∧ (r = Return () →
        ∀ n, n ∈ algVec p1 ++ toolVec p1 → pipe_ n = Some (this p))
     ∧ ∃ m m',
         evs1 = (ev_load <$> seq 0 (length (algVec p)))
                ++ (ev_connect <$> seq 0 m)
                ++ (ev_tool_connect <$> seq 0 m')
         ∧ m ≤ length (algVec p) ∧ m' ≤ length (toolVec p)
         ∧ (0 < m' → m = length (algVec p))
         ∧ (r = Return () → m = length (algVec p) ∧ m' = length (toolVec p))
         ∧ (∀ j n, j < m → algVec p1 !! j = Some n →
              pipe_ n = Some (this p))
         ∧ (∀ j, m ≤ j → algVec p1 !! j = algVec p !! j)
         ∧ (∀ j n, j < m' → toolVec p1 !! j = Some n →
              pipe_ n = Some (this p))
         ∧ (∀ j, m' ≤ j → toolVec p1 !! j = toolVec p !! j))
  ∧ (∀ q,
     (∀ n, algVec (fst (cycles alg_class n q)) = algVec q
           ∧ toolVec (fst (cycles alg_class n q)) = toolVec q)
     ∧ (∀ fuel q' cs, cycle_loop alg_class fuel q = Some (q', cs) →
          algVec q' = algVec q ∧ toolVec q' = toolVec q)
     ∧ (∀ r q' evs, after_loop alg_class q = (r, q', evs) →
          algVec q' = algVec q ∧ toolVec q' = toolVec q))
  ∧ (∀ fuel inFiles r p' evs,
     process alg_class tool_class fuel inFiles p = Some (r, p', evs) →
     ∃ rb p1 evs1,
       before_loop alg_class tool_class inFiles p = (rb, p1, evs1)
       ∧ algVec p' = algVec p1 ∧ toolVec p' = toolVec p1
       ∧ (∀ e, rb = Throw e → r = Throw e ∧ evs = evs1)
       ∧ (rb = Return () →
          ∀ n, n ∈ algVec p' ++ toolVec p' → pipe_ n = Some (this p)))
  ∧ (∀ fuel inFiles p' evs,
     process alg_class tool_class fuel inFiles p
     = Some (Return (), p', evs) →
     ∀ fuel' inFiles' r' p'' evs',
       process alg_class tool_class fuel' inFiles' p' = Some (r', p'', evs') →
       ∀ n, n ∈ algVec p'' ++ toolVec p'' → pipe_ n = Some (this p)).
Proof.
  assert (Hprocess : ∀ q fuel inFiles r p' evs,
    process alg_class tool_class fuel inFiles q = Some (r, p', evs) →
    ∃ rb p1 evs1,
      before_loop alg_class tool_class inFiles q = (rb, p1, evs1)
      ∧ algVec p' = algVec p1 ∧ toolVec p' = toolVec p1 ∧ this p' = this p1
      ∧ (∀ e, rb = Throw e → r = Throw e ∧ evs = evs1)
      ∧ (r = Return () → rb = Return ())).
  { intros q fuel inFiles r p' evs. unfold process.
    destruct (before_loop alg_class tool_class inFiles q)
      as [[rb p1] evs1] eqn:Hbefore.
    destruct rb as [[]|e].
    - destruct (cycle_loop alg_class fuel p1) as [[p2 cs]|] eqn:Hloop; [|done].
      apply cycle_loop_frame in Hloop as (Hthis2 & Halg2 & Htool2 & _).
      destruct (after_loop alg_class p2) as [[ra p3] evs3] eqn:Hafter.
      apply after_loop_spec in Hafter as (Hthis3 & Halg3 & Htool3 & _).
      intros [= <- <- <-]. exists (Return ()), p1, evs1.
      split_and!; congruence.
    - intros [= <- <- <-]. exists (Throw e), p1, evs1.
      split_and!; try done. }
  assert (Hstate : ∀ q fuel inFiles r p' evs,
    process alg_class tool_class fuel inFiles q = Some (r, p', evs) →
    this p' = this q
    ∧ vec_connected (this q) (algVec q) (algVec p')
    ∧ vec_connected (this q) (toolVec q) (toolVec p')
    ∧ (r = Return () →
       ∀ n, n ∈ algVec p' ++ toolVec p' → pipe_ n = Some (this q))).
  { intros q fuel inFiles r p' evs Hp.
    destruct (Hprocess _ _ _ _ _ _ Hp)
      as (rb & p1 & evs1 & Hbefore & Halg & Htool & Hthis & _ & Hret).
    apply before_loop_spec in Hbefore
      as (Hthis1 & _ & _ & Halg1 & Htool1 & Hdone1 & _).
    rewrite Halg, Htool. split_and!; try done; [congruence|].
    intros Hr. by apply Hdone1, Hret. }
  split_and!.
  - intros T init. unfold makeAlg. simpl. by destruct (isReader _).
  - done.
  - apply Hstate.
  - intros inFiles r p1 evs1 Hbefore.
    pose proof (before_loop_spec _ _ _ _ _ Hbefore)
      as (Hthis1 & _ & _ & _ & _ & Hdone1 & _).
    split; [done|]. split; [done|].
    exact (before_loop_pipe _ _ _ _ _ Hbefore).
  - intros q. split_and!.
    + intros n. apply cycles_frame.
    + intros fuel q' cs Hloop.
      by apply cycle_loop_frame in Hloop as (_ & ? & ? & _).
    + intros r q' evs Hafter.
      by apply after_loop_spec in Hafter as (_ & ? & ? & _).
  - intros fuel inFiles r p' evs Hp.
    destruct (Hprocess _ _ _ _ _ _ Hp)
      as (rb & p1 & evs1 & Hbefore & Halg & Htool & Hthis & Hthrow & _).
    exists rb, p1, evs1. split_and!; try done.
    intros Hrb. rewrite Halg, Htool.
    by apply before_loop_spec in Hbefore as (_ & _ & _ & _ & _ & Hdone & _);
      apply Hdone.
  - intros fuel inFiles p' evs Hp fuel' inFiles' r' p'' evs' Hp'.
    destruct (Hstate _ _ _ _ _ _ Hp) as (Hthis & _ & _ & Hset).
    destruct (Hstate _ _ _ _ _ _ Hp') as (_ & Halg & Htool & _).
    rewrite Hthis in Halg, Htool.
    assert (Hkeep : ∀ v v' : list (Node cls),
      vec_connected (this p) v v' →
      (∀ n, n ∈ v → pipe_ n = Some (this p)) →
      ∀ n, n ∈ v' → pipe_ n = Some (this p)).
    { intros v v' [Hlen Hnodes] Hv n Hn.
      apply list_elem_of_lookup in Hn as [j Hj].
      destruct (lookup_lt_is_Some_2 v j) as [n0 Hn0].
      { apply lookup_lt_Some in Hj. lia. }
      destruct (Hnodes j n0 n Hn0 Hj) as [_ [Hsame|Hnew]]; [|done].
      rewrite Hsame. apply Hv, list_elem_of_lookup. by exists j. }
    intros n Hn. apply elem_of_app in Hn as [Hn|Hn].
    + apply (Hkeep _ _ Halg); [|done]. intros n0 Hn0.
      apply (Hset eq_refl). apply elem_of_app. by left.
    + apply (Hkeep _ _ Htool); [|done]. intros n0 Hn0.
      apply (Hset eq_refl). apply elem_of_app. by right.
Qed.


Lemma cycle_loop_no_reader fuel p :
  runningReaders p = ∅ →
  cycle_loop alg_class (S fuel) p
  = Some (fst (cycle alg_class p), [snd (cycle alg_class p)]).
Proof.
  intros Hempty. simpl.
  destruct (cycle alg_class p) as [p1 evs] eqn:Hcyc. simpl.
  apply cycle_unfold in Hcyc as [Hcyc _].
  assert (runningReaders p1 = ∅) as ->.
  { apply set_eq. intros r.
    rewrite (cycle_from_running _ _ _ _ _ _ _ _ Hcyc r), Hempty. set_solver. }
  done.
Qed.

(** C1, as the code has it. The test that leaves the loop comes after the
    pass over the algorithms. With no running reader when [process] is
    called, and a connect phase that ends without an exception, the loop
    makes one pass and is left: [process] calls what the load and connect
    phases call, then the [execute]s of that one cycle, then what follows
    the loop. In that cycle nothing but [execute] is called; the
    algorithms called are no readers; they are called in the order of
    registration, each once; an algorithm that is no reader is called
    exactly when no algorithm before it has returned [SkipToNext], so that
    the call that returns [SkipToNext] is the last of the cycle; and no
    [execute] is called at all exactly when every registered algorithm is
    a reader. *)
Theorem no_running_reader_one_cycle fuel inFiles p p1 evs1 :
  runningReaders p = ∅ →
  before_loop alg_class tool_class inFiles p = (Return (), p1, evs1) →
  ∃ p2 evs2 r p3 evs3,
    cycle alg_class p1 = (p2, evs2)
    ∧ after_loop alg_class p2 = (r, p3, evs3)
    ∧ cycle_loop alg_class (S fuel) p1 = Some (p2, [evs2])
    ∧ process alg_class tool_class (S fuel) inFiles p
      = Some (r, p3, evs1 ++ evs2 ++ evs3)
    ∧ (∀ j st, ev_execute j st ∈ evs2 →
         ∃ alg, algVec p1 !! j = Some alg
           ∧ isReader (alg_class (dyn_type alg)) = false)
    ∧ (∀ j alg, algVec p1 !! j = Some alg →
         isReader (alg_class (dyn_type alg)) = false →
         (∀ k, k < j → ev_execute k SkipToNext ∉ evs2) →
         ∃ st, ev_execute j st ∈ evs2)
    ∧ (∀ e, e ∈ evs2 → ∃ j st, e = ev_execute j st)
    ∧ (∀ j st, ev_execute j st ∈ evs2 →
         ∀ k, k < j → ev_execute k SkipToNext ∉ evs2)
    ∧ (∀ i, ev_execute i SkipToNext ∈ evs2 →
         ∃ before, evs2 = before ++ [ev_execute i SkipToNext])
    ∧ (∀ before j1 st1 after j2 st2,
         evs2 = before ++ ev_execute j1 st1 :: after →
         ev_execute j2 st2 ∈ after → j1 < j2)
    ∧ (evs2 = []
       ↔ ∀ alg, alg ∈ algVec p1 →
           isReader (alg_class (dyn_type alg)) = true).
Proof.
  intros Hempty Hbefore.
  pose proof (before_loop_spec _ _ _ _ _ Hbefore) as (_ & Hrun & _).
  rewrite Hempty in Hrun.
  destruct (cycle alg_class p1) as [p2 evs2] eqn:Hcyc.
  destruct (after_loop alg_class p2) as [[r p3] evs3] eqn:Hafter.
  exists p2, evs2, r, p3, evs3.
  pose proof (cycle_loop_no_reader fuel p1 Hrun) as Hloop.
  rewrite Hcyc in Hloop. simpl fst in Hloop. simpl snd in Hloop.
  apply cycle_unfold in Hcyc as [Hfrom _].
  assert (Hnoreader : ∀ j st, ev_execute j st ∈ evs2 →
            ∃ alg, algVec p1 !! j = Some alg
              ∧ isReader (alg_class (dyn_type alg)) = false).
  { intros j st Hin.
    destruct (cycle_from_event _ _ _ _ _ _ _ _ Hfrom _ Hin)
      as (j' & st' & alg & [= <- <-] & _ & Hl & Hc).
    rewrite Nat.sub_0_r in Hl. exists alg. split; [done|].
    destruct Hc as [?|Hc]; [done|]. rewrite Hrun in Hc. set_solver. }
  assert (Hcalled : ∀ j alg, algVec p1 !! j = Some alg →
            isReader (alg_class (dyn_type alg)) = false →
            (∀ k, k < j → ev_execute k SkipToNext ∉ evs2) →
            ∃ st, ev_execute j st ∈ evs2).
  { intros j alg Hl Hno Hskip.
    apply (cycle_from_called _ _ _ _ _ _ _ _ Hfrom j alg); [lia| |by left|done].
    by rewrite Nat.sub_0_r. }
  assert (Hlast : ∀ i, ev_execute i SkipToNext ∈ evs2 →
            ∃ before, evs2 = before ++ [ev_execute i SkipToNext]
              ∧ ∀ j st, ev_execute j st ∈ before → j < i).
  { intros i Hin.
    destruct (cycle_from_at _ _ _ _ _ _ _ _ _ Hfrom Hin)
      as (r1 & h1 & before & alg & rest & h2 & _ & _ & Hlow & _ & _ & _ & Heq).
    exists before. split; [|done]. by injection Heq as _ _ ->. }
  split_and!; try done.
  - unfold process. rewrite Hbefore, Hloop, Hafter. simpl.
    by rewrite app_nil_r.
  - intros e He.
    destruct (cycle_from_event _ _ _ _ _ _ _ _ Hfrom _ He)
      as (j & st & _ & -> & _). by exists j, st.
  - intros j st Hin k Hk Hskip.
    destruct (Hlast k Hskip) as (before & -> & Hlow).
    apply elem_of_app in Hin as [Hin|Hin].
    + apply Hlow in Hin. lia.
    + apply list_elem_of_singleton in Hin. simplify_eq. lia.
  - intros i Hin. destruct (Hlast i Hin) as (before & Heq & _).
    by exists before.
  - intros before j1 st1 after j2 st2 Hsplit Hin.
    by eapply (cycle_from_ordered _ _ _ _ _ _ _ _ Hfrom).
  - split.
    + intros -> alg Halg. apply list_elem_of_lookup in Halg as [j Hj].
      destruct (isReader (alg_class (dyn_type alg))) eqn:Hread; [done|].
      destruct (Hcalled j alg Hj Hread) as [st Hst].
      * intros k _ Hin. by apply elem_of_nil in Hin.
      * by apply elem_of_nil in Hst.
    + intros Hall. destruct evs2 as [|e rest]; [done|].
      destruct (cycle_from_event _ _ _ _ _ _ _ _ Hfrom e)
        as (j & st & alg & -> & _); [apply list_elem_of_here|].
      destruct (Hnoreader j st) as (alg' & Hl & Hno);
        [apply list_elem_of_here|].
      rewrite Hall in Hno; [done|]. apply list_elem_of_lookup. by exists j.
Qed.

End PhaseFacts.

(** Registration has not set the [pipe_] of the one algorithm of the
    pipeline that [makeAlg<Logger>()] builds. *)
Lemma pipe_unset_after_makeAlg :
  algVec Example.one_logger = [mkNode Example.Logger None]
  ∧ ¬ (∀ n, n ∈ algVec Example.one_logger →
            pipe_ n = Some (this Example.one_logger)).
Proof.
  split; [reflexivity|]. intros Hset.
  discriminate (Hset (mkNode Example.Logger None) (list_elem_of_here _ _)).
Qed.

(** [process] on the pipeline of two readers, a logger and a tool: its
    connect phase has set every [pipe_], of the tool too; and [process] on
    [Logger; Veto; Logger], where the [connect] of [Veto] throws: the
    algorithms at positions 0 and 1 have their [pipe_] set, and the one
    at position 2 is as it was. *)
Lemma pipe_set_in_connect_phase_witness :
  (∃ p1 evs1 p' evs,
     before_loop Example.alg_class Example.tool_class [] Example.two_readers
     = (Return (), p1, evs1)
     ∧ Forall (fun n => pipe_ n = Some 1) (algVec p1 ++ toolVec p1)
     ∧ process Example.alg_class Example.tool_class 3 [] Example.two_readers
       = Some (Return (), p', evs)
     ∧ algVec p' = algVec p1 ∧ toolVec p' = toolVec p1
     ∧ length (toolVec p') = 1)
  ∧ ∃ e p1 evs1 m,
      before_loop More.alg_class Example.tool_class [] More.failing
      = (Throw e, p1, evs1)
      ∧ evs1 = [ev_load 0; ev_load 1; ev_load 2] ++ (ev_connect <$> seq 0 m)
      ∧ algVec p1 !! 2 = algVec More.failing !! 2.
Proof.
  split.
  - assert (Hb : ∃ p1 evs1,
      before_loop Example.alg_class Example.tool_class [] Example.two_readers
      = (Return (), p1, evs1)).
    { vm_compute. eexists _, _. reflexivity. }
    assert (Hp : ∃ p' evs,
      process Example.alg_class Example.tool_class 3 [] Example.two_readers
      = Some (Return (), p', evs)).
    { vm_compute. eexists _, _. reflexivity. }
    destruct Hb as (p1 & evs1 & Hb). destruct Hp as (p' & evs & Hp).
    destruct (pipe_set_in_connect_phase Example.alg_class Example.tool_class
                Example.two_readers) as (_ & _ & _ & Hphase & _ & Hends & _).
    destruct (Hphase [] _ _ _ Hb) as (_ & Hset & _).
    destruct (Hends 3 [] _ _ _ Hp) as (rb & q1 & e1 & Hb' & Ha & Ht & _).
    rewrite Hb in Hb'. injection Hb' as <- <- <-.
    exists p1, evs1, p', evs. split; [exact Hb|].
    split; [apply Forall_forall; exact (Hset eq_refl)|].
    split; [exact Hp|]. split; [exact Ha|]. split; [exact Ht|].
    vm_compute in Hp. injection Hp as <- _. reflexivity.
  - assert (Hb : ∃ e p1 evs1,
      before_loop More.alg_class Example.tool_class [] More.failing
      = (Throw e, p1, evs1)).
    { vm_compute. eexists _, _, _. reflexivity. }
    destruct Hb as (e & p1 & evs1 & Hb).
    destruct (pipe_set_in_connect_phase More.alg_class Example.tool_class
                More.failing) as (_ & _ & _ & Hphase & _).
    destruct (Hphase [] _ _ _ Hb)
      as (_ & _ & m & m' & Hevs & Hm & Hm' & _ & _ & _ & Hkept & _).
    assert (m' = 0) as -> by (vm_compute in Hm'; lia).
    assert (m ≤ 2) as Hm2.
    { destruct m as [|[|[|m]]]; [lia|lia|lia|]. exfalso.
      rewrite Hevs in Hb. vm_compute in Hb. injection Hb as _ _ Hl.
      discriminate Hl. }
    exists e, p1, evs1, m. split; [exact Hb|].
    split; [rewrite Hevs; simpl; by rewrite app_nil_r|].
    apply Hkept. exact Hm2.
Defined.

(** A pipeline whose one algorithm is no reader: [process] calls its
    [execute], once. *)
Lemma execute_called_without_reader :
  runningReaders Example.one_logger = ∅
  ∧ (∃ p', process Example.alg_class Example.tool_class 1 [] Example.one_logger
           = Some (Return (), p',
                   [ev_load 0; ev_connect 0; ev_execute 0 Continue;
                    ev_finalize 0]))
  ∧ ¬ (∀ r p' evs,
         process Example.alg_class Example.tool_class 1 [] Example.one_logger
         = Some (r, p', evs) →
         ∀ j st, ev_execute j st ∉ evs).
Proof.
  split; [reflexivity|]. split; [eexists; reflexivity|].
  intros Hnone. eapply (Hnone _ _ _ eq_refl 0 Continue).
  apply list_elem_of_further, list_elem_of_further, list_elem_of_here.
Qed.

(** [Logger; Veto; Logger] without a reader: one cycle, in which the
    first logger is called and, [Veto] having returned [SkipToNext], the
    second is not. *)
Lemma no_running_reader_one_cycle_witness :
  ∃ p2 evs2,
    cycle_loop Example.alg_class 5
      (snd (fst (before_loop Example.alg_class Example.tool_class []
                   More.failing)))
    = Some (p2, [evs2])
    ∧ (∃ st, ev_execute 0 st ∈ evs2)
    ∧ ev_execute 1 SkipToNext ∈ evs2
    ∧ ∀ st, ev_execute 2 st ∉ evs2.
Proof.
  destruct (no_running_reader_one_cycle Example.alg_class Example.tool_class
              4 [] More.failing _ _ eq_refl eq_refl)
    as (p2 & evs2 & r & p3 & evs3 & Hcyc & _ & Hloop & _ & _ & Hcalled
        & _ & Hstop & _).
  exists p2, evs2. split; [exact Hloop|].
  assert (Hveto : ev_execute 1 SkipToNext ∈ evs2).
  { vm_compute in Hcyc. injection Hcyc as _ <-.
    apply list_elem_of_further, list_elem_of_here. }
  split; [|split; [exact Hveto|]].
  - apply (Hcalled 0 (mkNode Example.Logger (Some 1))).
    + reflexivity.
    + reflexivity.
    + intros k Hk. lia.
  - intros st Hin. apply (Hstop 2 st Hin 1); [lia|exact Hveto].
Defined.

(** ** The cycle loop *)

Section LoopFacts.

Context {cls W : Type}.
Context (alg_class : cls → AlgorithmClass cls W).

Implicit Types (p : Pipeline cls W) (algs : list (Node cls)).

Lemma cycle_running p p' evs :
  cycle alg_class p = (p', evs) →
  ∀ r, r ∈ runningReaders p'
       ↔ r ∈ runningReaders p ∧ ev_execute r EndOfFile ∉ evs.
Proof.
  intros Hcyc. apply cycle_unfold in Hcyc as [Hcyc _].
  by apply (cycle_from_running _ _ _ _ _ _ _ _ Hcyc).
Qed.

(** The readers still running after [n] cycles have returned no
    [EndOfFile] in them. *)
Lemma cycles_running n : ∀ p p' cs,
  cycles alg_class n p = (p', cs) →
  ∀ r, r ∈ runningReaders p'
       ↔ r ∈ runningReaders p ∧ ev_execute r EndOfFile ∉ concat cs.
Proof.
  induction n as [|n IHn]; intros p p' cs Hcs r.
  { simpl in Hcs. simplify_eq. simpl. set_solver. }
  simpl in Hcs. destruct (cycle alg_class p) as [p1 evs] eqn:Hcyc.
  destruct (cycles alg_class n p1) as [p2 rest] eqn:Hrec. simplify_eq.
  rewrite (IHn _ _ _ Hrec r), (cycle_running _ _ _ Hcyc r). simpl.
  rewrite not_elem_of_app. tauto.
Qed.

Lemma cycles_add n : ∀ m p,
  cycles alg_class (n + m) p
  = let '(p1, cs1) := cycles alg_class n p in
    let '(p2, cs2) := cycles alg_class m p1 in
    (p2, cs1 ++ cs2).
Proof.
  induction n as [|n IHn]; intros m p; simpl.
  { by destruct (cycles alg_class m p). }
  destruct (cycle alg_class p) as [p1 evs]. rewrite IHn.
  destruct (cycles alg_class n p1) as [p2 cs1].
  by destruct (cycles alg_class m p2).
Qed.

(** The loop, when it is left, has made the cycles of [cycles], at least
    one, and no reader is running. *)
Lemma cycle_loop_cycles fuel : ∀ p p' cs,
  cycle_loop alg_class fuel p = Some (p', cs) →
  runningReaders p' = ∅ ∧ cycles alg_class (length cs) p = (p', cs)
  ∧ 1 ≤ length cs ≤ fuel.
Proof.
  induction fuel as [|fuel IHfuel]; intros p p' cs Hloop; [done|].
  simpl in Hloop. destruct (cycle alg_class p) as [p1 evs] eqn:Hcyc.
  case_bool_decide as Hsize.
  - simplify_eq. simpl. rewrite Hcyc.
    split_and!; [|done|lia|lia]. by apply size_empty_iff, leibniz_equiv in Hsize.
  - destruct (cycle_loop alg_class fuel p1) as [[p2 cs2]|] eqn:Hrec; [|done].
    simplify_eq. destruct (IHfuel _ _ _ Hrec) as (Hempty & Hcs & Hlen).
    simpl. rewrite Hcyc, Hcs. split_and!; [done|done|lia|lia].
Qed.

(** Once no reader is running after [n] cycles, [n] cycles of fuel are
    enough for the loop to be left. *)
Lemma cycles_empty_loop n : ∀ p,
  1 ≤ n → runningReaders (fst (cycles alg_class n p)) = ∅ →
  is_Some (cycle_loop alg_class n p).
Proof.
  induction n as [|n IHn]; intros p Hn Hempty; [lia|].
  simpl in *. destruct (cycle alg_class p) as [p1 evs] eqn:Hcyc.
  case_bool_decide as Hsize; [done|].
  destruct (cycles alg_class n p1) as [p2 rest] eqn:Hrec. simpl in Hempty.
  destruct (IHn p1) as [[p3 cs] Hloop].
  - destruct n as [|n]; [|lia]. simpl in Hrec. simplify_eq.
    rewrite Hempty in Hsize. by rewrite size_empty in Hsize.
  - by rewrite Hrec.
  - by rewrite Hloop.
Qed.

(** A reader that has left the set of running readers stays out of it. *)
Lemma cycles_gone n m p r :
  n ≤ m →
  r ∉ runningReaders (fst (cycles alg_class n p)) →
  r ∉ runningReaders (fst (cycles alg_class m p)).
Proof.
  intros Hle Hgone Hin. apply Hgone.
  replace m with (n + (m - n)) in Hin by lia. rewrite cycles_add in Hin.
  destruct (cycles alg_class n p) as [p1 cs1].
  destruct (cycles alg_class (m - n) p1) as [p2 cs2] eqn:Hrest.
  simpl in *. by apply (cycles_running _ _ _ _ Hrest).
Qed.

(** The cycle loop is left iff each running reader returns [EndOfFile]
    in some cycle. *)
Lemma loop_terminates_iff p :
  loop_terminates alg_class p
  ↔ ∀ r, r ∈ runningReaders p → returns_EndOfFile alg_class r p.
Proof.
  split.
  - intros [fuel [[p' cs] Hloop]] r Hr.
    apply cycle_loop_cycles in Hloop as (Hempty & Hcs & _).
    exists (length cs). rewrite Hcs. simpl.
    destruct (decide (ev_execute r EndOfFile ∈ concat cs)) as [|Hnot]; [done|].
    assert (r ∈ runningReaders p') as Hin
      by by apply (cycles_running _ _ _ _ Hcs).
    rewrite Hempty in Hin. set_solver.
  - intros Hall.
    assert (Hgone : ∀ X : gset nat, X ⊆ runningReaders p →
      ∃ n, ∀ r, r ∈ X → r ∉ runningReaders (fst (cycles alg_class n p))).
    { intros X. induction X as [|x X Hx IHX] using set_ind_L; intros Hsub.
      - exists 0. set_solver.
      - destruct IHX as [n Hn]; [set_solver|].
        destruct (Hall x) as [nx Hnx]; [set_solver|].
        exists (n `max` nx). intros r Hr.
        apply elem_of_union in Hr as [Hr|Hr].
        + apply elem_of_singleton in Hr as ->.
          apply (cycles_gone nx); [lia|].
          destruct (cycles alg_class nx p) as [p1 cs1] eqn:Hcs. simpl in *.
          rewrite (cycles_running _ _ _ _ Hcs). tauto.
        + apply (cycles_gone n); [lia|]. by apply Hn. }
    destruct (Hgone (runningReaders p)) as [n Hn]; [done|].
    exists (S n). apply cycles_empty_loop; [lia|].
    apply set_eq. intros r. split; [|set_solver]. intros Hr. exfalso.
    assert (r ∈ runningReaders p) as Hrp.
    { destruct (cycles alg_class (S n) p) as [p1 cs1] eqn:Hcs.
      simpl in Hr. by apply (cycles_running _ _ _ _ Hcs) in Hr as [? _]. }
    revert Hr. apply (cycles_gone n); [lia|]. by apply Hn.
Qed.

Lemma readers_from_elem algs : ∀ i r,
  r ∈ readers_from alg_class i algs
  ↔ i ≤ r ∧ ∃ alg, algs !! (r - i) = Some alg
              ∧ isReader (alg_class (dyn_type alg)) = true.
Proof.
  induction algs as [|alg rest IHalgs]; intros i r; simpl.
  { split; [set_solver|]. by intros (_ & alg & ? & _). }
  rewrite elem_of_union, IHalgs. split.
  - intros [Hhere|(Hr & a & Ha & Hread)].
    + destruct (isReader (alg_class (dyn_type alg))) eqn:Hread; [|set_solver].
      apply elem_of_singleton in Hhere as ->. split; [lia|].
      exists alg. by rewrite Nat.sub_diag.
    + split; [lia|]. exists a.
      by replace (r - i) with (S (r - S i)) by lia.
  - intros (Hr & a & Ha & Hread). destruct (decide (r = i)) as [->|Hne].
    + left. rewrite Nat.sub_diag in Ha. simpl in Ha. simplify_eq.
      rewrite Hread. set_solver.
    + right. split; [lia|]. exists a.
      by replace (r - i) with (S (r - S i)) in Ha by lia.
Qed.

Lemma readers_from_app algs1 : ∀ algs2 i,
  readers_from alg_class i (algs1 ++ algs2)
  = readers_from alg_class i algs1
    ∪ readers_from alg_class (i + length algs1) algs2.
Proof.
  induction algs1 as [|alg rest IHalgs]; intros algs2 i; simpl.
  { rewrite Nat.add_0_r. set_solver. }
  rewrite IHalgs. replace (S i + length rest) with (i + S (length rest)) by lia.
  set_solver.
Qed.

(** [makeAlg] and [makeTool] build pipelines whose readers all run. *)
Lemma all_readers_running_empty a (h : W) :
  all_readers_running alg_class (empty_pipeline a h).
Proof. done. Qed.

Lemma all_readers_running_makeAlg T init p :
  all_readers_running alg_class p →
  all_readers_running alg_class (snd (makeAlg alg_class T init p)).
Proof.
  unfold all_readers_running, makeAlg. simpl. intros Hall.
  destruct (isReader (alg_class T)) eqn:Hread; simpl;
    rewrite readers_from_app; simpl; rewrite Hread, Hall; set_solver.
Qed.

Lemma all_readers_running_makeTool T init p :
  all_readers_running alg_class p →
  all_readers_running alg_class (snd (makeTool T init p)).
Proof. done. Qed.

Section CountsDown.

Context (remaining : nat → W → nat).

Local Abbreviation behaves := (counts_down_from alg_class remaining).

(** One pass over readers that count down: the readers with one call
    left leave the set, the others have one call less left. *)
Lemma cycle_from_counts_down algs : ∀ i running h running' h' evs,
  behaves i algs →
  (∀ r, r ∈ running → i ≤ r →
     (∃ alg, algs !! (r - i) = Some alg
        ∧ isReader (alg_class (dyn_type alg)) = true)
     ∧ 1 ≤ remaining r h) →
  cycle_from alg_class i algs running h = (running', h', evs) →
  (∀ r, r ∈ running' ↔ r ∈ running ∧ ¬ (i ≤ r ∧ remaining r h = 1))
  ∧ (∀ r, r ∈ running' → i ≤ r → remaining r h' = remaining r h - 1)
  ∧ (∀ r, r < i → remaining r h' = remaining r h).
Proof.
  induction algs as [|alg rest IHalgs];
    intros i running h running' h' evs Hbeh Hvalid Hcyc.
  { simpl in Hcyc. simplify_eq. split_and!; [|  |done].
    - intros r. split; [|tauto]. intros Hr. split; [done|].
      intros [Hi _]. destruct (Hvalid r Hr Hi) as [(alg & Hl & _) _].
      by rewrite lookup_nil in Hl.
    - intros r Hr Hi. destruct (Hvalid r Hr Hi) as [(alg & Hl & _) _].
      by rewrite lookup_nil in Hl. }
  assert (Hbeh' : behaves (S i) rest).
  { intros k a h0 Hk. replace (S i + k) with (i + S k) by lia.
    by apply (Hbeh (S k) a h0). }
  assert (Hcont : ∀ running1 h1 r2 h2 evs2,
    cycle_from alg_class (S i) rest running1 h1 = (r2, h2, evs2) →
    (∀ j, j ≠ i → remaining j h1 = remaining j h) →
    (∀ r, r ≠ i → (r ∈ running1 ↔ r ∈ running)) →
    (i ∈ running1 ↔ i ∈ running ∧ remaining i h ≠ 1) →
    (i ∈ running1 → remaining i h1 = remaining i h - 1) →
    (∀ r, r ∈ r2 ↔ r ∈ running ∧ ¬ (i ≤ r ∧ remaining r h = 1))
    ∧ (∀ r, r ∈ r2 → i ≤ r → remaining r h2 = remaining r h - 1)
    ∧ (∀ r, r < i → remaining r h2 = remaining r h)).
  { intros running1 h1 r2 h2 evs2 Hrec Hframe Hothers Hi Hi1.
    destruct (IHalgs (S i) running1 h1 r2 h2 evs2 Hbeh') as (H1 & H2 & H3);
      [|done|].
    { intros r Hr Hle. assert (r ≠ i) as Hne by lia.
      destruct (Hvalid r) as [(a & Ha & Hread) Hrem].
      - by apply Hothers.
      - lia.
      - split.
        + exists a. by replace (r - i) with (S (r - S i)) in Ha by lia.
        + by rewrite Hframe. }
    split_and!.
    - intros r. rewrite H1. destruct (decide (r = i)) as [->|Hne].
      + rewrite Hi. intuition lia.
      + rewrite (Hothers r Hne), (Hframe r Hne). intuition lia.
    - intros r Hr Hle. destruct (decide (r = i)) as [->|Hne].
      + rewrite H3 by lia. apply Hi1. apply H1 in Hr. tauto.
      + rewrite H2 by (done || lia). by rewrite Hframe.
    - intros r Hr. rewrite H3 by lia. apply Hframe. lia. }
  simpl in Hcyc.
  destruct (isReader (alg_class (dyn_type alg))
            && bool_decide (i ∉ running)) eqn:Hcalled.
  { apply andb_true_iff in Hcalled as [Hread Hout].
    apply bool_decide_eq_true in Hout.
    apply (Hcont _ _ _ _ _ Hcyc); [done|done|tauto|done]. }
  apply called_iff in Hcalled.
  destruct (Hbeh 0 alg h eq_refl) as (Hnoskip & Hframe & Hreader).
  rewrite Nat.add_0_r in Hnoskip, Hframe, Hreader.
  assert (Hhere : i ∈ running →
            isReader (alg_class (dyn_type alg)) = true
            ∧ 1 ≤ remaining i h).
  { intros Hin. destruct (Hvalid i Hin) as [(a & Ha & Hread) Hrem]; [lia|].
    rewrite Nat.sub_diag in Ha. simpl in Ha. by simplify_eq. }
  destruct (execute (alg_class (dyn_type alg)) i h) as [st h1] eqn:Hexec.
  simpl in Hnoskip, Hframe, Hreader.
  destruct st; [|done|].
  - destruct (cycle_from alg_class (S i) rest running h1)
      as [[r2 h2] evs2] eqn:Hrec.
    simplify_eq. apply (Hcont _ _ _ _ _ Hrec); [done|done| |].
    + split; [|tauto]. intros Hin. split; [done|].
      destruct (Hhere Hin) as [Hread _].
      destruct (Hreader Hread) as [Heof _]. intros Hone.
      by specialize (Heof Hone).
    + intros Hin. destruct (Hhere Hin) as [Hread Hrem].
      destruct (Hreader Hread) as [Heof Hcontinue].
      destruct (decide (remaining i h = 1)) as [Hone|Hmore].
      * by specialize (Heof Hone).
      * apply Hcontinue. lia.
  - destruct (cycle_from alg_class (S i) rest (running ∖ {[i]}) h1)
      as [[r2 h2] evs2] eqn:Hrec.
    simplify_eq. apply (Hcont _ _ _ _ _ Hrec); [done| | |].
    + intros r Hne. set_solver.
    + split; [set_solver|]. intros [Hin Hnot].
      destruct (Hhere Hin) as [Hread Hrem].
      destruct (Hreader Hread) as [_ Hcontinue].
      destruct Hcontinue as [? _]; [lia|done].
    + set_solver.
Qed.

Lemma cycle_counts_down p p' evs :
  counts_down alg_class remaining p →
  runningReaders p ⊆ readers_from alg_class 0 (algVec p) →
  (∀ r, r ∈ runningReaders p → 1 ≤ remaining r (heap p)) →
  cycle alg_class p = (p', evs) →
  algVec p' = algVec p
  ∧ (∀ r, r ∈ runningReaders p'
          ↔ r ∈ runningReaders p ∧ remaining r (heap p) ≠ 1)
  ∧ (∀ r, r ∈ runningReaders p' →
          remaining r (heap p') = remaining r (heap p) - 1).
Proof.
  intros Hbeh Hsub Hrem Hcyc. apply cycle_unfold in Hcyc as [Hcyc Halg].
  assert (Hvalid : ∀ r, r ∈ runningReaders p → 0 ≤ r →
    (∃ alg, algVec p !! (r - 0) = Some alg
       ∧ isReader (alg_class (dyn_type alg)) = true)
    ∧ 1 ≤ remaining r (heap p)).
  { intros r Hr _. split; [|by apply Hrem].
    apply Hsub, readers_from_elem in Hr as [_ Hr]. done. }
  destruct (cycle_from_counts_down _ _ _ _ _ _ _ Hbeh Hvalid Hcyc)
    as (H1 & H2 & _).
  split_and!; [done| |].
  - intros r. rewrite H1. intuition lia.
  - intros r Hr. apply H2; [done|lia].
Qed.

(** Readers that count down, the slowest of which has [K] calls left:
    the loop is left after [K] cycles, not before. *)
Lemma cycle_loop_counts_down K : ∀ p,
  counts_down alg_class remaining p →
  runningReaders p ⊆ readers_from alg_class 0 (algVec p) →
  (∀ r, r ∈ runningReaders p → 1 ≤ remaining r (heap p) ≤ K) →
  (∃ r, r ∈ runningReaders p ∧ remaining r (heap p) = K) →
  ∃ p' cs,
    (∀ fuel, K ≤ fuel → cycle_loop alg_class fuel p = Some (p', cs))
    ∧ length cs = K
    ∧ (∀ fuel, fuel < K → cycle_loop alg_class fuel p = None).
Proof.
  induction K as [|K IHK]; intros p Hbeh Hsub Hrem (rmax & Hmax & HK).
  { specialize (Hrem rmax Hmax). lia. }
  destruct (cycle alg_class p) as [p1 evs] eqn:Hcyc.
  assert (Hone : ∀ r, r ∈ runningReaders p → 1 ≤ remaining r (heap p)).
  { intros r Hr. specialize (Hrem r Hr). lia. }
  destruct (cycle_counts_down _ _ _ Hbeh Hsub Hone Hcyc)
    as (Halg & Hrun & Hdec).
  destruct (decide (K = 0)) as [->|HK0].
  - assert (runningReaders p1 = ∅) as Hempty.
    { apply set_eq. intros r. rewrite Hrun. split; [|set_solver].
      intros [Hr Hne]. specialize (Hrem r Hr). lia. }
    exists p1, [evs]. split_and!; [|done|].
    + intros [|fuel] Hfuel; [lia|]. simpl. by rewrite Hcyc, Hempty.
    + intros fuel Hfuel. by replace fuel with 0 by lia.
  - assert (Hin : rmax ∈ runningReaders p1) by (apply Hrun; split; [done|lia]).
    assert (Hsize : size (runningReaders p1) ≠ 0).
    { intros Hsize. apply size_empty_iff in Hsize. set_solver. }
    destruct (IHK p1) as (p' & cs & Hsome & Hlen & Hnone).
    + unfold counts_down. by rewrite Halg.
    + rewrite Halg. intros r Hr. apply Hrun in Hr as [Hr _]. by apply Hsub.
    + intros r Hr. rewrite (Hdec r Hr). apply Hrun in Hr as [Hr Hne].
      specialize (Hrem r Hr). lia.
    + exists rmax. split; [done|]. rewrite (Hdec rmax Hin). lia.
    + exists p', (evs :: cs). split_and!.
      * intros [|fuel] Hfuel; [lia|]. simpl. rewrite Hcyc.
        rewrite bool_decide_eq_false_2 by done.
        rewrite Hsome by lia. done.
      * simpl. by rewrite Hlen.
      * intros [|fuel] Hfuel; [done|]. simpl. rewrite Hcyc.
        rewrite bool_decide_eq_false_2 by done.
        rewrite Hnone by lia. done.
Qed.

End CountsDown.

Lemma statuses_of_app r (evs1 evs2 : list Event) :
  statuses_of r (evs1 ++ evs2) = statuses_of r evs1 ++ statuses_of r evs2.
Proof. apply omap_app. Qed.

Lemma elem_statuses_of r st (evs : list Event) :
  st ∈ statuses_of r evs ↔ ev_execute r st ∈ evs.
Proof.
  unfold statuses_of. rewrite list_elem_of_omap. split.
  - intros (e & He & Hf). destruct e; try done.
    case_decide; by simplify_eq.
  - intros He. exists (ev_execute r st). split; [done|].
    by rewrite decide_True.
Qed.

Lemma statuses_of_none r (evs : list Event) :
  (∀ st, ev_execute r st ∉ evs) → statuses_of r evs = [].
Proof.
  intros Hno. destruct (statuses_of r evs) as [|st l] eqn:Hst; [done|].
  destruct (Hno st). apply elem_statuses_of. rewrite Hst. apply list_elem_of_here.
Qed.

(** In a pass without [SkipToNext], an algorithm that the loop calls is
    called once, and one that it does not call is not called. *)
Lemma cycle_from_statuses algs i running h running' h' evs r alg :
  cycle_from alg_class i algs running h = (running', h', evs) →
  has_skip evs = false →
  i ≤ r → algs !! (r - i) = Some alg →
  (is_called alg_class running r alg →
   ∃ st, statuses_of r evs = [st])
  ∧ (¬ is_called alg_class running r alg → statuses_of r evs = []).
Proof.
  intros Hcyc Hskip Hr Hl. split.
  - intros Hcalled.
    destruct (cycle_from_called _ _ _ _ _ _ _ _ Hcyc r alg Hr Hl Hcalled)
      as [st Hin].
    { intros k _ Hk. apply not_true_iff_false in Hskip. apply Hskip.
      apply has_skip_elem. by exists k. }
    exists st. apply list_elem_of_split in Hin as (evs1 & evs2 & ->).
    rewrite statuses_of_app. simpl. rewrite decide_True by done.
    rewrite (statuses_of_none r evs2), (statuses_of_none r evs1); [done| |].
    + intros st' Hin. apply list_elem_of_split in Hin as (a & b & ->).
      rewrite <- app_assoc in Hcyc. simpl in Hcyc.
      assert (r < r); [|lia].
      eapply (cycle_from_ordered _ _ _ _ _ _ _ _ Hcyc a r st' _ r st);
        [done|]. apply elem_of_app. right. apply list_elem_of_here.
    + intros st' Hin.
      assert (r < r); [|lia].
      by eapply (cycle_from_ordered _ _ _ _ _ _ _ _ Hcyc evs1 r st evs2 r st').
  - intros Hnot. apply statuses_of_none. intros st Hin.
    destruct (cycle_from_event _ _ _ _ _ _ _ _ Hcyc _ Hin)
      as (j & st' & alg' & [= <- <-] & _ & Hl' & Hc).
    by simplify_eq.
Qed.

(** One cycle without [SkipToNext]: a running reader is called once and
    stays in the set unless it returns [EndOfFile]; a reader that is not
    running is not called. *)
Lemma cycle_statuses p p' evs r :
  cycle alg_class p = (p', evs) →
  has_skip evs = false →
  r ∈ readers_from alg_class 0 (algVec p) →
  (r ∈ runningReaders p →
   ∃ st, statuses_of r evs = [st]
     ∧ (r ∈ runningReaders p' ↔ st ≠ EndOfFile))
  ∧ (r ∉ runningReaders p →
     statuses_of r evs = [] ∧ r ∉ runningReaders p').
Proof.
  intros Hcyc Hskip Hr. pose proof (cycle_running _ _ _ Hcyc r) as Hrun.
  apply cycle_unfold in Hcyc as [Hcyc _].
  apply readers_from_elem in Hr as (Hle & alg & Hl & Hread).
  destruct (cycle_from_statuses _ _ _ _ _ _ _ r alg Hcyc Hskip Hle Hl)
    as [Hcalled Hnot].
  split.
  - intros Hin. destruct Hcalled as [st Hst]; [by right|].
    exists st. split; [done|]. rewrite Hrun, <- elem_statuses_of, Hst.
    rewrite list_elem_of_singleton. intuition congruence.
  - intros Hout. split; [|rewrite Hrun; tauto].
    apply Hnot. intros [?|?]; [congruence|done].
Qed.

Lemma ends_at_length k : 1 ≤ k → length (ends_at k) = k.
Proof.
  intros Hk. unfold ends_at. rewrite length_app, length_replicate. simpl. lia.
Qed.

Lemma ends_at_lookup k n :
  n < k →
  ends_at k !! n = Some (if decide (S n = k) then EndOfFile else Continue).
Proof.
  intros Hn. unfold ends_at. case_decide as Hlast.
  - rewrite lookup_app_r by (rewrite length_replicate; lia).
    rewrite length_replicate. by replace (n - (k - 1)) with 0 by lia.
  - rewrite lookup_app_l by (rewrite length_replicate; lia).
    apply lookup_replicate_2. lia.
Qed.

Lemma cycles_algVec n : ∀ p, algVec (fst (cycles alg_class n p)) = algVec p.
Proof.
  induction n as [|n IHn]; intros p; [done|]. simpl.
  destruct (cycle alg_class p) as [p1 evs] eqn:Hcyc.
  specialize (IHn p1). destruct (cycles alg_class n p1) as [p2 rest].
  simpl in *. apply cycle_unfold in Hcyc as [_ Halg]. congruence.
Qed.

Lemma cycles_snoc n p :
  cycles alg_class (S n) p
  = let '(pn, cs) := cycles alg_class n p in
    let '(p', evs) := cycle alg_class pn in
    (p', cs ++ [evs]).
Proof.
  replace (S n) with (n + 1) by lia. rewrite cycles_add.
  destruct (cycles alg_class n p) as [pn cs]. simpl.
  by destruct (cycle alg_class pn).
Qed.

Lemma run_app n m p :
  concat (snd (cycles alg_class (n + m) p))
  = concat (snd (cycles alg_class n p))
    ++ concat (snd (cycles alg_class m (fst (cycles alg_class n p)))).
Proof.
  rewrite cycles_add. destruct (cycles alg_class n p) as [pn cs]. simpl.
  destruct (cycles alg_class m pn) as [pm cs']. simpl. apply concat_app.
Qed.

(** Readers that end at [k]: after [n] cycles reader [r] has returned the
    first [n] statuses of [ends_at (k r)], and runs iff [n < k r]. *)
Lemma readers_end_at_inv k K p :
  all_readers_running alg_class p →
  readers_end_at alg_class k K p →
  ∀ n, n ≤ K → ∀ r, r ∈ runningReaders p →
    statuses_of r (concat (snd (cycles alg_class n p)))
    = take n (ends_at (k r))
    ∧ (r ∈ runningReaders (fst (cycles alg_class n p)) ↔ n < k r).
Proof.
  intros Hall [Hnoskip Hprefix] n.
  induction n as [|n IHn]; intros Hn r Hr.
  { simpl. destruct (Hprefix r Hr) as [Hk _]. split; [done|].
    split; [lia|done]. }
  destruct (IHn ltac:(lia) r Hr) as [Hst Hrun].
  destruct (Hprefix r Hr) as [Hk Hpre].
  pose proof (run_app (S n) (K - S n) p) as HrunK.
  replace (S n + (K - S n)) with K in HrunK by lia.
  rewrite HrunK in Hnoskip, Hpre. clear HrunK.
  unfold has_skip in Hnoskip. rewrite existsb_app in Hnoskip.
  apply orb_false_iff in Hnoskip as [Hnoskip _].
  rewrite statuses_of_app in Hpre.
  assert (Hpre' : statuses_of r (concat (snd (cycles alg_class (S n) p)))
                  `prefix_of` ends_at (k r)).
  { etrans; [|done]. by apply prefix_app_r. }
  clear Hpre. rewrite cycles_snoc in Hnoskip, Hpre' |- *.
  pose proof (cycles_algVec n p) as Halg.
  destruct (cycles alg_class n p) as [pn cs]. simpl in *.
  destruct (cycle alg_class pn) as [p' evs] eqn:Hcyc. simpl in *.
  rewrite concat_app in Hnoskip, Hpre' |- *. simpl in *.
  rewrite app_nil_r in Hnoskip, Hpre' |- *.
  rewrite existsb_app in Hnoskip.
  apply orb_false_iff in Hnoskip as [_ Hnoskip].
  rewrite statuses_of_app, Hst in Hpre' |- *.
  assert (Hreader : r ∈ readers_from alg_class 0 (algVec pn)).
  { rewrite Halg. by rewrite <- Hall. }
  destruct (cycle_statuses _ _ _ r Hcyc Hnoskip Hreader) as [Hin Hout].
  destruct (decide (n < k r)) as [Hlt|Hge].
  - destruct Hin as (st & Hevs & Hstay); [by apply Hrun|].
    rewrite Hevs in Hpre' |- *.
    pose proof (ends_at_lookup (k r) n Hlt) as Hnth.
    assert (st = if decide (S n = k r) then EndOfFile else Continue) as ->.
    { assert ((take n (ends_at (k r)) ++ [st]) !! n = Some st) as Hlast.
      { rewrite lookup_app_r; rewrite length_take, ends_at_length by lia;
          [|lia]. by replace (n - n `min` k r) with 0 by lia. }
      apply (prefix_lookup_Some _ _ _ _ Hlast) in Hpre'. congruence. }
    split; [by rewrite (take_S_r _ _ _ Hnth)|].
    rewrite Hstay. case_decide; split; (done || lia).
  - destruct Hout as [Hevs Hgone]; [rewrite Hrun; lia|].
    rewrite Hevs, app_nil_r.
    split; [|split; [done|lia]].
    by rewrite !take_ge by (rewrite ends_at_length; lia).
Qed.

Lemma cycle_loop_more_fuel fuel : ∀ fuel' p x,
  cycle_loop alg_class fuel p = Some x → fuel ≤ fuel' →
  cycle_loop alg_class fuel' p = Some x.
Proof.
  induction fuel as [|fuel IHfuel]; intros fuel' p x Hloop Hle; [done|].
  destruct fuel' as [|fuel']; [lia|]. simpl in *.
  destruct (cycle alg_class p) as [p1 evs]. case_bool_decide; [done|].
  destruct (cycle_loop alg_class fuel p1) as [[p2 cs]|] eqn:Hrec; [|done].
  by rewrite (IHfuel fuel' p1 _ Hrec) by lia.
Qed.

(** Readers that end at [k], the last of them at [K]: the loop is left
    after [K] cycles, not before. *)
Lemma cycle_loop_readers_end_at k K p :
  all_readers_running alg_class p →
  readers_end_at alg_class k K p →
  (∀ r, r ∈ runningReaders p → k r ≤ K) →
  (∃ r, r ∈ runningReaders p ∧ k r = K) →
  ∃ p' cs,
    (∀ fuel, K ≤ fuel → cycle_loop alg_class fuel p = Some (p', cs))
    ∧ length cs = K
    ∧ (∀ fuel, fuel < K → cycle_loop alg_class fuel p = None).
Proof.
  intros Hall Hend Hmax (rmax & Hrmax & HK).
  pose proof (readers_end_at_inv k K p Hall Hend) as Hinv.
  assert (HK1 : 1 ≤ K).
  { destruct Hend as [_ Hpre]. destruct (Hpre rmax Hrmax). lia. }
  assert (Hnonempty : ∀ n, n < K →
            runningReaders (fst (cycles alg_class n p)) ≠ ∅).
  { intros n Hn Hempty.
    destruct (Hinv n ltac:(lia) rmax Hrmax) as [_ Hrun].
    assert (rmax ∈ runningReaders (fst (cycles alg_class n p))) as Hin
      by (apply Hrun; lia).
    rewrite Hempty in Hin. set_solver. }
  assert (Hempty : runningReaders (fst (cycles alg_class K p)) = ∅).
  { apply set_eq. intros r. split; [|set_solver]. intros Hr. exfalso.
    assert (r ∈ runningReaders p) as Hrp.
    { destruct (cycles alg_class K p) as [pK cs] eqn:Hcs. simpl in Hr.
      by apply (cycles_running _ _ _ _ Hcs) in Hr as [? _]. }
    destruct (Hinv K ltac:(lia) r Hrp) as [_ Hrun].
    apply Hrun in Hr. specialize (Hmax r Hrp). lia. }
  assert (Hleft : ∀ fuel p' cs,
            cycle_loop alg_class fuel p = Some (p', cs) → K ≤ length cs ≤ fuel).
  { intros fuel p' cs Hloop.
    apply cycle_loop_cycles in Hloop as (Hnone & Hcs & Hlen).
    split; [|lia]. destruct (decide (K ≤ length cs)) as [|Hlt]; [done|].
    destruct (Hnonempty (length cs)); [lia|]. by rewrite Hcs. }
  destruct (cycles_empty_loop K p HK1 Hempty) as [[p' cs] Hloop].
  exists p', cs. split_and!.
  - intros fuel Hfuel. by apply (cycle_loop_more_fuel K).
  - pose proof (Hleft _ _ _ Hloop). lia.
  - intros fuel Hfuel.
    destruct (cycle_loop alg_class fuel p) as [[p'' cs'']|] eqn:Hloop'; [|done].
    pose proof (Hleft _ _ _ Hloop'). lia.
Qed.

(** C2. In a pipeline whose readers all run, let reader [r] return
    [Continue] on its first [k r - 1] calls and [EndOfFile] on call [k r],
    let no algorithm return [SkipToNext], and let [K] be the largest
    [k r]. Then the cycle loop is left after [K] cycles: [K] cycles of
    fuel, or more, give the [K] cycles it has made, and less fuel is not
    enough. In general the cycle loop is left iff each running reader,
    which is each registered reader when all run, returns [EndOfFile] in
    some cycle of the run. *)
Theorem cycle_loop_readers p :
  (∀ (k : nat → nat) (K : nat),
     all_readers_running alg_class p →
     readers_end_at alg_class k K p →
     (∀ r, r ∈ runningReaders p → k r ≤ K) →
     (∃ r, r ∈ runningReaders p ∧ k r = K) →
     ∃ p' cs,
       (∀ fuel, K ≤ fuel → cycle_loop alg_class fuel p = Some (p', cs))
       ∧ length cs = K
       ∧ (∀ fuel, fuel < K → cycle_loop alg_class fuel p = None))
  ∧ (loop_terminates alg_class p
     ↔ ∀ r, r ∈ runningReaders p → returns_EndOfFile alg_class r p)
  ∧ (all_readers_running alg_class p →
     (loop_terminates alg_class p
      ↔ ∀ r alg, algVec p !! r = Some alg →
          isReader (alg_class (dyn_type alg)) = true →
          returns_EndOfFile alg_class r p)).
Proof.
  split_and!.
  - intros k K. apply cycle_loop_readers_end_at.
  - apply loop_terminates_iff.
  - intros Hall. rewrite loop_terminates_iff, Hall. split.
    + intros Hret r alg Hl Hread. apply Hret, readers_from_elem.
      split; [lia|]. exists alg. by rewrite Nat.sub_0_r.
    + intros Hret r Hr.
      apply readers_from_elem in Hr as (_ & alg & Hl & Hread).
      rewrite Nat.sub_0_r in Hl. by apply (Hret r alg).
Qed.

End LoopFacts.

(** The readers of [MockReader(2); Logger; MockReader(3)] count down. *)
Lemma two_readers_count_down :
  counts_down Example.alg_class Example.counter Example.two_readers.
Proof.
  intros k alg h Hk. simpl plus.
  destruct k as [|[|[|k]]]; simpl in Hk; simplify_eq; simpl;
    unfold Example.MockReader_execute, Example.Logger_execute, Example.counter.
  - destruct (h !! 0) as [[|[|n]]|] eqn:Hh; simpl;
      repeat first [ done | lia | progress intros | split
                   | rewrite lookup_insert_ne by done
                   | rewrite lookup_insert_eq ].
  - repeat first [ done | lia | progress intros | split
                 | rewrite lookup_insert_ne by done ].
  - destruct (h !! 2) as [[|[|n]]|] eqn:Hh; simpl;
      repeat first [ done | lia | progress intros | split
                   | rewrite lookup_insert_ne by done
                   | rewrite lookup_insert_eq ].
Qed.

(** The same, from the code of the readers: the loop is left after three
    cycles. *)
Lemma two_readers_three_cycles :
  ∃ p' cs,
    cycle_loop Example.alg_class 3 Example.two_readers = Some (p', cs)
    ∧ length cs = 3.
Proof.
  destruct (cycle_loop_counts_down Example.alg_class Example.counter 3
              Example.two_readers two_readers_count_down)
    as (p' & cs & Hsome & Hlen & _).
  - done.
  - intros r Hr.
    change (runningReaders Example.two_readers)
      with ({[2]} ∪ ({[0]} ∪ ∅) : gset nat) in Hr.
    assert (r = 0 ∨ r = 2) as [-> | ->] by set_solver; vm_compute; lia.
  - exists 2. split; [|reflexivity]. vm_compute. reflexivity.
  - exists p', cs. split; [by apply Hsome|done].
Qed.

(** With readers that end at their calls 2 and 3, the loop is left after
    three cycles. *)
Lemma cycle_loop_readers_witness :
  ∃ p' cs,
    (∀ fuel, 3 ≤ fuel →
       cycle_loop Example.alg_class fuel Example.two_readers = Some (p', cs))
    ∧ length cs = 3
    ∧ (∀ fuel, fuel < 3 →
         cycle_loop Example.alg_class fuel Example.two_readers = None).
Proof.
  destruct (cycle_loop_readers Example.alg_class Example.two_readers)
    as [Hcount _].
  apply (Hcount (fun r => Example.counter r (heap Example.two_readers)) 3).
  - reflexivity.
  - split; [reflexivity|]. intros r Hr.
    change (runningReaders Example.two_readers)
      with ({[2]} ∪ ({[0]} ∪ ∅) : gset nat) in Hr.
    apply elem_of_union in Hr as [Hr|Hr].
    + apply elem_of_singleton in Hr. subst r. split; [vm_compute; lia|].
      exists []. vm_compute. reflexivity.
    + apply elem_of_union in Hr as [Hr|Hr].
      * apply elem_of_singleton in Hr. subst r. split; [vm_compute; lia|].
        exists []. vm_compute. reflexivity.
      * apply elem_of_empty in Hr. destruct Hr.
  - intros r Hr.
    change (runningReaders Example.two_readers)
      with ({[2]} ∪ ({[0]} ∪ ∅) : gset nat) in Hr.
    apply elem_of_union in Hr as [Hr|Hr].
    + apply elem_of_singleton in Hr. subst r. vm_compute. lia.
    + apply elem_of_union in Hr as [Hr|Hr].
      * apply elem_of_singleton in Hr. subst r. vm_compute. lia.
      * apply elem_of_empty in Hr. destruct Hr.
  - exists 2. split; [|reflexivity]. vm_compute. reflexivity.
Defined.

(** ** An exception in the connect phase *)

Section ConnectThrows.

Context {cls W : Type}.
Context (alg_class : cls → AlgorithmClass cls W).
Context (tool_class : cls → ToolClass cls W).

Implicit Types (p q : Pipeline cls W) (algs : list (Node cls)).

Lemma dyn_types_do_connect a (v : list (Node cls)) i alg m :
  v !! i = Some m → dyn_type m = dyn_type alg →
  dyn_type <$> <[i := Node_do_connect a alg]> v = dyn_type <$> v.
Proof.
  intros Hm Hd. rewrite list_fmap_insert. apply list_insert_id.
  rewrite list_lookup_fmap, Hm. simpl. by rewrite Hd.
Qed.

(** The connect loop throws when the [connect] of one of its algorithms
    does, in any pipeline with these algorithms. *)
Lemma connect_algs_from_throws algs : ∀ i p k alg,
  rest_of i algs (algVec p) → algs !! k = Some alg →
  (∀ q, dyn_type <$> algVec q = dyn_type <$> algVec p →
        ∃ e, fst (connect (alg_class (dyn_type alg)) (i + k) q) = Throw e) →
  ∃ e p' evs, connect_algs_from alg_class i algs p = (Throw e, p', evs).
Proof.
  induction algs as [|alg0 rest IHalgs]; intros i p k alg Hrest Hk Hthrow.
  { by rewrite lookup_nil in Hk. }
  apply (rest_of_next (this p)) in Hrest as [(m & Hm & Hd) Hrest].
  pose proof (dyn_types_do_connect (this p) _ _ _ _ Hm Hd) as Htypes.
  simpl.
  set (p1 := set_algVec (<[i:=Node_do_connect (this p) alg0]> (algVec p)) p).
  destruct (connect (alg_class (dyn_type alg0)) i p1) as [[[]|e] h] eqn:Hcon;
    [|by eexists _, _, _].
  destruct k as [|k].
  - simpl in Hk. simplify_eq. destruct (Hthrow p1 Htypes) as [e He].
    rewrite Nat.add_0_r, Hcon in He. done.
  - destruct (IHalgs (S i) (set_heap h p1) k alg Hrest Hk)
      as (e & p' & evs & Hrec).
    + intros q Hq. replace (S i + k) with (i + S k) by lia.
      apply Hthrow. by rewrite Hq.
    + rewrite Hrec. by eexists _, _, _.
Qed.

(** [process] ends with the exception of its connect phase, before any
    [execute]. *)
Lemma process_connect_throws fuel inFiles p i alg :
  algVec p !! i = Some alg →
  (∀ q, dyn_type <$> algVec q = dyn_type <$> algVec p →
        ∃ e, fst (connect (alg_class (dyn_type alg)) i q) = Throw e) →
  ∃ e p' evs,
    process alg_class tool_class fuel inFiles p = Some (Throw e, p', evs)
    ∧ ∀ j st, ev_execute j st ∉ evs.
Proof.
  intros Hi Hthrow. unfold process.
  destruct (before_loop alg_class tool_class inFiles p)
    as [[r p1] evs] eqn:Hbefore.
  pose proof (before_loop_spec _ _ _ _ _ _ _ Hbefore)
    as (_ & _ & _ & _ & _ & _ & Hnone).
  destruct r as [[]|e]; [exfalso|by eexists _, _, _].
  unfold before_loop in Hbefore.
  destruct (load_from alg_class inFiles 0 _ _) as [h1 evs1].
  simpl in Hbefore.
  set (p0 := set_heap h1 (set_inFilePaths inFiles p)) in Hbefore.
  destruct (connect_algs_from_throws (algVec p) 0 p0 i alg)
    as (e & p' & evs2 & Hcon); [apply rest_of_all|done|done|].
  change (algVec p0) with (algVec p) in Hbefore. by rewrite Hcon in Hbefore.
Qed.

End ConnectThrows.

(** ** [SimpleAlg] *)

Section SimpleAlgFacts.

Context {cls : Type} (derives : cls → cls → bool) (type_name : cls → string).
Context {U Data : Type} (ReaderT : cls).
Context (ready : nat → SimpleHeap U → bool).
Context (data : nat → SimpleHeap U → Data).
Context (consume : nat → Data → SimpleHeap U → Status * SimpleHeap U).

Implicit Types (pipeline : Pipeline cls (SimpleHeap U)) (h : SimpleHeap U).

Local Abbreviation connect_ := (SimpleAlg_connect derives type_name ReaderT).
Local Abbreviation execute_ := (SimpleAlg_execute ready data consume).

Lemma SimpleAlg_connect_found self pipeline k :
  first_of_type derives ReaderT (algVec pipeline) k →
  connect_ self pipeline
  = (Return (),
     mkSimpleHeap (<[self := k]> (reader (heap pipeline)))
                  (others (heap pipeline))).
Proof.
  intros Hfirst. unfold SimpleAlg_connect, getAlg, getThing.
  by rewrite (getThing_from_first derives type_name ReaderT _ 0 k Hfirst).
Qed.

Lemma SimpleAlg_connect_not_found self pipeline :
  (∀ alg, alg ∈ algVec pipeline → derives (dyn_type alg) ReaderT = false) →
  connect_ self pipeline
  = (Throw (couldnt_find (type_name ReaderT)), heap pipeline).
Proof.
  intros Hnone. unfold SimpleAlg_connect, getAlg, getThing.
  rewrite getThing_from_no_match; [done|].
  intros k thing Hk Ht. rewrite Hnone in Ht; [done|].
  apply list_elem_of_lookup. by exists k.
Qed.

(** C8, as the code has it. [connect] binds [reader] to the first
    registered algorithm that casts to [ReaderT]; when there is none it
    throws "getThing() couldn't find <ReaderT>" itself and leaves [reader]
    as it was, and a [process] whose algorithms include the adapter ends
    with an exception of its connect phase, without any [execute]. An
    [execute] with [reader] still null dereferences the null pointer. With
    [reader] bound, [execute] returns what [consume] returns on the data
    of the reader, and leaves what [consume] leaves, when the reader is
    ready; otherwise it returns [Continue] and changes nothing, whatever
    [consume] is. *)
Theorem SimpleAlg_spec self pipeline :
  (∀ k, first_of_type derives ReaderT (algVec pipeline) k →
     ∃ h', connect_ self pipeline = (Return (), h')
       ∧ reader h' !! self = Some k
       ∧ others h' = others (heap pipeline))
  ∧ ((∀ alg, alg ∈ algVec pipeline → derives (dyn_type alg) ReaderT = false) →
     connect_ self pipeline
     = (Throw (couldnt_find (type_name ReaderT)), heap pipeline))
  ∧ (∀ alg_class tool_class fuel inFiles i alg,
       algVec pipeline !! i = Some alg →
       connect (alg_class (dyn_type alg)) = connect_ →
       (∀ a, a ∈ algVec pipeline → derives (dyn_type a) ReaderT = false) →
       ∃ e p' evs,
         process alg_class tool_class fuel inFiles pipeline
         = Some (Throw e, p', evs)
         ∧ ∀ j st, ev_execute j st ∉ evs)
  ∧ (∀ h, reader h !! self = None →
       execute_ self h = (Throw null_dereference, h))
  ∧ (∀ h r, reader h !! self = Some r →
       (ready r h = true →
          execute_ self h
          = (Return (fst (consume self (data r h) h)),
             snd (consume self (data r h) h)))
       ∧ (ready r h = false → execute_ self h = (Return Continue, h))).
Proof.
  split_and!.
  - intros k Hfirst. eexists. split; [by apply SimpleAlg_connect_found|].
    simpl. by rewrite lookup_insert_eq.
  - apply SimpleAlg_connect_not_found.
  - intros alg_class tool_class fuel inFiles i alg Hi Hcon Hnone.
    apply (process_connect_throws _ _ _ _ _ i alg Hi).
    intros q Hq. rewrite Hcon. eexists.
    rewrite SimpleAlg_connect_not_found; [done|].
    intros a Ha. apply list_elem_of_lookup in Ha as [j Hj].
    assert (dyn_type <$> algVec pipeline !! j = Some (dyn_type a)) as Hty.
    { by rewrite <- list_lookup_fmap, <- Hq, list_lookup_fmap, Hj. }
    destruct (algVec pipeline !! j) as [a'|] eqn:Hj'; [|done].
    simpl in Hty. injection Hty as <-. apply Hnone.
    apply list_elem_of_lookup. by exists j.
  - intros h Hnull. unfold SimpleAlg_execute. by rewrite Hnull.
  - intros h r Hr. unfold SimpleAlg_execute. rewrite Hr.
    split; intros ->; [|done]. by destruct (consume self (data r h) h).
Qed.

End SimpleAlgFacts.

(** An adapter to [MockReader] in a pipeline without a [MockReader]: its
    [connect] does not return. *)
Lemma SimpleAlg_connect_throws_without_reader :
  SimpleAlg_connect Example.derives Example.type_name Example.MockReader 0
    Example.lone_adapter
  = (Throw (couldnt_find "10MockReader"), heap Example.lone_adapter)
  ∧ ¬ ∃ h', SimpleAlg_connect Example.derives Example.type_name
              Example.MockReader 0 Example.lone_adapter
            = (Return (), h').
Proof. split; [reflexivity|]. intros [h' Hret]. discriminate Hret. Qed.

(** The same adapter through the theorem; an adapter that finds the reader
    at position 2; and an [execute] with a reader that is ready. *)
Lemma SimpleAlg_spec_witness :
  SimpleAlg_connect Example.derives Example.type_name Example.MockReader 0
    Example.lone_adapter
  = (Throw (couldnt_find "10MockReader"), heap Example.lone_adapter)
  ∧ (∃ h', SimpleAlg_connect Example.derives Example.type_name
             Example.MockReader 0 Example.adapter_and_reader
           = (Return (), h')
       ∧ reader h' !! 0 = Some 2)
  ∧ SimpleAlg_execute (fun _ _ => true) (fun _ _ => 5)
      (fun _ d h => (vetoIf (d =? 4), h)) 0 (mkSimpleHeap {[0 := 2]} ())
    = (Return Continue, mkSimpleHeap {[0 := 2]} ()).
Proof.
  split; [|split].
  - apply (SimpleAlg_spec Example.derives Example.type_name Example.MockReader
             (fun _ _ => true) (fun _ _ => 5)
             (fun _ d h => (vetoIf (d =? 4), h)) 0 Example.lone_adapter).
    intros alg Hin. apply list_elem_of_singleton in Hin. subst alg. reflexivity.
  - destruct (SimpleAlg_spec Example.derives Example.type_name
             Example.MockReader (fun _ _ => true) (fun _ _ => 5)
             (fun _ d h => (vetoIf (d =? 4), h)) 0 Example.adapter_and_reader)
      as [Hfound _].
    destruct (Hfound 2) as (h' & Hcon & Hreader & _).
    + split; [exists (mkNode Example.MockReader None); split; reflexivity|].
      intros [|[|j]] thing Hj Hl; simpl in Hl; [| |lia];
        injection Hl as <-; reflexivity.
    + exists h'. split; [exact Hcon|exact Hreader].
  - destruct (SimpleAlg_spec Example.derives Example.type_name
             Example.MockReader (fun _ _ => true) (fun _ _ => 5)
             (fun _ d h => (vetoIf (d =? 4), h)) 0 Example.adapter_and_reader)
      as (_ & _ & _ & _ & Hexec).
    destruct (Hexec (mkSimpleHeap {[0 := 2]} ()) 2) as [Hready _].
    + vm_compute. reflexivity.
    + exact (Hready eq_refl).
Defined.

(** * More properties of the code *)

(** ** The registry *)

Section RegistryFacts.

Context {cls : Type} (derives : cls → cls → bool) (type_name : cls → string).
Context {W : Type}.
Context (alg_class : cls → AlgorithmClass cls W).

Implicit Types (vec : list (Node cls)) (pred : Pred cls) (p : Pipeline cls W).

(** What the scan returns, from position [i] on: the first component that
    casts to [T] and that the predicate accepts, every component before it
    that casts to [T] having been rejected. *)
Lemma getThing_from_Return_iff T pred vec : ∀ i r,
  getThing_from derives type_name T pred i vec = Return r
  ↔ ∃ k thing, r = i + k ∧ vec !! k = Some thing
      ∧ derives (dyn_type thing) T = true ∧ accepts pred r thing
      ∧ ∀ j t, j < k → vec !! j = Some t → derives (dyn_type t) T = true →
          rejects pred (i + j) t.
Proof.
  induction vec as [|thing rest IHvec]; intros i r.
  { simpl. split; [done|]. intros (k & t & _ & Hk & _). by destruct k. }
  assert (Hshift :
    (∃ k t, r = S i + k ∧ rest !! k = Some t
       ∧ derives (dyn_type t) T = true ∧ accepts pred r t
       ∧ ∀ j t', j < k → rest !! j = Some t' →
           derives (dyn_type t') T = true → rejects pred (S i + j) t')
    → (derives (dyn_type thing) T = true → rejects pred i thing)
    → ∃ k t, r = i + k ∧ (thing :: rest) !! k = Some t
        ∧ derives (dyn_type t) T = true ∧ accepts pred r t
        ∧ ∀ j t', j < k → (thing :: rest) !! j = Some t' →
            derives (dyn_type t') T = true → rejects pred (i + j) t').
  { intros (k & t & -> & Hk & Ht & Hacc & Hbefore) Hhead.
    exists (S k), t. split; [lia|]. split; [done|]. split; [done|].
    split; [done|]. intros [|j] t' Hj Hl Hd; simpl in Hl.
    - simplify_eq. rewrite Nat.add_0_r. by apply Hhead.
    - replace (i + S j) with (S i + j) by lia. apply Hbefore; [lia|done|done]. }
  assert (Hunshift :
    (∃ k t, r = i + k ∧ (thing :: rest) !! k = Some t
       ∧ derives (dyn_type t) T = true ∧ accepts pred r t
       ∧ ∀ j t', j < k → (thing :: rest) !! j = Some t' →
           derives (dyn_type t') T = true → rejects pred (i + j) t')
    → (derives (dyn_type thing) T = true → ¬ accepts pred i thing)
    → ∃ k t, r = S i + k ∧ rest !! k = Some t
        ∧ derives (dyn_type t) T = true ∧ accepts pred r t
        ∧ ∀ j t', j < k → rest !! j = Some t' →
            derives (dyn_type t') T = true → rejects pred (S i + j) t').
  { intros (k & t & -> & Hk & Ht & Hacc & Hbefore) Hhead.
    destruct k as [|k]; simpl in Hk.
    - simplify_eq. rewrite Nat.add_0_r in Hacc. by destruct (Hhead Ht).
    - exists k, t. split; [lia|]. split; [done|]. split; [done|].
      split; [done|]. intros j t' Hj Hl Hd.
      replace (S i + j) with (i + S j) by lia. apply Hbefore; [lia|done|done]. }
  assert (Hhere :
    accepts pred i thing → derives (dyn_type thing) T = true →
    (Return i = Return r :> result nat)
    ↔ ∃ k t, r = i + k ∧ (thing :: rest) !! k = Some t
        ∧ derives (dyn_type t) T = true ∧ accepts pred r t
        ∧ ∀ j t', j < k → (thing :: rest) !! j = Some t' →
            derives (dyn_type t') T = true → rejects pred (i + j) t').
  { intros Hacc Hd. split.
    - intros [= <-]. exists 0, thing. rewrite Nat.add_0_r.
      split_and!; try done. intros j t' Hj. lia.
    - intros (k & t & -> & Hk & Ht & _ & Hbefore). destruct k as [|k].
      + by rewrite Nat.add_0_r.
      + destruct (Hbefore 0 thing) as (f & Hf & Hrej); [lia|done|done|].
        rewrite Nat.add_0_r in Hrej. unfold accepts in Hacc.
        rewrite Hf in Hacc. congruence. }
  simpl. destruct (derives (dyn_type thing) T) eqn:Hd.
  - destruct pred as [f|].
    + destruct (f i thing) as [[|]|e] eqn:Hf.
      * by apply Hhere.
      * rewrite IHvec. split.
        -- intros H. apply Hshift; [done|]. intros _. by exists f.
        -- intros H. apply Hunshift; [done|]. intros _. unfold accepts.
           congruence.
      * split; [done|]. intros (k & t & -> & Hk & Ht & Hacc & Hbefore).
        destruct k as [|k]; simpl in Hk.
        -- simplify_eq. rewrite Nat.add_0_r in Hacc. simpl in Hacc. congruence.
        -- destruct (Hbefore 0 thing) as (f' & [= <-] & Hrej); [lia|done|done|].
           rewrite Nat.add_0_r in Hrej. congruence.
    + by apply Hhere.
  - rewrite IHvec. split.
    + intros H. apply Hshift; [done|]. congruence.
    + intros H. apply Hunshift; [done|]. congruence.
Qed.

(** [getThing] never looks past a match: a longer vector gives the same
    component. *)
Lemma getThing_from_app T pred vec more : ∀ i k,
  getThing_from derives type_name T pred i vec = Return k →
  getThing_from derives type_name T pred i (vec ++ more) = Return k.
Proof.
  induction vec as [|thing rest IHvec]; intros i k; simpl; [done|].
  destruct (derives (dyn_type thing) T); [|by apply IHvec].
  destruct pred as [f|]; [|done].
  destruct (f i thing) as [[|]|e]; [done|by apply IHvec|done].
Qed.

(** X1. [getAlg<T>(pred)] and [getTool<T>(pred)] return position [k]
    exactly when the component at [k] casts to [T] and is accepted by the
    predicate, if there is one, and each component before [k] that casts to
    [T] has been rejected by the predicate with [false]: the first match
    wins, and a predicate that throws on an earlier candidate lets no later
    one through. *)
Theorem getThing_Return_iff T vec pred k :
  getThing derives type_name T vec pred = Return k
  ↔ ∃ thing, vec !! k = Some thing
      ∧ derives (dyn_type thing) T = true ∧ accepts pred k thing
      ∧ ∀ j t, j < k → vec !! j = Some t → derives (dyn_type t) T = true →
          rejects pred j t.
Proof.
  unfold getThing. rewrite getThing_from_Return_iff. split.
  - intros (k' & thing & -> & Hrest). by exists thing.
  - intros (thing & Hrest). by exists k, thing.
Qed.

(** X2. The lookup of an algorithm by tag returns an algorithm that casts
    to [T] and whose [getTag] is the tag, converted to [int]; it returns the
    algorithm at [k] when that one casts to [T] and has the tag and the
    algorithms before it that cast to [T] have other tags. A tag in the
    range of [int] is compared as it is. *)
Theorem getAlg_tag_spec T tag p k :
  (getAlg_tag derives type_name alg_class T tag p = Return k →
   ∃ alg f, algVec p !! k = Some alg ∧ derives (dyn_type alg) T = true
     ∧ getTag (alg_class (dyn_type alg)) = Some f
     ∧ f k (heap p) = to_int tag)
  ∧ (∀ alg f, algVec p !! k = Some alg → derives (dyn_type alg) T = true →
       getTag (alg_class (dyn_type alg)) = Some f →
       f k (heap p) = to_int tag →
       (∀ j a, j < k → algVec p !! j = Some a →
          derives (dyn_type a) T = true →
          ∃ g, getTag (alg_class (dyn_type a)) = Some g
            ∧ g j (heap p) ≠ to_int tag) →
       getAlg_tag derives type_name alg_class T tag p = Return k)
  ∧ ((-2147483648 ≤ tag < 2147483648)%Z → to_int tag = tag).
Proof.
  unfold getAlg_tag, getThing_tag. split_and!.
  - intros Hget. apply getThing_from_Return_iff in Hget
      as (k' & alg & -> & Hk & Hd & Hacc & _).
    simpl in Hacc. unfold Algorithm_getTag in Hacc.
    destruct (getTag (alg_class (dyn_type alg))) as [f|] eqn:Hf; [|done].
    exists alg, f. split_and!; try done.
    injection Hacc as Hacc. by apply bool_decide_eq_true in Hacc.
  - intros alg f Hk Hd Hf Htag Hbefore. apply getThing_from_Return_iff.
    exists k, alg. split_and!; try done.
    + simpl. unfold Algorithm_getTag. rewrite Hf.
      by rewrite bool_decide_eq_true_2.
    + intros j a Hj Hl Ha. destruct (Hbefore j a Hj Hl Ha) as (g & Hg & Hne).
      eexists. split; [done|]. simpl. unfold Algorithm_getTag. rewrite Hg.
      by rewrite bool_decide_eq_false_2.
  - intros Hrange. unfold to_int.
    rewrite Z.mod_small by lia. lia.
Qed.

(** X3. After [makeAlg<T'>()], [getAlg<T>()] for a [T] that [T'] casts to
    returns a component: the first algorithm that was registered before and
    casts to [T], or else the new one; and so for [makeTool] and
    [getTool]. *)
Theorem register_then_lookup T' T init p :
  derives T' T = true →
  (∃ k, getAlg derives type_name T None (snd (makeAlg alg_class T' init p))
        = Return k
     ∧ (first_of_type derives T (algVec p) k
        ∨ (k = fst (makeAlg alg_class T' init p)
           ∧ ∀ alg, alg ∈ algVec p → derives (dyn_type alg) T = false)))
  ∧ (∃ k, getTool derives type_name T None (snd (makeTool T' init p))
          = Return k
     ∧ (first_of_type derives T (toolVec p) k
        ∨ (k = fst (makeTool T' init p)
           ∧ ∀ tool, tool ∈ toolVec p → derives (dyn_type tool) T = false))).
Proof.
  intros Hd.
  assert (Hvec : ∀ vec,
    ∃ k, getThing derives type_name T (vec ++ [mkNode T' None]) None = Return k
      ∧ (first_of_type derives T vec k
         ∨ (k = length vec
            ∧ ∀ thing, thing ∈ vec → derives (dyn_type thing) T = false))).
  { intros vec.
    destruct (decide (Exists (fun t => derives (dyn_type t) T = true) vec))
      as [Hex|Hno].
    - apply Exists_exists in Hex as (t & Hin & Ht).
      apply list_elem_of_lookup in Hin as [k0 Hk0].
      destruct (first_of_type_exists derives T vec) as [k Hk];
        [by exists k0, t|].
      exists k. split; [|by left]. unfold getThing.
      apply getThing_from_app.
      by rewrite (getThing_from_first derives type_name T vec 0 k Hk).
    - assert (Hnone : ∀ thing, thing ∈ vec → derives (dyn_type thing) T = false).
      { intros thing Hin. apply not_true_iff_false. intros Ht. apply Hno.
        apply Exists_exists. by exists thing. }
      exists (length vec). split; [|by right]. unfold getThing.
      rewrite (getThing_from_first derives type_name T _ 0 (length vec));
        [done|].
      split.
      + exists (mkNode T' None). split; [|done].
        by rewrite lookup_app_r, Nat.sub_diag.
      + intros j thing Hj Hl. rewrite lookup_app_l in Hl by done.
        apply Hnone. apply list_elem_of_lookup. by exists j. }
  split.
  - destruct (Hvec (algVec p)) as (k & Hget & Hk). exists k.
    split; [|done]. unfold getAlg, makeAlg. simpl.
    by destruct (isReader (alg_class T')).
  - destruct (Hvec (toolVec p)) as (k & Hget & Hk). by exists k.
Qed.

(** The scan returns the same component on a longer vector and with a
    predicate that answers the same on the candidates up to that
    component. *)
Lemma getThing_from_stable T pred pred' vec more k : ∀ i,
  match pred, pred' with
  | None, None => True
  | Some f, Some f' =>
      ∀ j thing, i + j ≤ k → vec !! j = Some thing →
        derives (dyn_type thing) T = true → f' (i + j) thing = f (i + j) thing
  | _, _ => False
  end →
  getThing_from derives type_name T pred i vec = Return k →
  getThing_from derives type_name T pred' i (vec ++ more) = Return k.
Proof.
  induction vec as [|thing rest IHvec]; intros i Hsame; simpl; [done|].
  assert (Hrest :
    getThing_from derives type_name T pred (S i) rest = Return k →
    getThing_from derives type_name T pred' (S i) (rest ++ more) = Return k).
  { apply IHvec. destruct pred as [f|], pred' as [f'|]; try done.
    intros j t Hj Hl Hd. replace (S i + j) with (i + S j) by lia.
    apply Hsame; [lia|done|done]. }
  destruct (derives (dyn_type thing) T) eqn:Hd; [|done].
  destruct pred as [f|], pred' as [f'|]; try done.
  intros Hget.
  assert (i ≤ k) as Hik.
  { destruct (f i thing) as [[|]|e]; [by simplify_eq; lia| |done].
    apply getThing_from_Return_iff in Hget as (k' & _ & -> & _). lia. }
  specialize (Hsame 0 thing). rewrite Nat.add_0_r in Hsame.
  rewrite Hsame by done.
  destruct (f i thing) as [[|]|e]; [done|by apply Hrest|done].
Qed.

(** X4. A component that a lookup has returned is returned by the same
    lookup after any later [makeAlg] or [makeTool], when the predicate
    answers after the registration as it did before on the candidates up
    to that component: the scan does not look past its first match, and a
    registration appends. A predicate that is empty, or reads only the
    position and the type of the object, does so always. For a lookup by
    tag this is the case when the constructor of the new component, an
    algorithm or a tool, changes the [getTag] of none of these
    candidates. *)
Theorem lookup_stable T p k T' init :
  (∀ pred pred',
     answers_kept derives T pred pred' (algVec p) k →
     getAlg derives type_name T pred p = Return k →
     getAlg derives type_name T pred' (snd (makeAlg alg_class T' init p))
     = Return k
     ∧ getAlg derives type_name T pred' (snd (makeTool T' init p))
       = Return k)
  ∧ (∀ pred pred',
       answers_kept derives T pred pred' (toolVec p) k →
       getTool derives type_name T pred p = Return k →
       getTool derives type_name T pred' (snd (makeAlg alg_class T' init p))
       = Return k
       ∧ getTool derives type_name T pred' (snd (makeTool T' init p))
         = Return k)
  ∧ (∀ pred, answers_kept derives T pred pred (algVec p) k
             ∧ answers_kept derives T pred pred (toolVec p) k)
  ∧ (∀ tag q,
       q = snd (makeAlg alg_class T' init p)
       ∨ q = snd (makeTool T' init p) →
       (∀ j alg f, j ≤ k → algVec p !! j = Some alg →
          derives (dyn_type alg) T = true →
          getTag (alg_class (dyn_type alg)) = Some f →
          f j (heap q) = f j (heap p)) →
       getAlg_tag derives type_name alg_class T tag p = Return k →
       getAlg_tag derives type_name alg_class T tag q = Return k).
Proof.
  assert (Hvec : ∀ pred pred' vec more,
    answers_kept derives T pred pred' vec k →
    getThing derives type_name T vec pred = Return k →
    getThing derives type_name T (vec ++ more) pred' = Return k).
  { intros pred pred' vec more Hsame. unfold getThing.
    apply getThing_from_stable.
    by destruct pred as [f|], pred' as [f'|]. }
  assert (Hnil : ∀ pred pred' vec,
    answers_kept derives T pred pred' vec k →
    getThing derives type_name T vec pred = Return k →
    getThing derives type_name T vec pred' = Return k).
  { intros pred pred' vec Hsame Hget.
    rewrite <- (app_nil_r vec) at 1. by eapply Hvec. }
  split_and!.
  - intros pred pred' Hsame Hget. unfold getAlg, makeAlg, makeTool in *.
    simpl. split; [|by eapply Hnil].
    destruct (isReader (alg_class T')); simpl; by eapply Hvec.
  - intros pred pred' Hsame Hget. unfold getTool, makeAlg, makeTool in *.
    simpl. split; [|by eapply Hvec].
    destruct (isReader (alg_class T')); simpl; by eapply Hnil.
  - intros [f|]; by split.
  - intros tag q Hq Htags. unfold getAlg_tag, getThing_tag.
    assert (Halgs : ∃ more, algVec q = algVec p ++ more).
    { destruct Hq as [->| ->]; unfold makeAlg, makeTool; simpl.
      - exists [mkNode T' None]. by destruct (isReader (alg_class T')).
      - exists []. by rewrite app_nil_r. }
    destruct Halgs as [more ->]. apply Hvec. simpl.
    intros j alg Hj Hl Hd. unfold Algorithm_getTag.
    destruct (getTag (alg_class (dyn_type alg))) as [f|] eqn:Hf; [|done].
    by rewrite (Htags j alg f Hj Hl Hd Hf).
Qed.

End RegistryFacts.

(** Two tagged loggers, with tags 7 and 8: the lookup by tag 8 returns the
    second. *)
Lemma getAlg_tag_spec_witness :
  getAlg_tag Example.derives Example.type_name Example.alg_class
    Example.Logger 8 More.two_tagged
  = Return 1.
Proof.
  destruct (getAlg_tag_spec Example.derives Example.type_name
              Example.alg_class Example.Logger 8 More.two_tagged 1)
    as (_ & Hfound & _).
  apply (Hfound (mkNode Example.TaggedLogger None)
           (fun i _ => Z.of_nat i + 7)%Z); try reflexivity.
  intros [|j] a Hj Hl Ha; [|lia]. vm_compute in Hl. injection Hl as <-.
  eexists. split; [reflexivity|]. vm_compute. discriminate.
Defined.

(** [makeAlg<MockReader>()] on a pipeline with one logger: the reader is
    found at position 1. *)
Lemma register_then_lookup_witness :
  ∃ k, getAlg Example.derives Example.type_name Example.MockReader None
         (snd (makeAlg Example.alg_class Example.MockReader (Example.new 2)
                 Example.one_logger))
       = Return k.
Proof.
  destruct (register_then_lookup Example.derives Example.type_name
              Example.alg_class Example.MockReader Example.MockReader
              (Example.new 2) Example.one_logger eq_refl)
    as [(k & Hget & _) _].
  exists k. exact Hget.
Defined.

(** The tagged logger found at position 1 by the tag 8 is found there
    after a reader has been registered, and so is the logger found at
    position 0 without a predicate. *)
Lemma lookup_stable_witness :
  getAlg_tag Example.derives Example.type_name Example.alg_class
    Example.Logger 8
    (snd (makeAlg Example.alg_class Example.MockReader (Example.new 2)
            More.two_tagged))
  = Return 1
  ∧ getAlg Example.derives Example.type_name Example.Logger None
      (snd (makeAlg Example.alg_class Example.MockReader (Example.new 2)
              Example.one_logger))
    = Return 0.
Proof.
  split.
  - destruct (lookup_stable Example.derives Example.type_name
                Example.alg_class Example.Logger More.two_tagged 1
                Example.MockReader (Example.new 2)) as (_ & _ & _ & Htag).
    apply Htag.
    + left. reflexivity.
    + intros [|[|j]] alg f Hj Hl Hd Hf; [| |lia];
        vm_compute in Hl; injection Hl as <-;
        vm_compute in Hf; injection Hf as <-; reflexivity.
    + vm_compute. reflexivity.
  - destruct (lookup_stable Example.derives Example.type_name
                Example.alg_class Example.Logger Example.one_logger 0
                Example.MockReader (Example.new 2)) as (Halg & _).
    destruct (Halg None None I eq_refl) as [Hget _]. exact Hget.
Defined.

(** Without that condition a lookup by tag is not stable: the logger
    found by the tag 0 is not found after the registration of an algorithm
    whose constructor changes its tag. *)
Lemma lookup_by_tag_not_stable :
  getAlg_tag Example.derives Example.type_name More.counter_tag_class
    Example.Logger 0 Example.one_logger
  = Return 0
  ∧ getAlg_tag Example.derives Example.type_name More.counter_tag_class
      Example.Logger 0
      (snd (makeAlg More.counter_tag_class Example.Logger More.retag
              Example.one_logger))
    = Throw (couldnt_find (Example.type_name Example.Logger)).
Proof. split; vm_compute; reflexivity. Qed.

(** ** The run of [process] *)

Section ProcessFacts.

Context {cls W : Type}.
Context (alg_class : cls → AlgorithmClass cls W).
Context (tool_class : cls → ToolClass cls W).

Implicit Types (p q : Pipeline cls W) (algs tools v : list (Node cls)).

Lemma readers_from_types algs : ∀ algs' i,
  dyn_type <$> algs = dyn_type <$> algs' →
  readers_from alg_class i algs = readers_from alg_class i algs'.
Proof.
  induction algs as [|alg rest IHalgs]; intros [|alg' rest'] i Htypes;
    try done.
  rewrite !fmap_cons in Htypes. injection Htypes as Hd Hrest.
  simpl. by rewrite Hd, (IHalgs rest' (S i) Hrest).
Qed.

Lemma vec_connected_types a v v' :
  vec_connected a v v' → dyn_type <$> v' = dyn_type <$> v.
Proof.
  intros [Hlen Hnodes]. apply list_eq. intros j.
  rewrite !list_lookup_fmap.
  destruct (v !! j) as [n|] eqn:Hn, (v' !! j) as [n'|] eqn:Hn'; simpl.
  - by destruct (Hnodes j n n' Hn Hn') as [-> _].
  - apply lookup_lt_Some in Hn. apply lookup_ge_None in Hn'. lia.
  - apply lookup_lt_Some in Hn'. apply lookup_ge_None in Hn. lia.
  - done.
Qed.

(** The members that the phases of [process] leave alone. *)
Lemma connect_algs_from_files algs : ∀ i p r p' evs,
  connect_algs_from alg_class i algs p = (r, p', evs) →
  inFilePaths p' = inFilePaths p ∧ next_file p' = next_file p
  ∧ file_log p' = file_log p.
Proof.
  induction algs as [|alg rest IHalgs]; intros i p r p' evs Hcon.
  { simpl in Hcon. by simplify_eq. }
  simpl in Hcon.
  destruct (connect _ i _) as [[[]|e] h]; [|by simplify_eq].
  destruct (connect_algs_from alg_class (S i) rest _) as [[r' p3] evs'] eqn:Hrec.
  simplify_eq. by destruct (IHalgs _ _ _ _ _ Hrec) as (-> & -> & ->).
Qed.

Lemma connect_tools_from_files tools : ∀ i p r p' evs,
  connect_tools_from tool_class i tools p = (r, p', evs) →
  inFilePaths p' = inFilePaths p ∧ next_file p' = next_file p
  ∧ file_log p' = file_log p.
Proof.
  induction tools as [|tool rest IHtools]; intros i p r p' evs Hcon.
  { simpl in Hcon. by simplify_eq. }
  simpl in Hcon.
  destruct (tool_connect _ i _) as [[[]|e] h]; [|by simplify_eq].
  destruct (connect_tools_from tool_class (S i) rest _)
    as [[r' p3] evs'] eqn:Hrec.
  simplify_eq. by destruct (IHtools _ _ _ _ _ Hrec) as (-> & -> & ->).
Qed.

Lemma before_loop_files inFiles p r p1 evs :
  before_loop alg_class tool_class inFiles p = (r, p1, evs) →
  inFilePaths p1 = inFiles ∧ next_file p1 = next_file p
  ∧ file_log p1 = file_log p.
Proof.
  unfold before_loop. intros Hbefore.
  destruct (load_from alg_class inFiles 0 _ _) as [h1 evs1].
  set (p0 := set_heap h1 (set_inFilePaths inFiles p)) in Hbefore.
  destruct (connect_algs_from alg_class 0 (algVec p0) p0)
    as [[ra p2] evs2] eqn:Halgs.
  apply connect_algs_from_files in Halgs as (Hin2 & Hnext2 & Hlog2).
  simpl in Hin2, Hnext2, Hlog2.
  destruct ra as [[]|e]; [|by injection Hbefore as <- <- <-].
  destruct (connect_tools_from tool_class 0 (toolVec p2) p2)
    as [[rt p3] evs3] eqn:Htools.
  apply connect_tools_from_files in Htools as (Hin3 & Hnext3 & Hlog3).
  simplify_eq. split_and!; congruence.
Qed.

Lemma cycle_loop_files fuel : ∀ p p' cs,
  cycle_loop alg_class fuel p = Some (p', cs) →
  inFilePaths p' = inFilePaths p ∧ next_file p' = next_file p
  ∧ file_log p' = file_log p.
Proof.
  induction fuel as [|fuel IHfuel]; intros p p' cs Hloop; [done|].
  simpl in Hloop. unfold cycle in Hloop.
  destruct (cycle_from _ _ _ _ _) as [[running h] evs].
  case_bool_decide; [by simplify_eq|].
  destruct (cycle_loop alg_class fuel _) as [[p2 cs2]|] eqn:Hrec; [|done].
  simplify_eq. by destruct (IHfuel _ _ _ Hrec) as (-> & -> & ->).
Qed.

Lemma finalize_from_files algs : ∀ i p p' evs,
  finalize_from alg_class i algs p = (p', evs) →
  inFilePaths p' = inFilePaths p ∧ next_file p' = next_file p
  ∧ file_log p' = file_log p ∧ outFileMap p' = outFileMap p.
Proof.
  induction algs as [|alg rest IHalgs]; intros i p p' evs Hfin.
  { simpl in Hfin. by simplify_eq. }
  simpl in Hfin.
  destruct (finalize_from alg_class (S i) rest _) as [p2 evs2] eqn:Hrec.
  simplify_eq. by destruct (IHalgs _ _ _ _ Hrec) as (-> & -> & -> & ->).
Qed.

Lemma after_loop_files p r p' evs :
  after_loop alg_class p = (r, p', evs) →
  inFilePaths p' = inFilePaths p ∧ next_file p' = next_file p
  ∧ file_log p' = file_log p ∧ outFileMap p' = outFileMap p.
Proof.
  unfold after_loop, cd_default, getOutFile. intros Hafter.
  destruct (outFileMap p !! DefaultFile) as [[f|]|]; simplify_eq; [| done |].
  - destruct (finalize_from alg_class 0 (algVec p) p) as [p2 evs2] eqn:Hfin.
    simplify_eq. by apply finalize_from_files in Hfin.
  - destruct (finalize_from alg_class 0 (algVec p) p) as [p2 evs2] eqn:Hfin.
    simplify_eq. by apply finalize_from_files in Hfin.
Qed.

(** What [process] leaves of the pipeline, however it ends. *)
Lemma process_frame fuel inFiles p r p' evs :
  process alg_class tool_class fuel inFiles p = Some (r, p', evs) →
  this p' = this p
  ∧ dyn_type <$> algVec p' = dyn_type <$> algVec p
  ∧ dyn_type <$> toolVec p' = dyn_type <$> toolVec p
  ∧ runningReaders p' ⊆ runningReaders p
  ∧ outFileMap p' = outFileMap p
  ∧ inFilePaths p' = inFiles
  ∧ next_file p' = next_file p ∧ file_log p' = file_log p.
Proof.
  unfold process. intros Hprocess.
  destruct (before_loop alg_class tool_class inFiles p)
    as [[rb p1] evs1] eqn:Hbefore.
  pose proof (before_loop_files _ _ _ _ _ Hbefore) as (Hin1 & Hnext1 & Hlog1).
  apply before_loop_spec in Hbefore
    as (Hthis1 & Hrun1 & Hout1 & Halg1 & Htool1 & _ & _).
  apply vec_connected_types in Halg1, Htool1.
  destruct rb as [[]|e]; [|simplify_eq; split_and!; try done; by rewrite Hrun1].
  destruct (cycle_loop alg_class fuel p1) as [[p2 cs]|] eqn:Hloop; [|done].
  pose proof (cycle_loop_files _ _ _ _ Hloop) as (Hin2 & Hnext2 & Hlog2).
  pose proof (cycle_loop_frame _ _ _ _ _ Hloop)
    as (Hthis2 & Halg2 & Htool2 & Hout2).
  apply cycle_loop_cycles in Hloop as (Hempty & _ & _).
  destruct (after_loop alg_class p2) as [[ra p3] evs3] eqn:Hafter.
  pose proof (after_loop_files _ _ _ _ Hafter) as (Hin3 & Hnext3 & Hlog3 & Hout3).
  apply after_loop_spec in Hafter as (Hthis3 & Halg3 & Htool3 & Hrun3 & _).
  simplify_eq. split_and!; try congruence.
  rewrite Hrun3, Hempty. set_solver.
Qed.





(** Every call of the cycles is the [execute] of a registered algorithm
    that is no reader or was running at the start. *)
Lemma cycles_events n : ∀ p p' cs,
  cycles alg_class n p = (p', cs) →
  ∀ e, e ∈ concat cs →
    ∃ j st alg, e = ev_execute j st ∧ algVec p !! j = Some alg
      ∧ is_called alg_class (runningReaders p) j alg.
Proof.
  induction n as [|n IHn]; intros p p' cs Hcs e He.
  { simpl in Hcs. simplify_eq. by apply elem_of_nil in He. }
  simpl in Hcs. destruct (cycle alg_class p) as [p1 evs] eqn:Hcyc.
  destruct (cycles alg_class n p1) as [p2 rest] eqn:Hrec. simplify_eq.
  pose proof (cycle_running _ _ _ _ Hcyc) as Hrun.
  apply cycle_unfold in Hcyc as [Hcyc Halg].
  simpl in He. apply elem_of_app in He as [He|He].
  - destruct (cycle_from_event _ _ _ _ _ _ _ _ Hcyc _ He)
      as (j & st & alg & -> & _ & Hl & Hc).
    rewrite Nat.sub_0_r in Hl. by exists j, st, alg.
  - destruct (IHn _ _ _ Hrec _ He) as (j & st & alg & -> & Hl & Hc).
    exists j, st, alg. rewrite <- Halg. split_and!; try done.
    destruct Hc as [?|Hin]; [by left|right]. by apply Hrun in Hin as [? _].
Qed.

(** X5. Every running reader is a registered algorithm that is a reader:
    so it is in a pipeline without components, and so it stays under
    [makeAlg], [makeTool], [makeOutFile], [getOutFile] and [process],
    however [process] ends. *)
Theorem readers_valid_kept p :
  (∀ a h, readers_valid alg_class (empty_pipeline a h))
  ∧ (readers_valid alg_class p →
     (∀ T init, readers_valid alg_class (snd (makeAlg alg_class T init p)))
     ∧ (∀ T init, readers_valid alg_class (snd (makeTool T init p)))
     ∧ (∀ path name reopen,
          readers_valid alg_class (snd (makeOutFile path name reopen p)))
     ∧ (∀ name, readers_valid alg_class (snd (getOutFile name p)))
     ∧ (∀ fuel inFiles r p' evs,
          process alg_class tool_class fuel inFiles p = Some (r, p', evs) →
          readers_valid alg_class p')).
Proof.
  unfold readers_valid. split; [done|]. intros Hvalid. split_and!.
  - intros T init. unfold makeAlg. simpl.
    destruct (isReader (alg_class T)) eqn:Hread; simpl;
      rewrite readers_from_app; simpl; rewrite ?Hread; set_solver.
  - done.
  - intros path name reopen. unfold makeOutFile, erase_outFile.
    destruct (outFileMap p !! name) as [[f|]|]; [destruct reopen| |];
      simpl; try done. by destruct reopen.
  - intros name. unfold getOutFile. by destruct (outFileMap p !! name).
  - intros fuel inFiles r p' evs Hprocess.
    apply process_frame in Hprocess as (_ & Htypes & _ & Hrun & _).
    rewrite (readers_from_types _ _ 0 Htypes). set_solver.
Qed.

(** X6. When [process] returns, no reader is running; a further call of
    [process] on that pipeline, however it ends, calls the [execute] of no
    reader. *)
Theorem process_leaves_no_reader fuel inFiles p p1 evs1 :
  process alg_class tool_class fuel inFiles p = Some (Return (), p1, evs1) →
  runningReaders p1 = ∅
  ∧ ∀ fuel' inFiles' r p2 evs2,
      process alg_class tool_class fuel' inFiles' p1 = Some (r, p2, evs2) →
      ∀ j st, ev_execute j st ∈ evs2 →
        ∃ alg, algVec p1 !! j = Some alg
          ∧ isReader (alg_class (dyn_type alg)) = false.
Proof.
  intros Hfirst.
  assert (Hempty : runningReaders p1 = ∅).
  { unfold process in Hfirst.
    destruct (before_loop alg_class tool_class inFiles p)
      as [[[[]|e] q1] e1]; [|done].
    destruct (cycle_loop alg_class fuel q1) as [[q2 cs]|] eqn:Hloop; [|done].
    apply cycle_loop_cycles in Hloop as (Hnone & _ & _).
    destruct (after_loop alg_class q2) as [[ra q3] e3] eqn:Hafter.
    apply after_loop_spec in Hafter as (_ & _ & _ & Hrun & _).
    simplify_eq. by rewrite Hrun. }
  split; [done|]. intros fuel' inFiles' r p2 evs2 Hsecond j st Hin.
  unfold process in Hsecond.
  destruct (before_loop alg_class tool_class inFiles' p1)
    as [[rb q1] e1] eqn:Hbefore.
  apply before_loop_spec in Hbefore as (_ & Hrun & _ & Hvec & _ & _ & Hno1).
  rewrite Hempty in Hrun.
  destruct rb as [[]|e]; [|simplify_eq; by destruct (Hno1 j st)].
  destruct (cycle_loop alg_class fuel' q1) as [[q2 cs]|] eqn:Hloop; [|done].
  apply cycle_loop_cycles in Hloop as (_ & Hcs & _).
  destruct (after_loop alg_class q2) as [[ra q3] e3] eqn:Hafter.
  apply after_loop_spec in Hafter as (_ & _ & _ & _ & Hno3).
  simplify_eq.
  apply elem_of_app in Hin as [Hin|Hin]; [by destruct (Hno1 j st)|].
  apply elem_of_app in Hin as [Hin|Hin]; [|by destruct (Hno3 j st)].
  destruct (cycles_events _ _ _ _ Hcs _ Hin)
    as (j' & st' & alg & [= <- <-] & Hl & Hc).
  destruct Hvec as [Hlen Hnodes].
  destruct (lookup_lt_is_Some_2 (algVec p1) j) as [alg1 Hl1].
  { apply lookup_lt_Some in Hl. lia. }
  destruct (Hnodes j alg1 alg Hl1 Hl) as [Hd _].
  exists alg1. split; [done|]. rewrite <- Hd.
  destruct Hc as [?|Hc]; [done|]. rewrite Hrun in Hc. set_solver.
Qed.






End ProcessFacts.

(** ** The run of the cycle loop *)

Section RunFacts.

Context {cls W : Type}.
Context (alg_class : cls → AlgorithmClass cls W).
Context (tool_class : cls → ToolClass cls W).

Implicit Types (p : Pipeline cls W) (algs : list (Node cls)).

(** The status of a call is what the [execute] of the algorithm at that
    position returned. *)
Lemma cycle_from_event_status algs running h running' h' evs i st :
  cycle_from alg_class 0 algs running h = (running', h', evs) →
  ev_execute i st ∈ evs →
  ∃ alg h1, algs !! i = Some alg
    ∧ fst (execute (alg_class (dyn_type alg)) i h1) = st.
Proof.
  intros Hcyc Hin.
  destruct (cycle_from_at _ _ _ _ _ _ _ _ _ Hcyc Hin)
    as (r1 & h1 & evs1 & alg & rest & h2 & _ & _ & _ & Hdrop & _ & Hexec & _).
  exists alg, h1. split; [|by rewrite Hexec].
  assert (drop i algs !! 0 = Some alg) as Hl by by rewrite Hdrop.
  rewrite lookup_drop, Nat.add_0_r in Hl. done.
Qed.

Lemma cycles_event_status n : ∀ p p' cs i st,
  cycles alg_class n p = (p', cs) →
  ev_execute i st ∈ concat cs →
  ∃ alg h1, algVec p !! i = Some alg
    ∧ fst (execute (alg_class (dyn_type alg)) i h1) = st.
Proof.
  induction n as [|n IHn]; intros p p' cs i st Hcs Hin.
  { simpl in Hcs. simplify_eq. by apply elem_of_nil in Hin. }
  simpl in Hcs. destruct (cycle alg_class p) as [p1 evs] eqn:Hcyc.
  destruct (cycles alg_class n p1) as [p2 rest] eqn:Hrec. simplify_eq.
  apply cycle_unfold in Hcyc as [Hcyc Halg].
  simpl in Hin. apply elem_of_app in Hin as [Hin|Hin].
  - by eapply cycle_from_event_status.
  - rewrite <- Halg. by eapply IHn.
Qed.

(** A pass calls an algorithm once at most, and none of those it has
    passed. *)
Lemma cycle_from_once algs r : ∀ i running h running' h' evs,
  cycle_from alg_class i algs running h = (running', h', evs) →
  length (statuses_of r evs) ≤ 1 ∧ (r < i → statuses_of r evs = []).
Proof.
  induction algs as [|alg rest IHalgs]; intros i running h running' h' evs Hcyc.
  { simpl in Hcyc. simplify_eq. simpl. split; [lia|done]. }
  assert (Hhead : ∀ st evs2,
    (length (statuses_of r evs2) ≤ 1 ∧ (r < S i → statuses_of r evs2 = [])) →
    length (statuses_of r (ev_execute i st :: evs2)) ≤ 1
    ∧ (r < i → statuses_of r (ev_execute i st :: evs2) = [])).
  { intros st evs2 [Hlen Hnone].
    change (ev_execute i st :: evs2) with ([ev_execute i st] ++ evs2).
    rewrite statuses_of_app. destruct (decide (i = r)) as [->|Hir].
    - rewrite Hnone by lia. unfold statuses_of. simpl.
      rewrite decide_True by done. simpl. split; lia.
    - replace (statuses_of r [ev_execute i st]) with (@nil Status)
        by (unfold statuses_of; simpl; by rewrite decide_False).
      split; [done|]. intros Hr. apply Hnone. lia. }
  simpl in Hcyc. destruct (isReader _ && _).
  { destruct (IHalgs _ _ _ _ _ _ Hcyc) as [Hlen Hnone]. split; [done|].
    intros Hr. apply Hnone. lia. }
  destruct (execute _ i h) as [[] h1].
  - destruct (cycle_from alg_class (S i) rest running h1)
      as [[r2 h2] evs2] eqn:Hrec.
    simplify_eq. apply Hhead. by eapply IHalgs.
  - simplify_eq. apply Hhead. simpl. split; [lia|done].
  - destruct (cycle_from alg_class (S i) rest (running ∖ {[i]}) h1)
      as [[r2 h2] evs2] eqn:Hrec.
    simplify_eq. apply Hhead. by eapply IHalgs.
Qed.

(** A reader that is not running is not called in any cycle. *)
Lemma cycles_not_running n : ∀ p p' cs r alg,
  cycles alg_class n p = (p', cs) →
  algVec p !! r = Some alg → isReader (alg_class (dyn_type alg)) = true →
  r ∉ runningReaders p → statuses_of r (concat cs) = [].
Proof.
  intros p p' cs r alg Hcs Hl Hread Hout. apply statuses_of_none.
  intros st Hin.
  destruct (cycles_events _ n _ _ _ Hcs _ Hin)
    as (j & st' & alg' & [= <- <-] & Hl' & [Hc|Hc]); [|done].
  simplify_eq. congruence.
Qed.

(** X10. What a reader returns over the cycles of a run: a reader that is
    not running is never called; a reader is called once a cycle at most;
    and after it has returned [EndOfFile] it is not called again, so that
    [EndOfFile] can only be the last status it returns. *)
Theorem EndOfFile_is_last n p p' cs r alg :
  cycles alg_class n p = (p', cs) →
  algVec p !! r = Some alg → isReader (alg_class (dyn_type alg)) = true →
  (r ∉ runningReaders p → statuses_of r (concat cs) = [])
  ∧ length (statuses_of r (concat cs)) ≤ n
  ∧ ∀ l1 l2, statuses_of r (concat cs) = l1 ++ EndOfFile :: l2 → l2 = [].
Proof.
  intros Hcs Hl Hread. split; [by eapply cycles_not_running|].
  revert p p' cs Hcs Hl.
  induction n as [|n IHn]; intros p p' cs Hcs Hl.
  { simpl in Hcs. simplify_eq. simpl. split; [lia|]. by intros []. }
  simpl in Hcs. destruct (cycle alg_class p) as [p1 evs] eqn:Hcyc.
  destruct (cycles alg_class n p1) as [p2 rest] eqn:Hrec. simplify_eq.
  pose proof (cycle_running _ _ _ _ Hcyc r) as Hrun.
  apply cycle_unfold in Hcyc as [Hcyc Halg].
  rewrite <- Halg in Hl.
  destruct (IHn _ _ _ Hrec Hl) as [Hlen Hlast].
  destruct (cycle_from_once _ r _ _ _ _ _ _ Hcyc) as [Honce _].
  simpl. rewrite statuses_of_app, length_app. split; [lia|].
  intros l1 l2 Hsplit.
  destruct (statuses_of r evs) as [|st [|st' l]] eqn:Hst;
    [by eapply Hlast| |simpl in Honce; lia].
  destruct l1 as [|s l1]; simpl in Hsplit; simplify_eq.
  - rewrite <- (cycles_not_running _ _ _ _ _ _ Hrec Hl Hread); [done|].
    rewrite Hrun. intros [_ Hno]. apply Hno, elem_statuses_of.
    rewrite Hst. apply list_elem_of_here.
  - by eapply Hlast.
Qed.

(** The loop is not left while a running reader returns no
    [EndOfFile]. *)
Lemma cycle_loop_not_left p r :
  r ∈ runningReaders p →
  (∀ n, ev_execute r EndOfFile ∉ concat (snd (cycles alg_class n p))) →
  ∀ fuel, cycle_loop alg_class fuel p = None.
Proof.
  intros Hr Hno fuel.
  destruct (cycle_loop alg_class fuel p) as [[p' cs]|] eqn:Hloop; [|done].
  apply cycle_loop_cycles in Hloop as (Hempty & Hcs & _).
  assert (r ∈ runningReaders p') as Hin.
  { apply (cycles_running _ _ _ _ _ Hcs). split; [done|].
    specialize (Hno (length cs)). by rewrite Hcs in Hno. }
  rewrite Hempty in Hin. set_solver.
Qed.

(** X11. A running reader whose [execute] never returns [EndOfFile]: the
    cycle loop is not left, whatever the number of cycles, and [process]
    does not return. The bodies of [load], [execute] and [finalize] being
    such that they return, it can only end with an exception of its
    connect phase, before any [execute]. *)
Theorem reader_without_end p r alg :
  algVec p !! r = Some alg → r ∈ runningReaders p →
  (∀ h, fst (execute (alg_class (dyn_type alg)) r h) ≠ EndOfFile) →
  (∀ fuel, cycle_loop alg_class fuel p = None)
  ∧ ∀ fuel inFiles res p' evs,
      process alg_class tool_class fuel inFiles p = Some (res, p', evs) →
      (∃ e, res = Throw e) ∧ ∀ j st, ev_execute j st ∉ evs.
Proof.
  intros Hl Hr Hnever.
  assert (Hloop : ∀ q, dyn_type <$> algVec q = dyn_type <$> algVec p →
            runningReaders q = runningReaders p →
            ∀ fuel, cycle_loop alg_class fuel q = None).
  { intros q Htypes Hrun. apply (cycle_loop_not_left q r); [by rewrite Hrun|].
    intros n Hin.
    destruct (cycles alg_class n q) as [q' cs] eqn:Hcs. simpl in Hin.
    destruct (cycles_event_status _ _ _ _ _ _ Hcs Hin)
      as (alg' & h1 & Hl' & Hst).
    assert (dyn_type alg' = dyn_type alg) as Hd.
    { apply (f_equal (.!! r)) in Htypes.
      rewrite !list_lookup_fmap, Hl, Hl' in Htypes. by simplify_eq. }
    rewrite Hd in Hst. by destruct (Hnever h1). }
  split; [by apply Hloop|].
  intros fuel inFiles res p' evs Hprocess. unfold process in Hprocess.
  destruct (before_loop alg_class tool_class inFiles p)
    as [[rb p1] evs1] eqn:Hbefore.
  pose proof (before_loop_spec _ _ _ _ _ _ _ Hbefore)
    as (_ & Hrun & _ & Hvec & _ & _ & Hno).
  destruct rb as [[]|e]; [|simplify_eq; split; [by eexists|done]].
  rewrite Hloop in Hprocess; [done| |done].
  by apply (vec_connected_types (this p)).
Qed.

(** An algorithm that the loop calls and whose [execute] always returns
    [SkipToNext] ends each cycle at its position. *)
Lemma cycle_skipper p p' evs i a :
  cycle alg_class p = (p', evs) →
  algVec p !! i = Some a → is_called alg_class (runningReaders p) i a →
  (∀ h, fst (execute (alg_class (dyn_type a)) i h) = SkipToNext) →
  ∀ j st, i < j → ev_execute j st ∉ evs.
Proof.
  intros Hcyc Hl Hc Halways j st Hij Hin.
  apply cycle_unfold in Hcyc as [Hcyc _].
  destruct (cycle_from_at _ _ _ _ _ _ _ _ _ Hcyc Hin)
    as (r1 & h1 & evs1 & alg & rest & h2 & Hpre & Hnoskip & _).
  assert (take j (algVec p) !! i = Some a) as Hti
    by by rewrite lookup_take_lt.
  destruct (cycle_from_called _ _ _ _ _ _ _ _ Hpre i a) as [st' Hin'];
    [lia|by rewrite Nat.sub_0_r|done| |].
  { intros k _ Hk. apply not_true_iff_false in Hnoskip. apply Hnoskip.
    apply has_skip_elem. by exists k. }
  destruct (cycle_from_event_status _ _ _ _ _ _ _ _ Hpre Hin')
    as (a' & h0 & Ha' & Hst).
  rewrite Hti in Ha'. injection Ha' as <-.
  rewrite Halways in Hst. subst st'.
  apply not_true_iff_false in Hnoskip. apply Hnoskip.
  apply has_skip_elem. by exists i.
Qed.

(** X12. An algorithm that the loop calls and whose [execute] always
    returns [SkipToNext] starves the algorithms after it: none of them is
    called in any cycle. When it is a running reader itself, or a reader
    after it is running, the cycle loop is not left. *)
Theorem always_SkipToNext_starves p i a :
  algVec p !! i = Some a → is_called alg_class (runningReaders p) i a →
  (∀ h, fst (execute (alg_class (dyn_type a)) i h) = SkipToNext) →
  (∀ n j st, i < j →
     ev_execute j st ∉ concat (snd (cycles alg_class n p)))
  ∧ (∀ r, i ≤ r → r ∈ runningReaders p →
       ∀ fuel, cycle_loop alg_class fuel p = None).
Proof.
  intros Hl Hc Halways.
  assert (Hnot_end : ∀ n, ev_execute i EndOfFile
                          ∉ concat (snd (cycles alg_class n p))).
  { intros n Hin. destruct (cycles alg_class n p) as [p' cs] eqn:Hcs.
    destruct (cycles_event_status _ _ _ _ _ _ Hcs Hin)
      as (a' & h1 & Ha' & Hst).
    simpl in Hin. rewrite Hl in Ha'. injection Ha' as <-.
    by rewrite Halways in Hst. }
  assert (Hstarve : ∀ n j st, i < j →
            ev_execute j st ∉ concat (snd (cycles alg_class n p))).
  { intros n. induction n as [|n IHn]; intros j st Hij Hin.
    { by apply elem_of_nil in Hin. }
    rewrite cycles_snoc in Hin. specialize (Hnot_end n).
    pose proof (cycles_algVec alg_class n p) as Halg.
    destruct (cycles alg_class n p) as [pn cs] eqn:Hcs. simpl in *.
    destruct (cycle alg_class pn) as [p' evs] eqn:Hcyc. simpl in Hin.
    rewrite concat_app in Hin. simpl in Hin. rewrite app_nil_r in Hin.
    apply elem_of_app in Hin as [Hin|Hin]; [by eapply IHn|].
    revert Hin. apply (cycle_skipper _ _ _ i a Hcyc); [congruence| |done|done].
    destruct Hc as [?|Hrun]; [by left|right].
    by apply (cycles_running _ _ _ _ _ Hcs). }
  split; [done|]. intros r Hir Hr.
  apply (cycle_loop_not_left p r Hr). intros n.
  destruct (decide (r = i)) as [->|Hne]; [done|]. apply Hstarve. lia.
Qed.

End RunFacts.

(** ** Files *)

Section FilesFacts.

Context {cls W : Type}.

Implicit Types (s : PipelineIn cls W) (p : Pipeline cls W).
Implicit Types (log : list FileEvent) (path name : string).

Lemma file_alive_new log f path option g :
  TFile_delete f ∉ log →
  file_alive (log ++ [TFile_new f path option]) g
  ↔ g = f ∨ file_alive log g.
Proof.
  intros Hnd. unfold file_alive. split.
  - intros [(pa & o & Hin) Hno]. apply not_elem_of_app in Hno as [Hno _].
    apply elem_of_app in Hin as [Hin|Hin]; [right; eauto|].
    apply list_elem_of_singleton in Hin. left. congruence.
  - intros [->|[(pa & o & Hin) Hno]].
    + split; [exists path, option; set_solver|]. set_solver.
    + split; [exists pa, o; set_solver|]. set_solver.
Qed.

Lemma file_alive_delete log f g :
  file_alive (log ++ [TFile_delete f]) g ↔ g ≠ f ∧ file_alive log g.
Proof.
  unfold file_alive. split.
  - intros [(pa & o & Hin) Hno]. apply not_elem_of_app in Hno as [Hno Hne].
    apply elem_of_app in Hin as [Hin|Hin]; [|set_solver].
    split; [|eauto]. intros ->. apply Hne, list_elem_of_here.
  - intros [Hne [(pa & o & Hin) Hno]].
    split; [exists pa, o; set_solver|].
    apply not_elem_of_app. split; [done|].
    intros Hin'. apply list_elem_of_singleton in Hin'. congruence.
Qed.

(** A file that a map holds has a number below [next_file]. *)
Lemma files_ok_held s f :
  files_ok s →
  (∃ name, outFileMap (base s) !! name = Some (Some f))
  ∨ (∃ path, inFileHandles s !! path = Some f) →
  f < next_file (base s) ∧ TFile_delete f ∉ file_log (base s).
Proof.
  intros (Hnew & _ & _ & Halive & _) Hheld.
  apply Halive in Hheld as [(pa & o & Hin) Hno]. split; [|done].
  by eapply Hnew.
Qed.

(** [outFileMap.erase(it)] *)
Lemma files_ok_erase s name :
  files_ok s →
  files_ok (mkPipelineIn (erase_outFile name (base s)) (inFileHandles s)).
Proof.
  intros Hok.
  pose proof Hok as (Hnew & Hdel & Hdup & Halive & Hout & Hin & Hdisj).
  unfold erase_outFile.
  destruct (outFileMap (base s) !! name) as [[g|]|] eqn:Hname.
  - destruct (files_ok_held s g Hok) as [Hg Hgd]; [left; by exists name|].
    unfold files_ok. simpl. split_and!.
    + intros f pa o Hf. apply elem_of_app in Hf as [Hf|Hf]; [by eapply Hnew|].
      by apply list_elem_of_singleton in Hf.
    + intros f Hf. apply elem_of_app in Hf as [Hf|Hf]; [by apply Hdel|].
      apply list_elem_of_singleton in Hf. by simplify_eq.
    + apply NoDup_app. split_and!; [done| |apply NoDup_singleton].
      intros e He He'. apply list_elem_of_singleton in He'. by subst e.
    + intros f. rewrite file_alive_delete, Halive. split.
      * intros [Hne [(name' & Hl)|Hheld]]; [left|by right].
        exists name'. rewrite lookup_delete_ne; [done|]. intros <-.
        rewrite Hname in Hl. by simplify_eq.
      * intros [(name' & Hl)|(pa & Hl)].
        -- apply lookup_delete_Some in Hl as [Hne Hl].
           split; [|left; by exists name']. intros ->.
           by destruct Hne; apply (Hout name name' g).
        -- split; [|right; by exists pa]. intros ->.
           by destruct (Hdisj name pa g).
    + intros n1 n2 f H1 H2. apply lookup_delete_Some in H1 as [_ H1].
      apply lookup_delete_Some in H2 as [_ H2]. by eapply Hout.
    + done.
    + intros n pa f H1. apply lookup_delete_Some in H1 as [_ H1].
      by eapply Hdisj.
  - unfold files_ok. simpl. split_and!; try done.
    + intros f. rewrite Halive. split.
      * intros [(name' & Hl)|Hheld]; [left|by right].
        exists name'. rewrite lookup_delete_ne; [done|]. intros <-.
        rewrite Hname in Hl. by simplify_eq.
      * intros [(name' & Hl)|Hheld]; [left|by right].
        apply lookup_delete_Some in Hl as [_ Hl]. by exists name'.
    + intros n1 n2 f H1 H2. apply lookup_delete_Some in H1 as [_ H1].
      apply lookup_delete_Some in H2 as [_ H2]. by eapply Hout.
    + intros n pa f H1. apply lookup_delete_Some in H1 as [_ H1].
      by eapply Hdisj.
  - unfold files_ok. simpl. rewrite delete_id by done. done.
Qed.

(** [outFileMap[name] = std::make_unique<TFile>(...)] under a name without
    an entry. *)
Lemma files_ok_bind s path name :
  files_ok s → outFileMap (base s) !! name = None →
  files_ok (mkPipelineIn (snd (bind_new_outFile path name (base s)))
                         (inFileHandles s)).
Proof.
  intros Hok Hname.
  pose proof Hok as (Hnew & Hdel & Hdup & Halive & Hout & Hin & Hdisj).
  assert (Hfresh : ∀ f,
    (∃ name', outFileMap (base s) !! name' = Some (Some f))
    ∨ (∃ pa, inFileHandles s !! pa = Some f) → f ≠ next_file (base s)).
  { intros f Hheld. destruct (files_ok_held s f Hok Hheld). lia. }
  unfold files_ok. simpl. split_and!.
  - intros f pa o Hf. apply elem_of_app in Hf as [Hf|Hf].
    + apply Hnew in Hf. lia.
    + apply list_elem_of_singleton in Hf. simplify_eq. lia.
  - intros f Hf. apply elem_of_app in Hf as [Hf|Hf].
    + apply Hdel in Hf. lia.
    + by apply list_elem_of_singleton in Hf.
  - apply NoDup_app. split_and!; [done| |apply NoDup_singleton].
    intros e He He'. apply list_elem_of_singleton in He'. subst e.
    apply Hnew in He. lia.
  - intros f. rewrite file_alive_new, Halive.
    2: { intros Hd. apply Hdel in Hd. lia. }
    split.
    + intros [->|[(name' & Hl)|Hheld]]; [left|left|by right].
      * exists name. by rewrite lookup_insert_eq.
      * exists name'. rewrite lookup_insert_ne; [done|]. intros <-.
        by rewrite Hname in Hl.
    + intros [(name' & Hl)|Hheld]; [|by right; right].
      apply lookup_insert_Some in Hl as [[_ [= <-]]|[Hne Hl]]; [by left|].
      right. left. by exists name'.
  - intros n1 n2 f H1 H2.
    apply lookup_insert_Some in H1 as [[<- [= <-]]|[Hne1 H1]];
      apply lookup_insert_Some in H2 as [[<- H2]|[Hne2 H2]]; try done.
    + destruct (Hfresh (next_file (base s))); [left; by exists n2|done].
    + simplify_eq. destruct (Hfresh (next_file (base s)));
        [left; by exists n1|done].
    + by eapply Hout.
  - done.
  - intros n pa f H1 H2.
    apply lookup_insert_Some in H1 as [[_ [= <-]]|[Hne1 H1]].
    + destruct (Hfresh (next_file (base s))); [right; by exists pa|done].
    + by destruct (Hdisj n pa f).
Qed.

(** [inFileHandles[path] = new TFile(path.c_str())] for a path without a
    handle. *)
Lemma files_ok_open s path :
  files_ok s → inFileHandles s !! path = None →
  files_ok (snd (open_inFile path s)).
Proof.
  intros Hok Hpath.
  pose proof Hok as (Hnew & Hdel & Hdup & Halive & Hout & Hin & Hdisj).
  assert (Hfresh : ∀ f,
    (∃ name', outFileMap (base s) !! name' = Some (Some f))
    ∨ (∃ pa, inFileHandles s !! pa = Some f) → f ≠ next_file (base s)).
  { intros f Hheld. destruct (files_ok_held s f Hok Hheld). lia. }
  unfold files_ok. simpl. split_and!.
  - intros f pa o Hf. apply elem_of_app in Hf as [Hf|Hf].
    + apply Hnew in Hf. lia.
    + apply list_elem_of_singleton in Hf. simplify_eq. lia.
  - intros f Hf. apply elem_of_app in Hf as [Hf|Hf].
    + apply Hdel in Hf. lia.
    + by apply list_elem_of_singleton in Hf.
  - apply NoDup_app. split_and!; [done| |apply NoDup_singleton].
    intros e He He'. apply list_elem_of_singleton in He'. subst e.
    apply Hnew in He. lia.
  - intros f. rewrite file_alive_new, Halive.
    2: { intros Hd. apply Hdel in Hd. lia. }
    split.
    + intros [->|[Hheld|(pa & Hl)]]; [right|by left|right].
      * exists path. by rewrite lookup_insert_eq.
      * exists pa. rewrite lookup_insert_ne; [done|]. intros <-.
        by rewrite Hpath in Hl.
    + intros [Hheld|(pa & Hl)]; [by right; left|].
      apply lookup_insert_Some in Hl as [[_ <-]|[Hne Hl]]; [by left|].
      right. right. by exists pa.
  - done.
  - intros p1 p2 f H1 H2.
    apply lookup_insert_Some in H1 as [[<- <-]|[Hne1 H1]];
      apply lookup_insert_Some in H2 as [[<- H2]|[Hne2 H2]]; try done.
    + destruct (Hfresh (next_file (base s))); [right; by exists p2|done].
    + subst f. destruct (Hfresh (next_file (base s)));
        [right; by exists p1|done].
    + by eapply Hin.
  - intros n pa f H1 H2.
    apply lookup_insert_Some in H2 as [[_ <-]|[Hne2 H2]].
    + destruct (Hfresh (next_file (base s))); [left; by exists n|done].
    + by destruct (Hdisj n pa f).
Qed.

(** X13. The files are accounted for in a pipeline without files, and
    [makeOutFile], however it ends, [getOutFile] and [inFile] keep them
    so: each [TFile] created and not deleted is held by one name of the
    output map or by one path of the input map, a file that a map holds
    is alive, and no file is deleted twice. *)
Theorem files_ok_kept s :
  (∀ a (h : W),
     files_ok (mkPipelineIn (empty_pipeline a h : Pipeline cls W) ∅))
  ∧ (files_ok s →
     (∀ path name reopen,
        files_ok (mkPipelineIn (snd (makeOutFile path name reopen (base s)))
                               (inFileHandles s)))
     ∧ (∀ name,
          files_ok (mkPipelineIn (snd (getOutFile name (base s)))
                                 (inFileHandles s)))
     ∧ (∀ i, files_ok (snd (inFile i s)))).
Proof.
  split.
  { intros a h. unfold files_ok, file_alive. simpl. split_and!.
    - intros f pa o Hin. by apply elem_of_nil in Hin.
    - intros f Hin. by apply elem_of_nil in Hin.
    - apply NoDup_nil_2.
    - intros f. split.
      + intros [(pa & o & Hin) _]. by apply elem_of_nil in Hin.
      + intros [(name & Hl)|(pa & Hl)]; by rewrite lookup_empty in Hl.
    - intros n1 n2 f Hl. by rewrite lookup_empty in Hl.
    - intros p1 p2 f Hl. by rewrite lookup_empty in Hl.
    - intros n pa f Hl. by rewrite lookup_empty in Hl. }
  intros Hok. assert (Hsame : files_ok (mkPipelineIn (base s) (inFileHandles s)))
    by by destruct s.
  split_and!.
  - intros path name reopen. unfold makeOutFile.
    destruct (outFileMap (base s) !! name) as [u|] eqn:Hname.
    + destruct reopen; [|done].
      apply (files_ok_bind
               (mkPipelineIn (erase_outFile name (base s)) (inFileHandles s))).
      * by apply files_ok_erase.
      * simpl. unfold erase_outFile. rewrite Hname.
        destruct u; simpl; apply lookup_delete_eq.
    + by apply (files_ok_bind s).
  - intros name. unfold getOutFile.
    destruct (outFileMap (base s) !! name) as [u|] eqn:Hname; [done|].
    destruct Hok as (Hnew & Hdel & Hdup & Halive & Hout & Hin & Hdisj).
    assert (Hheld : ∀ name' f,
      <[name:=None]> (outFileMap (base s)) !! name' = Some (Some f)
      ↔ outFileMap (base s) !! name' = Some (Some f)).
    { intros name' f. rewrite lookup_insert_Some. split.
      - by intros [[_ ?]|[_ ?]].
      - intros Hl. right. split; [|done]. intros <-. by rewrite Hname in Hl. }
    unfold files_ok. simpl. split_and!; try done.
    + intros f. rewrite Halive. by setoid_rewrite Hheld.
    + intros n1 n2 f. rewrite !Hheld. apply Hout.
    + intros n pa f. rewrite Hheld. apply Hdisj.
  - intros i. unfold inFile.
    destruct (inFilePaths (base s) !! i) as [path|]; [|done].
    destruct (inFileHandles s !! path) as [f|] eqn:Hpath; [done|].
    by apply (files_ok_open s path).
Qed.

(** X14. [makeOutFile] throws exactly when the name has an entry and
    [reopen] is not set, and then it is the "already opened" exception.
    When it returns, what it returns is the new [TFile], never the null
    pointer; [getOutFile] under the same name then returns that file and
    changes nothing; and the entries of the other names are as they
    were. *)
Theorem makeOutFile_then_getOutFile path name reopen p :
  ((∃ e, fst (makeOutFile path name reopen p) = Throw e)
   ↔ is_Some (outFileMap p !! name) ∧ reopen = false)
  ∧ (∀ e, fst (makeOutFile path name reopen p) = Throw e →
       e = already_opened name)
  ∧ ∀ f p', makeOutFile path name reopen p = (Return f, p') →
      f = Some (next_file p)
      ∧ getOutFile name p' = (f, p')
      ∧ ∀ other, other ≠ name →
          outFileMap p' !! other = outFileMap p !! other.
Proof.
  unfold makeOutFile, erase_outFile, bind_new_outFile. split_and!.
  - destruct (outFileMap p !! name) as [u|]; [destruct reopen|]; simpl.
    + split; [by intros [e ?]|by intros [_ ?]].
    + split; [done|by eexists].
    + split; [by intros [e ?]|]. by intros [[? ?] _].
  - intros e. destruct (outFileMap p !! name) as [u|]; [destruct reopen|];
      simpl; congruence.
  - intros f p' Hmake.
    destruct (outFileMap p !! name) as [[g|]|] eqn:Hname;
      [destruct reopen|destruct reopen|]; simplify_eq; simpl;
      (split; [done|]); unfold getOutFile; simpl;
      rewrite lookup_insert_eq; (split; [done|]); intros other Hne;
      rewrite lookup_insert_ne by done; try done;
      by rewrite lookup_delete_ne.
Qed.

(** X15. [inFile(i)] ends with [std::out_of_range], and changes nothing,
    for an [i] that is no position of the input paths. For a position, it
    returns a [TFile] that it has opened on the path of the position, with
    the default option, unless a handle for the path was there, which it
    then returns; the handle is kept, so that a later [inFile] of any
    position with this path returns the same file and opens nothing; the
    handles of other paths and the output map are as they were. *)
Theorem inFile_spec i s :
  (inFileCount (base s) ≤ i → inFile i s = (inFile_out_of_range, s))
  ∧ ∀ path, inFilePaths (base s) !! i = Some path →
      ∃ f s', inFile i s = (inFile_returns f, s')
        ∧ inFileHandles s' !! path = Some f
        ∧ (∀ j, inFilePaths (base s) !! j = Some path →
             inFile j s' = (inFile_returns f, s'))
        ∧ (∀ other, other ≠ path →
             inFileHandles s' !! other = inFileHandles s !! other)
        ∧ file_log (base s')
          = file_log (base s)
            ++ match inFileHandles s !! path with
               | Some _ => []
               | None => [TFile_new f path ""]
               end
        ∧ outFileMap (base s') = outFileMap (base s)
        ∧ inFilePaths (base s') = inFilePaths (base s).
Proof.
  unfold inFile, inFileCount. split.
  - intros Hi. by rewrite (lookup_ge_None_2 _ _ Hi).
  - intros path Hpath. rewrite Hpath.
    destruct (inFileHandles s !! path) as [f|] eqn:Hhandle.
    + exists f, s. rewrite app_nil_r. split_and!; try done.
      intros j Hj. by rewrite Hj, Hhandle.
    + eexists _, _. split; [done|]. simpl. rewrite lookup_insert_eq.
      split_and!; try done.
      * intros j Hj. by rewrite Hj, lookup_insert_eq.
      * intros other Hne. by rewrite lookup_insert_ne.
Qed.

End FilesFacts.

(** ** [process] and the input files *)

Section InputFacts.

Context {cls W : Type}.
Context (alg_class : cls → AlgorithmClass cls W).
Context (tool_class : cls → ToolClass cls W).

(** X16. However [process(inFiles)] ends, it leaves [inFiles] as the
    input paths: [inFileCount()] is their number, [inFile(i)] is out of
    range exactly from that number on, and below it [inFile(i)] returns
    the handle of path [i] of [inFiles]. *)
Theorem process_sets_input fuel inFiles (p : Pipeline cls W) r p' evs :
  process alg_class tool_class fuel inFiles p = Some (r, p', evs) →
  inFileCount p' = length inFiles
  ∧ ∀ handles i,
      (fst (inFile i (mkPipelineIn p' handles)) = inFile_out_of_range
       ↔ length inFiles ≤ i)
      ∧ ∀ path, inFiles !! i = Some path →
          ∃ f s', inFile i (mkPipelineIn p' handles) = (inFile_returns f, s')
            ∧ inFileHandles s' !! path = Some f.
Proof.
  intros Hprocess.
  apply process_frame in Hprocess as (_ & _ & _ & _ & _ & Hpaths & _).
  unfold inFileCount, inFile. simpl. rewrite Hpaths. split; [done|].
  intros handles i. split.
  - destruct (inFiles !! i) as [path|] eqn:Hi.
    + apply lookup_lt_Some in Hi.
      destruct (handles !! path); simpl; (split; [done|lia]).
    + apply lookup_ge_None in Hi. done.
  - intros path ->. destruct (handles !! path) as [f|] eqn:Hh.
    + by exists f, (mkPipelineIn p' handles).
    + eexists _, _. split; [done|]. simpl. by rewrite lookup_insert_eq.
Qed.

End InputFacts.

(** ** More of [SimpleAlg] and [PureAlg] *)

Section AdapterFacts.

Context {cls : Type} (derives : cls → cls → bool) (type_name : cls → string).
Context {U Data : Type} (ReaderT : cls).
Context (ready : nat → SimpleHeap U → bool).
Context (data : nat → SimpleHeap U → Data).

Implicit Types (pipeline : Pipeline cls (SimpleHeap U)) (h : SimpleHeap U).

(** X17. When [SimpleAlg::connect] returns, [reader] is the first
    registered algorithm that casts to [ReaderT], the [reader] of every
    other adapter and the other data are as they were, and an [execute] of
    the adapter on what [connect] has left does not dereference the null
    pointer: it returns [Continue], or what [consume] returns. When
    [connect] throws, it is with "getThing() couldn't find <ReaderT>", no
    algorithm casts to [ReaderT], and nothing has changed. *)
Theorem SimpleAlg_connect_then_execute
    (consume : nat → Data → SimpleHeap U → Status * SimpleHeap U)
    self pipeline r h' :
  SimpleAlg_connect derives type_name ReaderT self pipeline = (r, h') →
  (r = Return () →
     (∃ k, first_of_type derives ReaderT (algVec pipeline) k
        ∧ reader h' !! self = Some k
        ∧ SimpleAlg_execute ready data consume self h'
          = if ready k h'
            then (Return (fst (consume self (data k h') h')),
                  snd (consume self (data k h') h'))
            else (Return Continue, h'))
     ∧ (∀ other, other ≠ self →
          reader h' !! other = reader (heap pipeline) !! other)
     ∧ others h' = others (heap pipeline))
  ∧ (∀ e, r = Throw e →
       e = couldnt_find (type_name ReaderT)
       ∧ h' = heap pipeline
       ∧ ∀ alg, alg ∈ algVec pipeline → derives (dyn_type alg) ReaderT = false).
Proof.
  unfold SimpleAlg_connect, getAlg, getThing. intros Hcon.
  destruct (getThing_from derives type_name ReaderT None 0 (algVec pipeline))
    as [k|e0] eqn:Hget.
  - injection Hcon as <- <-. split; [|done]. intros _.
    apply getThing_from_Return_iff in Hget
      as (k' & thing & -> & Hk & Hd & _ & Hbefore).
    simpl. split_and!; [|by intros other Hne; rewrite lookup_insert_ne|done].
    exists k'. split_and!.
    + split; [by exists thing|]. intros j t Hj Hl.
      destruct (derives (dyn_type t) ReaderT) eqn:Ht; [|done].
      by destruct (Hbefore j t Hj Hl Ht) as (f & ? & _).
    + by rewrite lookup_insert_eq.
    + unfold SimpleAlg_execute. simpl. rewrite lookup_insert_eq.
      destruct (ready k' _); [|done]. by destruct (consume self _ _).
  - injection Hcon as <- <-. split; [done|]. intros e [= <-].
    assert (Hnone : ∀ alg, alg ∈ algVec pipeline →
              derives (dyn_type alg) ReaderT = false).
    { intros alg Hin. apply list_elem_of_lookup in Hin as [j Hj].
      destruct (derives (dyn_type alg) ReaderT) eqn:Hd; [|done].
      destruct (first_of_type_exists derives ReaderT (algVec pipeline))
        as [k Hk]; [by exists j, alg|].
      by rewrite (getThing_from_first derives type_name ReaderT _ 0 k Hk)
        in Hget. }
    split_and!; [|done|done].
    rewrite getThing_from_no_match in Hget; [by simplify_eq|].
    intros k thing Hk Ht. rewrite Hnone in Ht; [done|].
    apply list_elem_of_lookup. by exists k.
Qed.

(** X18. [PureAlg::execute], with its [func] a function of the data: it
    changes nothing; it dereferences the null pointer when [reader] is
    null; otherwise it returns [func] of the data of the reader when the
    reader is ready, and [Continue] when not. With [func] the [vetoIf] of
    a cut, it returns [SkipToNext] exactly when the reader is ready and
    the cut holds of its data, and it never returns [EndOfFile]. *)
Theorem PureAlg_execute_spec (func : Data → Status) self h :
  snd (PureAlg_execute ready data func self h) = h
  ∧ (fst (PureAlg_execute ready data func self h) = Throw null_dereference
     ↔ reader h !! self = None)
  ∧ (∀ r, reader h !! self = Some r →
       fst (PureAlg_execute ready data func self h)
       = Return (if ready r h then func (data r h) else Continue))
  ∧ (∀ cut r, func = (fun d => vetoIf (cut d)) →
       reader h !! self = Some r →
       (fst (PureAlg_execute ready data func self h) = Return SkipToNext
        ↔ ready r h = true ∧ cut (data r h) = true)
       ∧ fst (PureAlg_execute ready data func self h) ≠ Return EndOfFile).
Proof.
  unfold PureAlg_execute, SimpleAlg_execute, PureAlg_consume. split_and!.
  - destruct (reader h !! self) as [r|]; [|done]. by destruct (ready r h).
  - destruct (reader h !! self) as [r|]; [|done].
    destruct (ready r h); by split.
  - intros r ->. by destruct (ready r h).
  - intros cut r -> ->. unfold vetoIf.
    destruct (ready r h); simpl; [destruct (cut (data r h))|]; simpl;
      (split; [split; [try done; by intros [? ?]|try done; by intros [? ?]]
              |done]).
Qed.

End AdapterFacts.

(** ** The properties on the small programs *)

(** The logger of [MockReader; Logger; MockReader] is found at
    position 1. *)
Lemma getThing_Return_iff_witness :
  getThing Example.derives Example.type_name Example.Logger
    (algVec Example.two_readers) None
  = Return 1.
Proof.
  apply (getThing_Return_iff Example.derives Example.type_name Example.Logger
           (algVec Example.two_readers) None 1).
  exists (mkNode Example.Logger None).
  split; [reflexivity|]. split; [reflexivity|]. split; [exact I|].
  intros [|j] t Hj Hl Hd; [|lia].
  vm_compute in Hl. injection Hl as <-. discriminate Hd.
Defined.

(** A third reader registered on [two_readers]. *)
Lemma readers_valid_kept_witness :
  readers_valid Example.alg_class Example.two_readers
  ∧ readers_valid Example.alg_class
      (snd (makeAlg Example.alg_class Example.MockReader (Example.new 1)
              Example.two_readers)).
Proof.
  assert (Hvalid : readers_valid Example.alg_class Example.two_readers).
  { unfold readers_valid. apply (bool_decide_unpack _). vm_compute. exact I. }
  split; [exact Hvalid|].
  destruct (readers_valid_kept Example.alg_class Example.tool_class
              Example.two_readers) as [_ Hkept].
  destruct (Hkept Hvalid) as (Hmake & _). apply Hmake.
Defined.

(** [process] on [two_readers] returns, and no reader is left running. *)
Lemma process_leaves_no_reader_witness :
  ∃ p1 evs1,
    process Example.alg_class Example.tool_class 3 [] Example.two_readers
    = Some (Return (), p1, evs1)
    ∧ runningReaders p1 = ∅.
Proof.
  assert (Hp : ∃ p1 evs1,
    process Example.alg_class Example.tool_class 3 [] Example.two_readers
    = Some (Return (), p1, evs1)).
  { vm_compute. eexists _, _. reflexivity. }
  destruct Hp as (p1 & evs1 & Hp). exists p1, evs1. split; [exact Hp|].
  exact (proj1 (process_leaves_no_reader Example.alg_class Example.tool_class
                  3 [] Example.two_readers p1 evs1 Hp)).
Defined.




(** The reader at position 0 of [two_readers], over three cycles: two
    calls, the second of which returns [EndOfFile]. *)
Lemma EndOfFile_is_last_witness :
  ∃ p' cs,
    cycles Example.alg_class 3 Example.two_readers = (p', cs)
    ∧ statuses_of 0 (concat cs) = [Continue; EndOfFile]
    ∧ ∀ l1 l2, statuses_of 0 (concat cs) = l1 ++ EndOfFile :: l2 → l2 = [].
Proof.
  destruct (cycles Example.alg_class 3 Example.two_readers) as [p' cs] eqn:Hcs.
  exists p', cs. split; [reflexivity|].
  split; [vm_compute in Hcs; injection Hcs as _ <-; reflexivity|].
  destruct (EndOfFile_is_last Example.alg_class 3 Example.two_readers p' cs 0
              (mkNode Example.MockReader None) Hcs eq_refl eq_refl)
    as (_ & _ & Hlast).
  exact Hlast.
Defined.

(** [Logger; MockReader] with a reader that never ends. *)
Lemma reader_without_end_witness :
  cycle_loop More.alg_class 1000 More.endless = None
  ∧ ∀ fuel, cycle_loop More.alg_class fuel More.endless = None.
Proof.
  assert (Hnone : ∀ fuel, cycle_loop More.alg_class fuel More.endless = None).
  { refine (proj1 (reader_without_end More.alg_class Example.tool_class
                     More.endless 1 (mkNode Example.MockReader None)
                     eq_refl _ _)).
    - vm_compute. reflexivity.
    - intros h. discriminate. }
  split; [apply Hnone|exact Hnone].
Defined.

(** [Veto; MockReader(2)]: the reader is never called, and the loop is
    not left. *)
Lemma always_SkipToNext_starves_witness :
  (∀ n st, ev_execute 1 st ∉ concat (snd (cycles Example.alg_class n
                                            More.starved)))
  ∧ ∀ fuel, cycle_loop Example.alg_class fuel More.starved = None.
Proof.
  destruct (always_SkipToNext_starves Example.alg_class More.starved 0
              (mkNode Example.Veto None) eq_refl)
    as [Hstarved Hloop].
  - left. reflexivity.
  - intros h. reflexivity.
  - split.
    + intros n st. apply Hstarved. lia.
    + apply (Hloop 1); [lia|]. vm_compute. reflexivity.
Defined.

(** An output file made in a pipeline without files, and an input file
    opened next to it. *)
Lemma files_ok_kept_witness :
  files_ok (mkPipelineIn Example.with_output ∅)
  ∧ files_ok (snd (inFile 0 (mkPipelineIn
                    (set_inFilePaths ["a.root"] Example.with_output) ∅))).
Proof.
  destruct (files_ok_kept (mkPipelineIn Example.empty ∅)) as [Hempty Hkept].
  destruct (Hkept (Hempty 1 ∅)) as (Hmake & _).
  assert (Hout : files_ok (mkPipelineIn Example.with_output ∅))
    by exact (Hmake "out.root" DefaultFile false).
  split; [exact Hout|].
  destruct (files_ok_kept
              (mkPipelineIn (set_inFilePaths ["a.root"] Example.with_output) ∅))
    as [_ Hkept'].
  destruct Hkept' as (_ & _ & Hin); [exact Hout|]. apply Hin.
Defined.

(** [makeOutFile("out.root")], then [getOutFile()]. *)
Lemma makeOutFile_then_getOutFile_witness :
  getOutFile DefaultFile Example.with_output
  = (Some 0, Example.with_output).
Proof.
  destruct (makeOutFile_then_getOutFile "out.root" DefaultFile false
              Example.empty) as (_ & _ & Hret).
  destruct (Hret (Some 0) Example.with_output eq_refl) as (_ & Hget & _).
  exact Hget.
Defined.

(** Input paths [a.root; b.root; a.root]: positions 0 and 2 share a
    handle, and position 5 is out of range. *)
Lemma inFile_spec_witness :
  (∃ f s', inFile 0 More.with_inputs = (inFile_returns f, s')
     ∧ inFile 2 s' = (inFile_returns f, s'))
  ∧ inFile 5 More.with_inputs = (inFile_out_of_range, More.with_inputs).
Proof.
  split.
  - destruct (inFile_spec 0 More.with_inputs) as [_ Hin].
    destruct (Hin "a.root" eq_refl) as (f & s' & Hget & _ & Hsame & _).
    exists f, s'. split; [exact Hget|]. apply Hsame. reflexivity.
  - destruct (inFile_spec 5 More.with_inputs) as [Hout _].
    apply Hout. vm_compute. lia.
Defined.

(** [process({"a.root", "b.root"})] on [one_logger]. *)
Lemma process_sets_input_witness :
  ∃ p' evs,
    process Example.alg_class Example.tool_class 1 ["a.root"; "b.root"]
      Example.one_logger
    = Some (Return (), p', evs)
    ∧ inFileCount p' = 2
    ∧ fst (inFile 2 (mkPipelineIn p' ∅)) = inFile_out_of_range.
Proof.
  assert (Hp : ∃ p' evs,
    process Example.alg_class Example.tool_class 1 ["a.root"; "b.root"]
      Example.one_logger
    = Some (Return (), p', evs)).
  { vm_compute. eexists _, _. reflexivity. }
  destruct Hp as (p' & evs & Hp). exists p', evs. split; [exact Hp|].
  destruct (process_sets_input Example.alg_class Example.tool_class 1
              ["a.root"; "b.root"] Example.one_logger _ p' evs Hp)
    as [Hcount Hin].
  split; [exact Hcount|]. apply (Hin ∅ 2). simpl. lia.
Defined.

(** The adapter of [Adapter; Logger; MockReader] finds its reader at
    position 2. *)
Lemma SimpleAlg_connect_then_execute_witness :
  ∃ h' k,
    SimpleAlg_connect Example.derives Example.type_name Example.MockReader
      0 Example.adapter_and_reader
    = (Return (), h')
    ∧ first_of_type Example.derives Example.MockReader
        (algVec Example.adapter_and_reader) k
    ∧ reader h' !! 0 = Some k
    ∧ SimpleAlg_execute (fun _ _ => true) (fun _ _ => 5)
        (fun _ d h => (vetoIf (d =? 4), h)) 0 h'
      = (Return Continue, h').
Proof.
  assert (Hcon : ∃ h',
    SimpleAlg_connect Example.derives Example.type_name Example.MockReader
      0 Example.adapter_and_reader
    = (Return (), h')).
  { vm_compute. eexists. reflexivity. }
  destruct Hcon as [h' Hcon].
  destruct (SimpleAlg_connect_then_execute Example.derives Example.type_name
              Example.MockReader (fun _ _ => true) (fun _ _ => 5)
              (fun _ d h => (vetoIf (d =? 4), h)) 0
              Example.adapter_and_reader (Return ()) h' Hcon) as [Hret _].
  destruct (Hret eq_refl) as ((k & Hfirst & Hk & Hexec) & _).
  exists h', k. split; [exact Hcon|]. split; [exact Hfirst|].
  split; [exact Hk|exact Hexec].
Defined.

(** A [PureAlg] whose function vetoes the data 4, on a ready reader with
    the data 4. *)
Lemma PureAlg_execute_spec_witness :
  fst (PureAlg_execute (fun _ _ => true) (fun _ _ => 4)
         (fun d => vetoIf (d =? 4)) 0 (mkSimpleHeap {[0 := 2]} ()))
  = Return SkipToNext.
Proof.
  destruct (PureAlg_execute_spec (fun _ _ => true) (fun _ _ => 4)
              (fun d => vetoIf (d =? 4)) 0 (mkSimpleHeap {[0 := 2]} ()))
    as (_ & _ & _ & Hveto).
  destruct (Hveto (fun d => d =? 4) 2 eq_refl) as [Hskip _].
  - vm_compute. reflexivity.
  - apply Hskip. split; reflexivity.
Defined.
